(** * RobustGantt: geometry and layout engine

    A shallow embedding of the pure layout code of
    [src/components/RobustGantt.jsx] and the properties of its
    specification.

    The source file holds two variants of the component.  The first one
    (container-level hit-testing, interval-intersection projection) is
    embedded in [Module HitTest]; the second one (the "stable restore" with
    per-element mouse handlers and the clock-field projection) in
    [Module Stable].  Helpers whose text is the same in both variants
    ([clamp], [daysInMonth], [useGanttScale], [segToPixels], [assignLanes],
    [snapPx], the row layout loop) are embedded once.

    Modelling conventions.
    - A JavaScript number is a rational [Q]; [NaN] and the infinities do not
      occur.  Where the rounding of binary64 arithmetic decides what the
      code does, each operation is rounded by [fl], the binary64 number
      nearest to the exact result, ties to even: in the lane search of
      [assignLanes], in [snapPx] and in the scale of [useGanttScale] that
      [snapPx] divides by.  The projections, [segToPixels], the hit test
      and the drag handler compute in exact arithmetic, which is what the
      machine computes on coordinates with few binary places;
      [HitTest.projectHour64] repeats
      the hour branch of the projection with its operations rounded, for
      the rows of the examples.  [Math.round] is [floor (x + 1/2)], as
      ECMAScript defines it.
    - A [Date] is its time value, an integer number of milliseconds since the
      epoch; the local time zone is UTC (no offset, no daylight saving), so
      the local clock fields are those of the proleptic Gregorian calendar.
    - [null] and [undefined] are [None]. *)

From Stdlib Require Import ZArith QArith Qround Qabs Qpower Qreduction Lqa Lia List String
  Ascii Permutation Floats.
From stdpp Require Import base list strings gmap.

Open Scope Z_scope.

(** ** JavaScript numbers *)

Definition Math_max (a b : Q) : Q := if Qlt_le_dec a b then b else a.
Definition Math_min (a b : Q) : Q := if Qlt_le_dec b a then b else a.
Definition Math_round (x : Q) : Z := Qfloor (x + (1 # 2)).
Definition Math_floor (x : Q) : Z := Qfloor x.
Definition Math_abs (x : Q) : Q := Qabs x.

(** [clamp(n,a,b)] on the integers it is used with. *)
Definition clamp (n a b : Z) : Z := Z.max a (Z.min b n).

(** ** Binary64

    IEEE 754 rounding to nearest, ties to even, of a rational to a binary64
    number: 53 significant bits, exponents down to -1022 and subnormal
    numbers below.  Overflow to infinity is not modelled. *)

(** [floor (log2 x)] of a positive [x]. *)
Definition Qlog2 (x : Q) : Z :=
  let e0 := Z.log2 (Qnum x) - Z.log2 (Zpos (Qden x)) in
  if Qle_bool (2 ^ e0) x then e0 else e0 - 1.

(** The nearest integer, ties to even. *)
Definition roundHalfEven (q : Q) : Z :=
  let f := Qfloor q in
  match (q - inject_Z f ?= 1 # 2)%Q with
  | Lt => f
  | Gt => f + 1
  | Eq => if Z.even f then f else f + 1
  end.

(** The exponent of the unit in the last place of a positive [x]: 52 below
    its binary exponent, which counts as -1022 when it is less. *)
Definition ulpExp (x : Q) : Z := Z.max (Qlog2 x) (-1022) - 52.

Definition roundPos (x : Q) : Q :=
  (inject_Z (roundHalfEven (x / 2 ^ ulpExp x)) * 2 ^ ulpExp x)%Q.

Definition fl (x : Q) : Q :=
  match (x ?= 0)%Q with
  | Eq => 0%Q
  | Gt => Qred (roundPos x)
  | Lt => Qred (- roundPos (- x))
  end.

(** The value of a primitive binary64 float, to compare [fl] with the
    arithmetic of the machine. *)
Definition SF2Q (f : spec_float) : option Q :=
  match f with
  | S754_zero _ => Some 0%Q
  | S754_finite s m e =>
      Some (Qred ((if s then -1 else 1) * (inject_Z (Zpos m) * 2 ^ e)))%Q
  | _ => None
  end.

Definition Prim2Q (f : float) : option Q := SF2Q (Prim2SF f).

(** The float of an integer below 2^53 in magnitude. *)
Definition Z2F (z : Z) : float :=
  match z with
  | Z0 => 0%float
  | Zpos _ => PrimFloat.of_uint63 (Uint63.of_Z z)
  | Zneg p => (- PrimFloat.of_uint63 (Uint63.of_Z (Zpos p)))%float
  end.

(** [Math.round] of a float: the floor of [x + 1/2], exactly. *)
Definition roundFloat (x : float) : Z :=
  match Prim2Q x with
  | Some q => Qfloor (q + (1 # 2))
  | None => 0
  end.

(** ** Dates

    The clock fields of a time value and the [Date] constructor, after
    ECMAScript's [MakeDay], [MakeTime] and [MakeDate]. *)

Definition Date := Z.

Definition HOUR_MS : Z := 60 * 60 * 1000.
Definition DAY_MS : Z := 24 * HOUR_MS.

Definition getTime (d : Date) : Z := d.

(** Days since the epoch of the civil date [y]-[m]-[d], [m] in 1..12. *)
Definition days_from_civil (y m d : Z) : Z :=
  let y' := if m <=? 2 then y - 1 else y in
  let era := y' / 400 in
  let yoe := y' - era * 400 in
  let doy := (153 * (if 2 <? m then m - 3 else m + 9) + 2) / 5 + d - 1 in
  let doe := yoe * 365 + yoe / 4 - yoe / 100 + doy in
  era * 146097 + doe - 719468.

(** The civil date (year, month 1..12, day 1..31) of a day number. *)
Definition civil_from_days (z : Z) : Z * Z * Z :=
  let z' := z + 719468 in
  let era := z' / 146097 in
  let doe := z' - era * 146097 in
  let yoe := (doe - doe / 1460 + doe / 36524 - doe / 146096) / 365 in
  let doy := doe - (365 * yoe + yoe / 4 - yoe / 100) in
  let mp := (5 * doy + 2) / 153 in
  let d := doy - (153 * mp + 2) / 5 + 1 in
  let m := if mp <? 10 then mp + 3 else mp - 9 in
  ((if m <=? 2 then yoe + era * 400 + 1 else yoe + era * 400), m, d).

Definition Day (t : Date) : Z := t / DAY_MS.
Definition TimeWithinDay (t : Date) : Z := t mod DAY_MS.

Definition getFullYear (t : Date) : Z := fst (fst (civil_from_days (Day t))).
(** Months are numbered from 0, as [Date.prototype.getMonth] does. *)
Definition getMonth (t : Date) : Z := snd (fst (civil_from_days (Day t))) - 1.
Definition getDate (t : Date) : Z := snd (civil_from_days (Day t)).
(** 0 is Sunday; the epoch was a Thursday. *)
Definition getDay (t : Date) : Z := (Day t + 4) mod 7.
Definition getHours (t : Date) : Z := TimeWithinDay t / HOUR_MS.
Definition getMinutes (t : Date) : Z := (TimeWithinDay t / 60000) mod 60.

(** [MakeDay(year, month, date)]: the month may lie outside 0..11 and the
    date outside the month; both carry over. *)
Definition MakeDay (year month date : Z) : Z :=
  let ym := year + month / 12 in
  let mn := month mod 12 in
  days_from_civil ym (mn + 1) 1 + date - 1.

(** [new Date(y, m, d, h, mi, s, ms)]; a year in 0..99 means 1900 + year. *)
Definition newDate (y m d h mi s ms : Z) : Date :=
  let yr := if (0 <=? y) && (y <=? 99) then 1900 + y else y in
  MakeDay yr m d * DAY_MS + (h * HOUR_MS + mi * 60000 + s * 1000 + ms).

(** [x.setHours(0,0,0,0)] *)
Definition setHours0 (x : Date) : Date := Day x * DAY_MS.

(** [x.setDate(dt)] *)
Definition setDate (x : Date) (dt : Z) : Date :=
  MakeDay (getFullYear x) (getMonth x) dt * DAY_MS + TimeWithinDay x.

Definition daysInMonth (date : Date) : Z :=
  getDate (newDate (getFullYear date) (getMonth date + 1) 0 0 0 0 0).

(** ** Presets and the regular expressions tested on them *)

Definition isDigit (c : ascii) : bool :=
  let n := N_of_ascii c in ((48 <=? n) && (n <=? 57))%N.

Definition toLower (c : ascii) : ascii :=
  let n := N_of_ascii c in
  if ((65 <=? n) && (n <=? 90))%N then ascii_of_N (n + 32) else c.

Fixpoint startsWith (ci : bool) (p s : string) : bool :=
  match p, s with
  | EmptyString, _ => true
  | String a p', String b s' =>
      (if ci then Ascii.eqb (toLower a) (toLower b) else Ascii.eqb a b)
      && startsWith ci p' s'
  | String _ _, EmptyString => false
  end.

(** [/p/.test(s)] ([ci = false]) and [/p/i.test(s)] ([ci = true]) for a
    pattern [p] of literal characters. *)
Fixpoint regexTest (ci : bool) (p s : string) : bool :=
  startsWith ci p s
  || match s with
     | EmptyString => false
     | String _ s' => regexTest ci p s'
     end.

Fixpoint digitRun (s : string) (acc : Z) : Z :=
  match s with
  | String c s' =>
      if isDigit c then digitRun s' (acc * 10 + (Z.of_N (N_of_ascii c) - 48))
      else acc
  | EmptyString => acc
  end.

(** [parseInt(m[1], 10)] for [m = s.match(/([0-9]+)/)]; [None] when there is
    no match. *)
Fixpoint matchDigits (s : string) : option Z :=
  match s with
  | EmptyString => None
  | String c s' => if isDigit c then Some (digitRun s 0) else matchDigits s'
  end.

(** ** Data model *)

Inductive View := hour | week | month.

Record Resource := { rid : string; rname : string }.

(** [tid] is the task's [id], [end_] its [end]. *)
Record Task := {
  tid : string;
  resourceId : string;
  start : Date;
  end_ : Date;
  title : string;
  color : string
}.

Record Seg := { startUnit : Q; endUnit : Q; label : string }.

Record Scale := {
  totalUnits : Q;
  visibleUnits : Q;
  pxPerUnit : Q;
  contentPx : Q
}.

(** ** Scale calculator *)

(** [chartScrollRef.current?.clientWidth || 1200]: the width is absent while
    the ref is not attached; a DOM [clientWidth] is a non-negative integer. *)
Definition effectiveWidth (clientWidth : option N) : Q :=
  match clientWidth with
  | Some w => if (w =? 0)%N then 1200 else inject_Z (Z.of_N w)
  | None => 1200
  end.

Definition useGanttScale (view : View) (preset : string) (anchorDate : Date)
    (clientWidth : option N) : Scale :=
  let csW := effectiveWidth clientWidth in
  let '(totalUnits, visibleUnits) :=
    match view with
    | hour =>
        (24, match matchDigits preset with
             | Some n => clamp n 1 24
             | None => 24
             end)
    | week =>
        let totalUnits := if regexTest true "Work" preset then 5 else 7 in
        (totalUnits, totalUnits)
    | month =>
        let totalUnits := daysInMonth anchorDate in
        (totalUnits,
         if regexTest false "14" preset then 14
         else if regexTest false "7" preset then 7
         else totalUnits)
    end in
  let pxPerUnit := fl (csW / Math_max 1 (inject_Z visibleUnits)) in
  let contentPx := fl (pxPerUnit * inject_Z totalUnits) in
  {| totalUnits := inject_Z totalUnits;
     visibleUnits := inject_Z visibleUnits;
     pxPerUnit := pxPerUnit;
     contentPx := contentPx |}.

(** ** Pixel conversion *)

Record BarPx := { leftPx : Z; widthPx : Z; barLabel : string }.

Definition segToPixels (seg : option Seg) (scale : option Scale) : BarPx :=
  match seg, scale with
  | Some sg, Some sc =>
      {| leftPx := Math_round (startUnit sg * pxPerUnit sc);
         widthPx := Z.max 4 (Math_round ((endUnit sg - startUnit sg) * pxPerUnit sc));
         barLabel := label sg |}
  | _, _ =>
      {| leftPx := 0; widthPx := 0;
         barLabel := match seg with Some sg => label sg | None => "" end |}
  end.

(** ** Lane assignment (interval partitioning) *)

Record Item := { task : Task; seg : Seg }.
Record Placed := { ptask : Task; pseg : Seg; lane : Z }.
Record Lanes := { items : list Placed; laneCount : Z }.

(** The comparator [a.seg.startUnit - b.seg.startUnit || a.seg.endUnit - b.seg.endUnit]. *)
Definition compareItems (a b : Item) : Q :=
  let d := (startUnit (seg a) - startUnit (seg b))%Q in
  if Qeq_bool d 0 then (endUnit (seg a) - endUnit (seg b))%Q else d.

(** [items.slice().sort(compareItems)].  [Array.prototype.sort] is stable,
    and [compareItems] is a total preorder, so the result is the one stable
    ordering of the input; stable insertion computes it. *)
Fixpoint insertSorted (x : Item) (l : list Item) : list Item :=
  match l with
  | [] => [x]
  | y :: l' =>
      if Qle_bool (compareItems x y) 0 then x :: y :: l'
      else y :: insertSorted x l'
  end.

Definition sortItems (l : list Item) : list Item := foldr insertSorted [] l.

(** [l.findIndex(P)]; [None] stands for -1. *)
Fixpoint findIndex {A : Type} (P : A -> bool) (l : list A) : option nat :=
  match l with
  | [] => None
  | a :: l' => if P a then Some O else S <$> findIndex P l'
  end.

(** The literal [1e-9]: the binary64 number nearest to 10^-9. *)
Definition eps : Q := fl (1 # 1000000000).

(** [l[i] = f(l[i])] for a number [i].  A negative [i] names a property that
    is no array element: [length] and [findIndex] never see it, so the
    elements stay as they are.  An index at or past the length does not
    occur in [assignLanes] (see [placeItem]); it is left without effect. *)
Definition arrayUpdate (l : list Q) (i : Z) (f : Q -> Q) : list Q :=
  if i <? 0 then l else alter f (Z.to_nat i) l.

Record LaneState := { laneEnds : list Q; out : list Placed }.

(** One round of the loop over the sorted items. *)
Definition placeItem (maxLanes : Z) (st : LaneState) (it : Item) : LaneState :=
  let '(lane, laneEnds') :=
    match findIndex (fun e => Qle_bool e (fl (startUnit (seg it) + eps))) (laneEnds st) with
    | None =>
        if Z.of_nat (length (laneEnds st)) <? maxLanes then
          (Z.of_nat (length (laneEnds st)), laneEnds st ++ [endUnit (seg it)])
        else
          let lane := maxLanes - 1 in
          (lane, arrayUpdate (laneEnds st) lane (fun old => Math_max old (endUnit (seg it))))
    | Some i => (Z.of_nat i, <[i := endUnit (seg it)]> (laneEnds st))
    end in
  {| laneEnds := laneEnds';
     out := out st ++ [{| ptask := task it; pseg := seg it; lane := lane |}] |}.

Definition runLanes (maxLanes : Z) (sorted : list Item) : LaneState :=
  foldl (placeItem maxLanes) {| laneEnds := []; out := [] |} sorted.

Definition assignLanes (items : list Item) (maxLanes : Z) : Lanes :=
  let st := runLanes maxLanes (sortItems items) in
  {| items := out st; laneCount := Z.max 1 (Z.of_nat (length (laneEnds st))) |}.

(** ** Row layout *)

Record RowInfo := { rowItems : list Placed; rowLaneCount : Z; rowHeight : Z }.

Definition BASE_ROW_PX : Z := 40.

(** The inner loop of [rowLayout]: the projected segments of the tasks of
    resource [r], in task order. *)
Definition rowSegs (project : Task -> option Seg) (tasks : list Task) (r : Resource)
    : list Item :=
  omap (fun t =>
          if negb (String.eqb (resourceId t) (rid r)) then None
          else match project t with
               | None => None
               | Some sg => Some {| task := t; seg := sg |}
               end) tasks.

(** The outer loop: [byId.set(r.id, { items, laneCount, rowHeight })] for
    each resource.  The map is only read by key. *)
Definition rowLayoutWith (project : Task -> option Seg) (resources : list Resource)
    (tasks : list Task) (maxLanes laneOffset : Z) : gmap string RowInfo :=
  foldl (fun byId r =>
           let lanes := assignLanes (rowSegs project tasks r) maxLanes in
           let rowHeight := BASE_ROW_PX + Z.max 0 (laneCount lanes - 1) * laneOffset in
           <[rid r := {| rowItems := items lanes;
                         rowLaneCount := laneCount lanes;
                         rowHeight := rowHeight |}]> byId)
        ∅ resources.

(** ** Time projection *)

Module HitTest.

(** The projection of the first variant: the task is intersected with the
    visible window. *)
Definition projectTaskToView (task : Task) (view : View) (preset : string)
    (anchorDate : Date) : option Seg :=
  match view with
  | hour =>
      let dayStart :=
        newDate (getFullYear anchorDate) (getMonth anchorDate) (getDate anchorDate) 0 0 0 0 in
      let dayEnd := getTime dayStart + 24 * 60 * 60 * 1000 in
      let s := Z.max (getTime (start task)) (getTime dayStart) in
      let e := Z.min (getTime (end_ task)) (getTime dayEnd) in
      if e <=? s then None
      else
        let startUnit := (inject_Z (s - getTime dayStart) / 3600000)%Q in
        let endUnit :=
          Math_max (startUnit + 5 / 60)%Q (inject_Z (e - getTime dayStart) / 3600000)%Q in
        Some {| startUnit := startUnit; endUnit := endUnit; label := title task |}
  | week =>
      let work := regexTest true "Work" preset in
      let ws0 := setHours0 anchorDate in
      let ws :=
        if work then
          let monIdx := (getDay ws0 + 6) mod 7 in
          setDate ws0 (getDate ws0 - monIdx)
        else setDate ws0 (getDate ws0 - getDay ws0) in
      let dayCount := if work then 5 else 7 in
      let we := getTime ws + dayCount * DAY_MS in
      let s := Z.max (getTime (start task)) (getTime ws) in
      let e := Z.min (getTime (end_ task)) (getTime we) in
      if e <=? s then None
      else
        let startUnit := (inject_Z (s - getTime ws) / inject_Z DAY_MS)%Q in
        let endUnit :=
          Math_max (startUnit + (1 # 2) / 24)%Q
                   (inject_Z (e - getTime ws) / inject_Z DAY_MS)%Q in
        Some {| startUnit := startUnit; endUnit := endUnit; label := title task |}
  | month =>
      let ms := newDate (getFullYear anchorDate) (getMonth anchorDate) 1 0 0 0 0 in
      let me := newDate (getFullYear anchorDate) (getMonth anchorDate + 1) 1 0 0 0 0 in
      let s := Z.max (getTime (start task)) (getTime ms) in
      let e := Z.min (getTime (end_ task)) (getTime me) in
      if e <=? s then None
      else
        let startUnit := (inject_Z (s - getTime ms) / inject_Z DAY_MS)%Q in
        let endUnit :=
          Math_max (startUnit + (1 # 2) / 24)%Q
                   (inject_Z (e - getTime ms) / inject_Z DAY_MS)%Q in
        Some {| startUnit := startUnit; endUnit := endUnit; label := title task |}
  end.

(** The hour-view branch once more, with the two divisions and the sum
    rounded to binary64 as the machine computes them.  Time values are
    integers below 2^53, so they and their differences are exact. *)
Definition projectHour64 (task : Task) (anchorDate : Date) : option Seg :=
  let dayStart :=
    newDate (getFullYear anchorDate) (getMonth anchorDate) (getDate anchorDate) 0 0 0 0 in
  let dayEnd := getTime dayStart + 24 * 60 * 60 * 1000 in
  let s := Z.max (getTime (start task)) (getTime dayStart) in
  let e := Z.min (getTime (end_ task)) (getTime dayEnd) in
  if e <=? s then None
  else
    let startUnit := fl (inject_Z (s - getTime dayStart) / 3600000) in
    let endUnit :=
      Math_max (fl (startUnit + fl (5 / 60))) (fl (inject_Z (e - getTime dayStart) / 3600000)) in
    Some {| startUnit := startUnit; endUnit := endUnit; label := title task |}.

(** *** Row layout of the first variant *)

Definition rowLayout (resources : list Resource) (tasks : list Task) (view : View)
    (preset : string) (hourViewDate anchorDate : Date) (maxLanes laneOffset : Z)
    : gmap string RowInfo :=
  rowLayoutWith
    (fun t => projectTaskToView t view preset
                (match view with hour => hourViewDate | _ => anchorDate end))
    resources tasks maxLanes laneOffset.

(** *** Hit-testing *)

(** The rectangle captured by [getBoundingClientRect()], by the properties
    that are read from it. *)
Record DOMRect := {
  rect_left : Q;
  rect_top : Q;
  rect_right : Q;
  rect_bottom : Q;
  rect_width : Q;
  rect_height : Q
}.

(** An entry of [geomMapRef.current]: the element (a handle) and its
    rectangle.  The map is scanned in insertion order, so it is a list of
    keyed entries. *)
Record GeomEntry := { el : nat; rect : DOMRect }.

Record Hit := { taskId : string; hit_el : nat; hit_rect : DOMRect }.

Definition containsPoint (r : DOMRect) (clientX clientY : Q) : bool :=
  Qle_bool (rect_left r) clientX && Qle_bool clientX (rect_right r)
  && Qle_bool (rect_top r) clientY && Qle_bool clientY (rect_bottom r).

(** Distance of the pointer to the vertical centre of the rectangle. *)
Definition centerDy (r : DOMRect) (clientY : Q) : Q :=
  Math_abs (clientY - (rect_top r + rect_height r / 2))%Q.

(** [dy < bestDy], where [None] is [Infinity]. *)
Definition ltBest (dy : Q) (bestDy : option Q) : bool :=
  match bestDy with
  | None => true
  | Some b => negb (Qle_bool b dy)
  end.

(** The body of the [forEach] callback, on the pair [(best, bestDy)]. *)
Definition pickStep (clientX clientY : Q) (acc : option Hit * option Q)
    (entry : string * GeomEntry) : option Hit * option Q :=
  let r := rect (snd entry) in
  if containsPoint r clientX clientY then
    let dy := centerDy r clientY in
    if ltBest dy (snd acc)
    then (Some {| taskId := fst entry; hit_el := el (snd entry); hit_rect := r |}, Some dy)
    else acc
  else acc.

Definition pickBarAt (geom : list (string * GeomEntry)) (clientX clientY : Q)
    : option Hit :=
  fst (foldl (pickStep clientX clientY) (None, None) geom).

End HitTest.

Module Stable.

(** The projection of the second variant: the segment is read off the
    task's local clock fields. *)
Definition projectTaskToView (task : Task) (view : View) (preset : string)
    (anchorDate : Date) : option Seg :=
  match view with
  | hour =>
      let startH := (inject_Z (getHours (start task)) + inject_Z (getMinutes (start task)) / 60)%Q in
      let endH := (inject_Z (getHours (end_ task)) + inject_Z (getMinutes (end_ task)) / 60)%Q in
      Some {| startUnit := startH;
              endUnit := Math_max (startH + (5 # 100))%Q endH;
              label := title task |}
  | week =>
      let work := regexTest true "Work" preset in
      let monIdx := (getDay (start task) + 6) mod 7 in
      let dayIdx := if work then monIdx else getDay (start task) in
      let dayCount := if work then 5 else 7 in
      if (dayIdx <? 0) || (dayCount <=? dayIdx) then None
      else
        let startUnit :=
          (inject_Z dayIdx
           + (inject_Z (getHours (start task)) + inject_Z (getMinutes (start task)) / 60) / 24)%Q in
        let endUnit :=
          Math_min (inject_Z dayCount)
            (inject_Z dayIdx
             + Math_max (1 / 24) (inject_Z (end_ task - start task) / 86400000))%Q in
        Some {| startUnit := startUnit; endUnit := endUnit; label := title task |}
  | month =>
      let dim := daysInMonth anchorDate in
      let sDay := clamp (getDate (start task)) 1 dim - 1 in
      let eDay := clamp (getDate (end_ task)) 1 dim - 1 in
      let sFrac := ((inject_Z (getHours (start task)) + inject_Z (getMinutes (start task)) / 60) / 24)%Q in
      let eFrac := ((inject_Z (getHours (end_ task)) + inject_Z (getMinutes (end_ task)) / 60) / 24)%Q in
      let startUnit := (inject_Z sDay + sFrac)%Q in
      let endUnit := Math_max (startUnit + 1 / 48)%Q (inject_Z eDay + eFrac)%Q in
      Some {| startUnit := startUnit; endUnit := endUnit; label := title task |}
  end.

Definition rowLayout (resources : list Resource) (tasks : list Task) (view : View)
    (preset : string) (anchorDate : Date) (maxLanes laneOffset : Z)
    : gmap string RowInfo :=
  rowLayoutWith (fun t => projectTaskToView t view preset anchorDate)
    resources tasks maxLanes laneOffset.

End Stable.


(** ** Drag and resize *)

Inductive Mode := move | resize_l | resize_r.

(** What the controller reads of the dragged element: the parsed inline
    [left] and [width] ([None] when unset or not a number) and the width of
    its bounding rectangle. *)
Record Element := { styleLeft : option Q; styleWidth : option Q; boundingWidth : Q }.

Record DragState := {
  mode : Mode;
  dragEl : Element;
  startX : Q;
  origLeft : Q;
  origWidth : Q;
  dragTask : string
}.

Record Change := {
  change_startUnit : Q;
  durationU : Q;
  change_mode : Mode;
  change_snapUnits : Q
}.

(** The state the drag controller works on.  [calls] records the
    invocations of the external [onTasksChange], oldest first. *)
Record Core := {
  dragRef : option DragState;
  internalTasks : list Task;
  tipShown : bool;
  cursor : string;
  calls : list (string * Change)
}.

(** [snapPx]; [snapUnits] is falsy when it is 0.  The division, the
    quotient by the snap unit and the two products are binary64 operations;
    [Math.round] of a binary64 number is exact. *)
Definition snapPx (scale : option Scale) (snapUnits : Q) (px : Q) : Z :=
  match scale with
  | None => Math_round px
  | Some sc =>
      if Qeq_bool snapUnits 0 then Math_round px
      else
        let units := fl (px / pxPerUnit sc) in
        let snappedUnits := fl (inject_Z (Math_round (fl (units / snapUnits))) * snapUnits) in
        Math_round (fl (snappedUnits * pxPerUnit sc))
  end.

(** The same lines on the floats of the machine, for a scale that is
    present and a snap unit that is not 0. *)
Definition snapPxFloat (pxPerUnit snapUnits px : float) : Z :=
  let units := (px / pxPerUnit)%float in
  let snappedUnits := (Z2F (roundFloat (units / snapUnits)) * snapUnits)%float in
  roundFloat (snappedUnits * pxPerUnit).

(** [getSnapOptions]: the snap units on offer, in view units.  The
    quotients are binary64 divisions. *)
Definition getSnapOptions (view : View) (preset : string) : list (string * Q) :=
  match view with
  | hour =>
      [ ("1 min", fl (1 / 60)); ("5 min", fl (5 / 60));
        ("10 min", fl (10 / 60)); ("15 min", fl (15 / 60)) ]
  | week =>
      [ ("15 min", fl (15 / 1440)); ("30 min", fl (30 / 1440)); ("1 h", fl (1 / 24));
        ("2 h", fl (2 / 24)); ("4 h", fl (4 / 24)) ]
  | month =>
      if regexTest true "Full Month" preset
      then [ ("6 h", fl (6 / 24)); ("12 h", fl (12 / 24)); ("1 d", 1%Q); ("2 d", 2%Q) ]
      else [ ("1 h", fl (1 / 24)); ("3 h", fl (3 / 24)); ("6 h", fl (6 / 24));
             ("12 h", fl (12 / 24)); ("1 d", 1%Q) ]
  end.

(** [parseFloat(el.style.left||'0') || 0] *)
Definition elementLeft (e : Element) : Q :=
  match styleLeft e with Some v => v | None => 0%Q end.

(** [parseFloat(el.style.width||'0') || el.getBoundingClientRect().width] *)
Definition elementWidth (e : Element) : Q :=
  match styleWidth e with
  | Some v => if Qeq_bool v 0 then boundingWidth e else v
  | None => boundingWidth e
  end.

(** The [mouseup] handler of the first variant; the second one differs only
    in writing [durationU] as [endUnit - startUnit].  [hasCallback] is
    [typeof onTasksChange === 'function']. *)
Definition onUp (scale : option Scale) (hasCallback : bool) (snapUnits : Q)
    (w : Core) : Core :=
  match dragRef w, scale with
  | Some ds, Some sc =>
      let leftPx := elementLeft (dragEl ds) in
      let widthPx := elementWidth (dragEl ds) in
      let startUnit := (leftPx / pxPerUnit sc)%Q in
      let durationU := Math_max (1 # 10) (widthPx / pxPerUnit sc)%Q in
      let change :=
        {| change_startUnit := startUnit; durationU := durationU;
           change_mode := mode ds; change_snapUnits := snapUnits |} in
      {| dragRef := None;
         internalTasks :=
           map (fun t => if String.eqb (tid t) (dragTask ds) then t else t) (internalTasks w);
         tipShown := false;
         cursor := "default";
         calls := if hasCallback then calls w ++ [(dragTask ds, change)] else calls w |}
  | _, _ =>
      {| dragRef := None;
         internalTasks := internalTasks w;
         tipShown := false;
         cursor := cursor w;
         calls := calls w |}
  end.

(** ** Units back to dates (the drag tooltip's helper) *)

(** Truncation toward zero, as [setTime] clips a time value to an integer. *)
Definition Qtrunc (x : Q) : Z := Z.quot (Qnum x) (Zpos (Qden x)).

Definition startOfDay (d : Date) : Date := setHours0 d.

Definition startOfISOWeek (d : Date) : Date :=
  let x := startOfDay d in
  let wd := (getDay x + 6) mod 7 in
  setDate x (getDate x - wd).

Definition addHours (d : Date) (h : Q) : Date :=
  Qtrunc (inject_Z (getTime d) + h * 3600 * 1000)%Q.

Definition addDays (d : Date) (dy : Z) : Date := setDate d (getDate d + dy).

(** [now] is the value of [new Date()] at the call. *)
Definition unitsToDateRange (now : Date) (view : View) (anchorDate : Date) (su eu : Q)
    : Date * Date :=
  match view with
  | hour =>
      let base := startOfDay now in
      (addHours base su, addHours base eu)
  | week =>
      let base := startOfISOWeek anchorDate in
      let sDay := Math_floor su in
      let eDay := Math_floor eu in
      let sFrac := (su - inject_Z sDay)%Q in
      let eFrac := (eu - inject_Z eDay)%Q in
      (addHours (addDays base sDay) (sFrac * 24)%Q,
       addHours (addDays base eDay) (Math_max (1 # 2) (eFrac * 24))%Q)
  | month =>
      let base := newDate (getFullYear anchorDate) (getMonth anchorDate) 1 0 0 0 0 in
      let sDay := Math_floor su in
      let eDay := Math_floor eu in
      let sFrac := (su - inject_Z sDay)%Q in
      let eFrac := (eu - inject_Z eDay)%Q in
      (addHours (addDays base sDay) (sFrac * 24)%Q,
       addHours (addDays base eDay) (Math_max (1 # 2) (eFrac * 24))%Q)
  end.

(** ** The window and the unit system of a view (specification side)

    The visible window as the first variant's projection computes it, the
    length of a view unit, and the minimum rendered span of a view. *)

Definition viewWindow (view : View) (preset : string) (anchorDate : Date) : Date * Date :=
  match view with
  | hour =>
      let dayStart :=
        newDate (getFullYear anchorDate) (getMonth anchorDate) (getDate anchorDate) 0 0 0 0 in
      (dayStart, dayStart + DAY_MS)
  | week =>
      let ws0 := setHours0 anchorDate in
      if regexTest true "Work" preset
      then let ws := setDate ws0 (getDate ws0 - (getDay ws0 + 6) mod 7) in (ws, ws + 5 * DAY_MS)
      else let ws := setDate ws0 (getDate ws0 - getDay ws0) in (ws, ws + 7 * DAY_MS)
  | month =>
      (newDate (getFullYear anchorDate) (getMonth anchorDate) 1 0 0 0 0,
       newDate (getFullYear anchorDate) (getMonth anchorDate + 1) 1 0 0 0 0)
  end.

(** Milliseconds per view unit: hours in hour view, days otherwise. *)
Definition unitMs (view : View) : Z :=
  match view with hour => HOUR_MS | _ => DAY_MS end.

(** The instant [u] units after the start of the window. *)
Definition unitToTime (view : View) (windowStart : Date) (u : Q) : Q :=
  (inject_Z windowStart + u * inject_Z (unitMs view))%Q.

(** 5 minutes in hour view, 30 minutes in week and month view. *)
Definition minWidthMs (view : View) : Z :=
  match view with hour => 5 * 60000 | _ => 30 * 60000 end.

(** The same span in view units: 1/12 hour, 1/48 day. *)
Definition minWidthUnits (view : View) : Q :=
  match view with hour => 1 # 12 | _ => 1 # 48 end.

(** ** The calendar (specification side) *)

Definition isLeapYear (y : Z) : bool :=
  ((y mod 4 =? 0) && negb (y mod 100 =? 0)) || (y mod 400 =? 0).

(** The number of days of month [m] (1 to 12) of year [y]. *)
Definition monthLength (y m : Z) : Z :=
  if m =? 2 then (if isLeapYear y then 29 else 28)
  else if (m =? 4) || (m =? 6) || (m =? 9) || (m =? 11) then 30
  else 31.

(** ** Overlap of segments (specification side) *)

(** The instant [t] lies in [[startUnit, endUnit)]. *)
Definition covers (t : Q) (sg : Seg) : bool :=
  Qle_bool (startUnit sg) t && negb (Qle_bool (endUnit sg) t).

(** How many of the items are shown at instant [t]. *)
Definition overlapAt (its : list Item) (t : Q) : nat :=
  length (List.filter (fun it => covers t (seg it)) its).

(** The half-open intervals of two segments share an instant. *)
Definition overlaps (a b : Seg) : Prop :=
  (Math_max (startUnit a) (startUnit b) < Math_min (endUnit a) (endUnit b))%Q.

(** A binary64 number: rounding leaves it as it is. *)
Definition isDouble (x : Q) : Prop := (fl x == x)%Q.

(** Two placed segments share no more than the lane search lets pass: the
    earlier of the two ends is at most the later of the two starts plus
    [1e-9], the sum rounded as the search rounds it. *)
Definition tolerant (p q : Seg) : Prop :=
  (Math_min (endUnit p) (endUnit q) <= fl (Math_max (startUnit p) (startUnit q) + eps))%Q.

(** The order of the comparator: by start, then by end. *)
Definition lexLe (a b : Item) : Prop :=
  (startUnit (seg a) < startUnit (seg b))%Q
  \/ (startUnit (seg a) == startUnit (seg b))%Q /\ (endUnit (seg a) <= endUnit (seg b))%Q.

Definition startLe (a b : Item) : Prop := (startUnit (seg a) <= startUnit (seg b))%Q.

Fixpoint sortedBy (R : Item -> Item -> Prop) (l : list Item) : Prop :=
  match l with
  | [] => True
  | x :: l' => Forall (R x) l' /\ sortedBy R l'
  end.

(** A placed item without its lane. *)
Definition unplace (p : Placed) : Item := {| task := ptask p; seg := pseg p |}.

(** ** Invariants of the placement loop (specification side) *)

(** Every lane ends no earlier than some segment of [its]. *)
Definition endsBounded (its : list Item) (st : LaneState) : Prop :=
  Forall (fun e => exists b, b ∈ its /\ (endUnit (seg b) <= e)%Q) (laneEnds st).

(** As many lanes are open as items were placed, up to the cap. *)
Definition lanesFilled (maxLanes : Z) (st : LaneState) : Prop :=
  length (laneEnds st) = Nat.min (length (out st)) (Z.to_nat maxLanes).

(** Every placed segment sits in one of the open lanes. *)
Definition lanesInRange (st : LaneState) : Prop :=
  forall p, p ∈ out st -> 0 <= lane p < Z.of_nat (length (laneEnds st)).

(** [S] is the start of the item placed last.  Every placed segment sits in
    an open lane or in a negative one; the end time of every lane is the end
    of a segment placed in it; a segment placed in a lane ends by the end
    time of the lane, or by [fl (S + eps)]; no placed segment starts after
    [S], and all of them start at binary64 numbers; and two segments placed
    in one lane share no more than the tolerance. *)
Definition laneInv (S : Q) (st : LaneState) : Prop :=
  (forall p, p ∈ out st -> lane p < Z.of_nat (length (laneEnds st)))
  /\ (forall k e, laneEnds st !! k = Some e ->
        exists p, p ∈ out st /\ lane p = Z.of_nat k /\ endUnit (pseg p) = e)
  /\ (forall p k e, p ∈ out st -> lane p = Z.of_nat k -> laneEnds st !! k = Some e ->
        (endUnit (pseg p) <= e \/ endUnit (pseg p) <= fl (S + eps))%Q)
  /\ (forall p, p ∈ out st -> (startUnit (pseg p) <= S)%Q /\ isDouble (startUnit (pseg p)))
  /\ (forall i j p q, (i < j)%nat -> out st !! i = Some p -> out st !! j = Some q ->
        lane p = lane q -> tolerant (pseg p) (pseg q)).

(** ** Snapping (specification side) *)

(** The two halves of [snapPx] at snap unit [s] and [u] pixels per unit:
    the index of the grid point nearest to a pixel position, and the pixel
    position of a grid point before it is rounded to a whole pixel. *)
Definition gridIndex (s u px : Q) : Z := Math_round (fl (fl (px / u) / s)).
Definition gridPixel (s u : Q) (k : Z) : Q := fl (fl (inject_Z k * s) * u).

(** The quotient of two whole numbers, rounded. *)
Definition ratio64 (a b : Z) : Q := fl (inject_Z a / inject_Z b).

(** [snapPx] computed without rounding. *)
Definition snapExact (scale : option Scale) (snapUnits : Q) (px : Q) : Z :=
  match scale with
  | None => Math_round px
  | Some sc =>
      if Qeq_bool snapUnits 0 then Math_round px
      else
        let units := (px / pxPerUnit sc)%Q in
        let snappedUnits := (inject_Z (Math_round (units / snapUnits)) * snapUnits)%Q in
        Math_round (snappedUnits * pxPerUnit sc)
  end.

(** ** The result of a scan (specification side) *)

Definition hitOf (entry : string * HitTest.GeomEntry) : HitTest.Hit :=
  {| HitTest.taskId := fst entry;
     HitTest.hit_el := HitTest.el (snd entry);
     HitTest.hit_rect := HitTest.rect (snd entry) |}.

(** What the scan holds after the entries of [l]: nothing, when no
    rectangle of [l] contains the point; otherwise the first entry of [l]
    among those whose rectangle contains the point and whose centre is
    nearest, together with its distance. *)
Definition pickInv (x y : Q) (l : list (string * HitTest.GeomEntry))
    (acc : option HitTest.Hit * option Q) : Prop :=
  match acc with
  | (None, None) =>
      Forall (fun e => HitTest.containsPoint (HitTest.rect (snd e)) x y = false) l
  | (Some h, Some d) =>
      exists l1 e l2,
        l = l1 ++ e :: l2 /\ h = hitOf e /\ d = HitTest.centerDy (HitTest.rect (snd e)) y
        /\ HitTest.containsPoint (HitTest.rect (snd e)) x y = true
        /\ Forall (fun e' =>
                     HitTest.containsPoint (HitTest.rect (snd e')) x y = true ->
                     (HitTest.centerDy (HitTest.rect (snd e)) y
                      < HitTest.centerDy (HitTest.rect (snd e')) y)%Q) l1
        /\ Forall (fun e' =>
                     HitTest.containsPoint (HitTest.rect (snd e')) x y = true ->
                     (HitTest.centerDy (HitTest.rect (snd e)) y
                      <= HitTest.centerDy (HitTest.rect (snd e')) y)%Q) l2
  | _ => False
  end.

(** ** Example inputs *)

Definition mkTask (i r : string) (s e : Date) : Task :=
  {| tid := i; resourceId := r; start := s; end_ := e; title := i; color := "#3B82F6" |}.

(** Monday 1 January 2024, 00:00. *)
Definition jan1 : Date := newDate 2024 0 1 0 0 0 0.


(** 10:00 to 10:01 on 1 January 2024. *)
Definition task_1min : Task :=
  mkTask "t1" "r0" (newDate 2024 0 1 10 0 0 0) (newDate 2024 0 1 10 1 0 0).

(** 10:00 to 10:03 on 1 January 2024. *)
Definition task_3min : Task :=
  mkTask "t2" "r0" (newDate 2024 0 1 10 0 0 0) (newDate 2024 0 1 10 3 0 0).

(** Monday 23:00 to Tuesday 00:00. *)
Definition task_late : Task :=
  mkTask "t3" "r0" (newDate 2024 0 1 23 0 0 0) (newDate 2024 0 2 0 0 0 0).

Definition mkItem (a b : Q) : Item :=
  {| task := mkTask "t" "r0" 0 0; seg := {| startUnit := a; endUnit := b; label := "t" |} |}.

(** Tasks of 1 January 2024: 00:06 to 00:07, 00:11 to 01:11, and three from
    00:06 to 01:00. *)
Definition task_a : Task :=
  mkTask "a" "r0" (newDate 2024 0 1 0 6 0 0) (newDate 2024 0 1 0 7 0 0).
Definition task_b : Task :=
  mkTask "b" "r0" (newDate 2024 0 1 0 11 0 0) (newDate 2024 0 1 1 11 0 0).
Definition task_c : Task :=
  mkTask "c" "r0" (newDate 2024 0 1 0 6 0 0) (newDate 2024 0 1 1 0 0 0).
Definition task_d : Task :=
  mkTask "d" "r0" (newDate 2024 0 1 0 6 0 0) (newDate 2024 0 1 1 0 0 0).
Definition task_e : Task :=
  mkTask "e" "r0" (newDate 2024 0 1 0 6 0 0) (newDate 2024 0 1 1 0 0 0).

(** A scale of [1 + 2^-27] pixels per hour. *)
Definition scale_near_one : Scale :=
  {| totalUnits := 24; visibleUnits := 24;
     pxPerUnit := 1 + (1 # 134217728);
     contentPx := 24 + (24 # 134217728) |}.

(** One resource, and a task that refers to a resource that does not
    exist. *)
Definition res_r0 : Resource := {| rid := "r0"; rname := "Alice Robinson" |}.

Definition task_orphan : Task :=
  mkTask "t9" "nobody" (newDate 2024 0 1 9 0 0 0) (newDate 2024 0 1 11 0 0 0).

(** The segments of a row of resource [r0] in hour view on 1 January 2024,
    as the machine computes them. *)
Definition rowOf (tasks : list Task) : list Item :=
  rowSegs (fun t => HitTest.projectHour64 t jan1) tasks res_r0.

(** [task_a] is drawn with the minimum span of 5 minutes, up to 00:11, where
    [task_b] starts.  In binary64 the end of the first, [0.1 + 5/60], is
    0.18333333333333335 and the start of the second, [660000 / 3600000], is
    0.18333333333333332. *)
Definition two_rounded : list Item := rowOf [task_a; task_b].

Definition five_rounded : list Item := rowOf [task_a; task_b; task_c; task_d; task_e].

(** Five segments that all contain the instants from 4 up to 10. *)
Definition five_wide : list Item :=
  [ mkItem 0 10; mkItem 1 10; mkItem 2 10; mkItem 3 10; mkItem 4 10 ].

(** Two segments that touch at 1. *)
Definition two_touching : list Item := [ mkItem 0 1; mkItem 1 2 ].

(** A drag in progress: the bar of task [t1] is being moved. *)
Definition dragging_core : Core :=
  {| dragRef :=
       Some {| mode := move;
               dragEl := {| styleLeft := Some 120%Q; styleWidth := Some 60%Q;
                            boundingWidth := 60 |};
               startX := 300; origLeft := 100; origWidth := 60; dragTask := "t1" |};
     internalTasks := [task_1min; task_3min];
     tipShown := true;
     cursor := "grabbing";
     calls := [] |}.

(** * Properties *)

(** ** Numbers *)

Lemma Math_max_l (a b : Q) : (a <= Math_max a b)%Q.
Proof. unfold Math_max. destruct (Qlt_le_dec a b); lra. Qed.

Lemma Math_max_r (a b : Q) : (b <= Math_max a b)%Q.
Proof. unfold Math_max. destruct (Qlt_le_dec a b); lra. Qed.

Lemma Math_max_cases (a b : Q) :
  (a < b)%Q /\ Math_max a b = b \/ (b <= a)%Q /\ Math_max a b = a.
Proof. unfold Math_max. destruct (Qlt_le_dec a b); auto. Qed.

Lemma Math_min_cases (a b : Q) :
  (b < a)%Q /\ Math_min a b = b \/ (a <= b)%Q /\ Math_min a b = a.
Proof. unfold Math_min. destruct (Qlt_le_dec b a); auto. Qed.

Lemma inject_Z_max (a b : Z) :
  (Math_max (inject_Z a) (inject_Z b) == inject_Z (Z.max a b))%Q.
Proof.
  destruct (Math_max_cases (inject_Z a) (inject_Z b)) as [[H ->]|[H ->]].
  - rewrite <- Zlt_Qlt in H. rewrite Z.max_r by lia. reflexivity.
  - rewrite <- Zle_Qle in H. rewrite Z.max_l by lia. reflexivity.
Qed.

Lemma inject_Z_sub (a b : Z) : inject_Z (a - b) = (inject_Z a - inject_Z b)%Q.
Proof.
  replace (a - b) with (a + - b) by lia.
  rewrite inject_Z_plus, inject_Z_opp. reflexivity.
Qed.

(** ** Binary64 *)

Lemma pow2_pos (e : Z) : (0 < 2 ^ e)%Q.
Proof. apply Qpower_0_lt. reflexivity. Qed.

Lemma pow2_succ (e : Z) : (2 ^ (e + 1) == 2 * 2 ^ e)%Q.
Proof. rewrite Qpower_plus by discriminate. change (2 ^ 1)%Q with 2%Q. ring. Qed.

Lemma pow2_le (a b : Z) : a <= b -> (2 ^ a <= 2 ^ b)%Q.
Proof. intros H. apply Qpower_le_compat_l; [exact H|discriminate]. Qed.

Lemma pow2_lt_inv (a b : Z) : (2 ^ a < 2 ^ b)%Q -> a < b.
Proof. intros H. apply (Qpower_lt_compat_l_inv 2); [exact H|reflexivity]. Qed.

Lemma pow2_Z (a : Z) : 0 <= a -> (inject_Z (2 ^ a) == 2 ^ a)%Q.
Proof. intros H. rewrite Zpower_Qpower by exact H. reflexivity. Qed.

Lemma Qlog2_spec (x : Q) :
  (0 < x)%Q -> (2 ^ Qlog2 x <= x)%Q /\ (x < 2 ^ (Qlog2 x + 1))%Q.
Proof.
  intros Hx. unfold Qlog2.
  destruct x as [n d]. cbn [Qnum Qden].
  assert (Hn : 0 < n) by (unfold Qlt in Hx; simpl in Hx; lia).
  set (a := Z.log2 n). set (b := Z.log2 (Z.pos d)).
  assert (Ha0 : 0 <= a) by apply Z.log2_nonneg.
  assert (Hb0 : 0 <= b) by apply Z.log2_nonneg.
  destruct (Z.log2_spec n Hn) as [Ha1 Ha2]. fold a in Ha1, Ha2.
  destruct (Z.log2_spec (Z.pos d) ltac:(lia)) as [Hb1 Hb2]. fold b in Hb1, Hb2.
  replace (Z.succ a) with (a + 1) in Ha2 by lia.
  replace (Z.succ b) with (b + 1) in Hb2 by lia.
  rewrite Z.pow_add_r in Ha2, Hb2 by lia. change (2 ^ 1) with 2 in Ha2, Hb2.
  assert (HA : (2 ^ a == inject_Z (2 ^ a))%Q) by (symmetry; apply pow2_Z; exact Ha0).
  assert (HB : (2 ^ b == inject_Z (2 ^ b))%Q) by (symmetry; apply pow2_Z; exact Hb0).
  assert (HE : (2 ^ (a - b) == inject_Z (2 ^ a) / inject_Z (2 ^ b))%Q).
  { rewrite Qpower_minus by discriminate. rewrite HA, HB. reflexivity. }
  assert (Hpa : 0 < 2 ^ a) by (apply Z.pow_pos_nonneg; lia).
  assert (Hpb : 0 < 2 ^ b) by (apply Z.pow_pos_nonneg; lia).
  assert (HX : (n # d == inject_Z n / inject_Z (Z.pos d))%Q) by apply Qmake_Qdiv.
  assert (Hqa : (0 < inject_Z (2 ^ a))%Q) by (change 0%Q with (inject_Z 0); rewrite <- Zlt_Qlt; lia).
  assert (Hqb : (0 < inject_Z (2 ^ b))%Q) by (change 0%Q with (inject_Z 0); rewrite <- Zlt_Qlt; lia).
  assert (Hqd : (0 < inject_Z (Z.pos d))%Q) by (change 0%Q with (inject_Z 0); rewrite <- Zlt_Qlt; lia).
  assert (Hqn : (0 < inject_Z n)%Q) by (change 0%Q with (inject_Z 0); rewrite <- Zlt_Qlt; lia).
  (* the two outer bounds *)
  assert (Hup : (n # d < 2 * 2 ^ (a - b))%Q).
  { rewrite HE, HX.
    apply Qlt_shift_div_r; [exact Hqd|].
    assert (E : (2 * (inject_Z (2 ^ a) / inject_Z (2 ^ b)) * inject_Z (Z.pos d)
                 == (2 * inject_Z (2 ^ a) * inject_Z (Z.pos d)) / inject_Z (2 ^ b))%Q)
      by (field; lra).
    rewrite E. apply Qlt_shift_div_l; [exact Hqb|].
    change 2%Q with (inject_Z 2). rewrite <- !inject_Z_mult, <- Zlt_Qlt. nia. }
  assert (Hlo : (2 ^ (a - b) < 2 * (n # d))%Q).
  { rewrite HE, HX.
    apply Qlt_shift_div_r; [exact Hqb|].
    assert (E : (2 * (inject_Z n / inject_Z (Z.pos d)) * inject_Z (2 ^ b)
                 == (2 * inject_Z n * inject_Z (2 ^ b)) / inject_Z (Z.pos d))%Q)
      by (field; lra).
    rewrite E. apply Qlt_shift_div_l; [exact Hqd|].
    change 2%Q with (inject_Z 2). rewrite <- !inject_Z_mult, <- Zlt_Qlt. nia. }
  destruct (Qle_bool (2 ^ (a - b)) (n # d)) eqn:E.
  - apply Qle_bool_iff in E. split; [exact E|]. rewrite pow2_succ. exact Hup.
  - assert (Hlt : (n # d < 2 ^ (a - b))%Q).
    { destruct (Qlt_le_dec (n # d) (2 ^ (a - b))) as [|Hle]; [assumption|].
      apply Qle_bool_iff in Hle. congruence. }
    replace (a - b - 1 + 1) with (a - b) by lia.
    split; [|exact Hlt].
    assert (E2 : (2 ^ (a - b) == 2 * 2 ^ (a - b - 1))%Q).
    { rewrite <- pow2_succ. replace (a - b - 1 + 1) with (a - b) by lia. reflexivity. }
    lra.
Qed.

Lemma Qlog2_unique (x : Q) (e : Z) :
  (2 ^ e <= x)%Q -> (x < 2 ^ (e + 1))%Q -> Qlog2 x = e.
Proof.
  intros H1 H2.
  assert (Hx : (0 < x)%Q) by (pose proof (pow2_pos e); lra).
  destruct (Qlog2_spec x Hx) as [H3 H4].
  assert (Qlog2 x < e + 1) by (apply pow2_lt_inv; lra).
  assert (e < Qlog2 x + 1) by (apply pow2_lt_inv; lra).
  lia.
Qed.

Lemma Qlog2_mono (x y : Q) : (0 < x)%Q -> (x <= y)%Q -> Qlog2 x <= Qlog2 y.
Proof.
  intros Hx Hxy.
  destruct (Qlog2_spec x Hx) as [H1 _].
  destruct (Qlog2_spec y ltac:(lra)) as [_ H2].
  assert (Qlog2 x < Qlog2 y + 1) by (apply pow2_lt_inv; lra).
  lia.
Qed.

(** *** Rounding to an integer *)

Lemma Qfloor_bounds (q : Q) : (inject_Z (Qfloor q) <= q)%Q /\ (q < inject_Z (Qfloor q) + 1)%Q.
Proof.
  split; [apply Qfloor_le|].
  pose proof (Qlt_floor q) as H. rewrite inject_Z_plus in H. exact H.
Qed.

Lemma roundHalfEven_cases (q : Q) :
  (roundHalfEven q = Qfloor q /\ (q - inject_Z (Qfloor q) <= 1 # 2)%Q)
  \/ (roundHalfEven q = Qfloor q + 1 /\ (1 # 2 <= q - inject_Z (Qfloor q))%Q).
Proof.
  unfold roundHalfEven.
  destruct (Qcompare_spec (q - inject_Z (Qfloor q)) (1 # 2)) as [H|H|H].
  - destruct (Z.even (Qfloor q)); [left|right]; split; auto; lra.
  - left. split; [reflexivity|lra].
  - right. split; [reflexivity|lra].
Qed.

(** The result is within one half of the argument. *)
Lemma roundHalfEven_err (q : Q) :
  (q - (1 # 2) <= inject_Z (roundHalfEven q))%Q /\ (inject_Z (roundHalfEven q) <= q + (1 # 2))%Q.
Proof.
  destruct (Qfloor_bounds q) as [H1 H2].
  destruct (roundHalfEven_cases q) as [[-> H]|[-> H]]; [|rewrite inject_Z_plus];
    change (inject_Z 1) with 1%Q; split; lra.
Qed.

Lemma Qfloor_mono (p q : Q) : (p <= q)%Q -> Qfloor p <= Qfloor q.
Proof. apply Qfloor_resp_le. Qed.

Lemma roundHalfEven_mono (p q : Q) : (p <= q)%Q -> roundHalfEven p <= roundHalfEven q.
Proof.
  intros Hpq.
  pose proof (Qfloor_mono p q Hpq) as Hf.
  destruct (Z.eq_dec (Qfloor p) (Qfloor q)) as [E|NE].
  - unfold roundHalfEven. rewrite E.
    destruct (Qcompare_spec (p - inject_Z (Qfloor q)) (1 # 2)) as [H|H|H];
      destruct (Qcompare_spec (q - inject_Z (Qfloor q)) (1 # 2)) as [H'|H'|H'];
      try lra; try lia; destruct (Z.even (Qfloor q)); lia.
  - destruct (roundHalfEven_cases p) as [[-> _]|[-> _]];
      destruct (roundHalfEven_cases q) as [[-> _]|[-> _]]; lia.
Qed.

Lemma roundHalfEven_Z (q : Q) (z : Z) : (q == inject_Z z)%Q -> roundHalfEven q = z.
Proof.
  intros H. unfold roundHalfEven.
  assert (E : Qfloor q = z) by (rewrite (Qfloor_comp _ _ H); apply Qfloor_Z).
  rewrite E.
  destruct (Qcompare_spec (q - inject_Z z) (1 # 2)) as [H'|H'|H']; try lra.
  reflexivity.
Qed.

(** *** Rounding a positive number *)

Lemma ulpExp_mono (x y : Q) : (0 < x)%Q -> (x <= y)%Q -> ulpExp x <= ulpExp y.
Proof. intros Hx Hxy. unfold ulpExp. pose proof (Qlog2_mono x y Hx Hxy). lia. Qed.

Lemma pow2_53 (e : Z) : (2 ^ (e + 1) == 9007199254740992 * 2 ^ (e - 52))%Q.
Proof.
  replace (e + 1) with (53 + (e - 52)) by lia.
  rewrite Qpower_plus by discriminate. reflexivity.
Qed.

Lemma pow2_52 (e : Z) : (2 ^ e == 4503599627370496 * 2 ^ (e - 52))%Q.
Proof.
  replace e with (52 + (e - 52)) at 1 by lia.
  rewrite Qpower_plus by discriminate. reflexivity.
Qed.

(** A positive number rounds to a number between the powers of two that
    enclose it. *)
Lemma roundPos_bounds (x : Q) :
  (0 < x)%Q ->
  let e := Z.max (Qlog2 x) (-1022) in
  (0 <= roundPos x)%Q /\ (roundPos x <= 2 ^ (e + 1))%Q
  /\ (-1022 <= Qlog2 x -> (2 ^ e <= roundPos x)%Q).
Proof.
  intros Hx e.
  destruct (Qlog2_spec x Hx) as [H1 H2].
  unfold roundPos, ulpExp. fold e.
  pose proof (pow2_pos (e - 52)) as Hu.
  set (u := (2 ^ (e - 52))%Q) in *.
  assert (Hq : (x / u * u == x)%Q) by (field; lra).
  assert (Hx2 : (x < 2 ^ (e + 1))%Q).
  { eapply Qlt_le_trans; [exact H2|]. apply pow2_le. lia. }
  rewrite pow2_53 in Hx2. fold u in Hx2.
  assert (Hhi : (x / u <= inject_Z 9007199254740992)%Q).
  { apply Qle_shift_div_r; [exact Hu|]. change (inject_Z 9007199254740992) with 9007199254740992%Q. lra. }
  assert (Hlo0 : (inject_Z 0 <= x / u)%Q).
  { apply Qle_shift_div_l; [exact Hu|]. change (inject_Z 0) with 0%Q. lra. }
  apply roundHalfEven_mono in Hhi. apply roundHalfEven_mono in Hlo0.
  rewrite (roundHalfEven_Z _ _ (Qeq_refl _)) in Hhi.
  rewrite (roundHalfEven_Z _ _ (Qeq_refl _)) in Hlo0.
  rewrite Zle_Qle in Hhi. rewrite Zle_Qle in Hlo0.
  change (inject_Z 9007199254740992) with 9007199254740992%Q in Hhi.
  change (inject_Z 0) with 0%Q in Hlo0.
  repeat split.
  - nra.
  - rewrite pow2_53. fold u. nra.
  - intros Hnorm.
    assert (He : Qlog2 x = e) by (unfold e; lia).
    rewrite He in H1.
    rewrite pow2_52 in H1. rewrite pow2_52. fold u in H1 |- *.
    assert (Hlo : (inject_Z 4503599627370496 <= x / u)%Q).
    { apply Qle_shift_div_l; [exact Hu|]. change (inject_Z 4503599627370496) with 4503599627370496%Q. lra. }
    apply roundHalfEven_mono in Hlo.
    rewrite (roundHalfEven_Z _ _ (Qeq_refl _)) in Hlo.
    rewrite Zle_Qle in Hlo.
    change (inject_Z 4503599627370496) with 4503599627370496%Q in Hlo.
    nra.
Qed.

Lemma roundPos_mono (x y : Q) : (0 < x)%Q -> (x <= y)%Q -> (roundPos x <= roundPos y)%Q.
Proof.
  intros Hx Hxy.
  assert (Hy : (0 < y)%Q) by lra.
  pose proof (Qlog2_mono x y Hx Hxy) as Hl.
  destruct (Z.eq_dec (ulpExp x) (ulpExp y)) as [E|NE].
  - unfold roundPos. rewrite E.
    pose proof (pow2_pos (ulpExp y)) as Hu.
    assert (Hq : (x / 2 ^ ulpExp y <= y / 2 ^ ulpExp y)%Q).
    { apply Qle_shift_div_l; [exact Hu|].
      assert (Hc : (x / 2 ^ ulpExp y * 2 ^ ulpExp y == x)%Q) by (field; lra). lra. }
    apply roundHalfEven_mono in Hq. rewrite Zle_Qle in Hq. nra.
  - unfold ulpExp in NE.
    destruct (roundPos_bounds x Hx) as (_ & Hxu & _).
    destruct (roundPos_bounds y Hy) as (_ & _ & Hyl).
    assert (Hn : -1022 <= Qlog2 y) by lia.
    specialize (Hyl Hn).
    eapply Qle_trans; [exact Hxu|]. eapply Qle_trans; [|exact Hyl].
    apply pow2_le. lia.
Qed.

(** *** Rounding *)

Lemma fl_pos (x : Q) : (0 < x)%Q -> (fl x == roundPos x)%Q.
Proof.
  intros Hx. unfold fl.
  destruct (Qcompare_spec x 0) as [H|H|H]; try lra. apply Qred_correct.
Qed.

Lemma fl_neg (x : Q) : (x < 0)%Q -> (fl x == - roundPos (- x))%Q.
Proof.
  intros Hx. unfold fl.
  destruct (Qcompare_spec x 0) as [H|H|H]; try lra. apply Qred_correct.
Qed.

Lemma fl_zero (x : Q) : (x == 0)%Q -> fl x = 0%Q.
Proof.
  intros Hx. unfold fl.
  destruct (Qcompare_spec x 0) as [H|H|H]; try lra. reflexivity.
Qed.

(** Rounding keeps the order. *)
Lemma fl_mono (x y : Q) : (x <= y)%Q -> (fl x <= fl y)%Q.
Proof.
  intros Hxy.
  destruct (Qcompare_spec x 0) as [Hx|Hx|Hx];
    destruct (Qcompare_spec y 0) as [Hy|Hy|Hy]; try lra.
  - rewrite (fl_zero x Hx), (fl_zero y Hy). lra.
  - rewrite (fl_zero x Hx), (fl_pos y Hy).
    destruct (roundPos_bounds y Hy) as (H & _). lra.
  - rewrite (fl_neg x Hx), (fl_zero y Hy).
    destruct (roundPos_bounds (- x) ltac:(lra)) as (H & _). lra.
  - rewrite (fl_neg x Hx), (fl_neg y Hy).
    pose proof (roundPos_mono (- y) (- x) ltac:(lra) ltac:(lra)). lra.
  - rewrite (fl_neg x Hx), (fl_pos y Hy).
    destruct (roundPos_bounds (- x) ltac:(lra)) as (H & _).
    destruct (roundPos_bounds y Hy) as (H' & _). lra.
  - rewrite (fl_pos x Hx), (fl_pos y Hy). apply roundPos_mono; assumption.
Qed.

Lemma fl_comp (x y : Q) : (x == y)%Q -> (fl x == fl y)%Q.
Proof.
  intros H. apply Qle_antisym; apply fl_mono; lra.
Qed.

(** The result is within half a unit in the last place. *)
Lemma roundPos_err (x : Q) :
  (0 < x)%Q ->
  (x - 2 ^ ulpExp x * (1 # 2) <= roundPos x)%Q /\ (roundPos x <= x + 2 ^ ulpExp x * (1 # 2))%Q.
Proof.
  intros Hx. unfold roundPos.
  pose proof (pow2_pos (ulpExp x)) as Hu.
  set (u := (2 ^ ulpExp x)%Q) in *.
  destruct (roundHalfEven_err (x / u)) as [H1 H2].
  assert (Hq : (x / u * u == x)%Q) by (field; lra).
  apply (Qmult_le_compat_r _ _ u) in H1; [|lra].
  apply (Qmult_le_compat_r _ _ u) in H2; [|lra].
  split; lra.
Qed.

Lemma ulp_normal (x : Q) :
  (2 ^ (-1022) <= x)%Q -> (2 ^ ulpExp x <= x * (1 # 4503599627370496))%Q.
Proof.
  intros Hx.
  assert (H0 : (0 < x)%Q) by (pose proof (pow2_pos (-1022)); lra).
  destruct (Qlog2_spec x H0) as [H1 H2].
  assert (Hn : -1022 < Qlog2 x + 1) by (apply pow2_lt_inv; lra).
  unfold ulpExp. rewrite Z.max_l by lia.
  rewrite pow2_52 in H1. pose proof (pow2_pos (Qlog2 x - 52)). lra.
Qed.

Lemma ulp_subnormal (x : Q) :
  (0 < x)%Q -> (x < 2 ^ (-1022))%Q -> ulpExp x = -1074.
Proof.
  intros H0 Hx. destruct (Qlog2_spec x H0) as [H1 H2].
  assert (Hn : Qlog2 x < -1022) by (apply pow2_lt_inv; lra).
  unfold ulpExp. lia.
Qed.

(** The relative error of rounding is at most 2^-53, from the smallest
    normal number on. *)
Lemma fl_err (x : Q) :
  (x == 0 \/ 2 ^ (-1022) <= Qabs x)%Q ->
  (Qabs (fl x - x) <= (1 # 9007199254740992) * Qabs x)%Q.
Proof.
  intros [Hz|Hn].
  - rewrite (fl_zero x Hz). rewrite Hz. vm_compute. discriminate.
  - destruct (Qlt_le_dec x 0) as [Hneg|Hpos].
    + rewrite (Qabs_neg x) in * by lra.
      rewrite (fl_neg x Hneg).
      destruct (roundPos_err (- x) ltac:(lra)) as [H1 H2].
      pose proof (ulp_normal (- x) Hn) as Hu.
      apply Qabs_Qle_condition. split; lra.
    + rewrite (Qabs_pos x) in * by lra.
      assert (H0 : (0 < x)%Q) by (pose proof (pow2_pos (-1022)); lra).
      rewrite (fl_pos x H0).
      destruct (roundPos_err x H0) as [H1 H2].
      pose proof (ulp_normal x Hn) as Hu.
      apply Qabs_Qle_condition. split; lra.
Qed.

(** Below the smallest normal number the error is at most 2^-1075. *)
Lemma fl_err_any (x : Q) :
  (Qabs (fl x - x) <= (1 # 9007199254740992) * Qabs x + 2 ^ (-1075))%Q.
Proof.
  pose proof (pow2_pos (-1075)) as Ht.
  pose proof (Qabs_nonneg x) as Hx.
  destruct (Qlt_le_dec (Qabs x) (2 ^ (-1022))) as [Hsub|Hnorm].
  - assert (Eh : (2 ^ (-1074) * (1 # 2) == 2 ^ (-1075))%Q).
    { change (-1074) with (-1075 + 1). rewrite pow2_succ. ring. }
    set (tiny := (2 ^ (-1075))%Q) in *. clearbody tiny.
    destruct (Qcompare_spec x 0) as [Hz|Hneg|Hpos].
    + rewrite (fl_zero x Hz). apply Qabs_Qle_condition. split; lra.
    + rewrite (Qabs_neg x) in * by lra.
      rewrite (fl_neg x Hneg).
      destruct (roundPos_err (- x) ltac:(lra)) as [H1 H2].
      rewrite (ulp_subnormal (- x)) in H1, H2 by lra.
      apply Qabs_Qle_condition. split; lra.
    + rewrite (Qabs_pos x) in * by lra.
      rewrite (fl_pos x Hpos).
      destruct (roundPos_err x Hpos) as [H1 H2].
      rewrite (ulp_subnormal x) in H1, H2 by lra.
      apply Qabs_Qle_condition. split; lra.
  - pose proof (fl_err x (or_intror Hnorm)).
    set (tiny := (2 ^ (-1075))%Q) in *. clearbody tiny. lra.
Qed.

(** Whole numbers up to 2^53 are binary64 numbers. *)
Lemma roundPos_Z (z : Z) :
  0 < z <= 9007199254740992 -> (roundPos (inject_Z z) == inject_Z z)%Q.
Proof.
  intros Hz.
  assert (H0 : (0 < inject_Z z)%Q) by (change 0%Q with (inject_Z 0); rewrite <- Zlt_Qlt; lia).
  destruct (Qlog2_spec (inject_Z z) H0) as [H1 H2].
  assert (Hlo : 0 <= Qlog2 (inject_Z z)).
  { assert (-1 < Qlog2 (inject_Z z)); [|lia].
    assert (H : (2 ^ (-1 + 1) <= inject_Z z)%Q).
    { change (2 ^ (-1 + 1))%Q with (inject_Z 1). rewrite <- Zle_Qle. lia. }
    assert (-1 < Qlog2 (inject_Z z) + 1) by (apply pow2_lt_inv; change (2 ^ (-1))%Q with (1 # 2)%Q;
      change (2 ^ (-1 + 1))%Q with 1%Q in H; lra).
    destruct (Z.eq_dec (Qlog2 (inject_Z z)) (-1)) as [E|]; [|lia].
    rewrite E in H2. change (2 ^ (-1 + 1))%Q with 1%Q in *. lra. }
  assert (Hhi : Qlog2 (inject_Z z) <= 53).
  { assert (Qlog2 (inject_Z z) < 54); [|lia].
    apply pow2_lt_inv. eapply Qle_lt_trans; [exact H1|].
    change (2 ^ 54)%Q with (inject_Z 18014398509481984). rewrite <- Zlt_Qlt. lia. }
  unfold roundPos, ulpExp. rewrite Z.max_l by lia.
  set (e := Qlog2 (inject_Z z)) in *.
  destruct (Z.eq_dec e 53) as [E53|NE].
  - (* z = 2^53 *)
    assert (Ez : z = 9007199254740992).
    { rewrite E53 in H1. change (2 ^ 53)%Q with (inject_Z 9007199254740992) in H1.
      rewrite <- Zle_Qle in H1. lia. }
    rewrite E53, Ez. vm_compute. reflexivity.
  - assert (Hk : 0 <= 52 - e) by lia.
    assert (Eu : (2 ^ (e - 52) == / inject_Z (2 ^ (52 - e)))%Q).
    { replace (e - 52) with (- (52 - e)) by lia. rewrite Qpower_opp.
      rewrite pow2_Z by lia. reflexivity. }
    assert (Hp : 0 < 2 ^ (52 - e)) by (apply Z.pow_pos_nonneg; lia).
    assert (Hpq : (0 < inject_Z (2 ^ (52 - e)))%Q)
      by (change 0%Q with (inject_Z 0); rewrite <- Zlt_Qlt; lia).
    assert (Eq : (inject_Z z / 2 ^ (e - 52) == inject_Z (z * 2 ^ (52 - e)))%Q).
    { rewrite Eu, inject_Z_mult. field. lra. }
    rewrite (roundHalfEven_Z _ _ Eq). rewrite Eu, inject_Z_mult. field. lra.
Qed.

Lemma isDouble_Z (z : Z) : Z.abs z <= 9007199254740992 -> isDouble (inject_Z z).
Proof.
  intros Hz. unfold isDouble.
  destruct (Z.lt_trichotomy z 0) as [Hneg|[->|Hpos]].
  - assert (H0 : (inject_Z z < 0)%Q) by (change 0%Q with (inject_Z 0); rewrite <- Zlt_Qlt; lia).
    rewrite (fl_neg _ H0). rewrite <- inject_Z_opp. rewrite roundPos_Z by lia.
    rewrite inject_Z_opp. ring.
  - reflexivity.
  - assert (H0 : (0 < inject_Z z)%Q) by (change 0%Q with (inject_Z 0); rewrite <- Zlt_Qlt; lia).
    rewrite (fl_pos _ H0). apply roundPos_Z. lia.
Qed.

(** [fl] against the floats of the machine, on the quotients and sums of
    the examples below: the tolerance [1e-9]; the minimum span [5/60]; the
    end of a segment that starts at 00:06 and the start of one at 00:11,
    which is less, while the lane test with the tolerance added passes; the
    scale at a width of 800 pixels with 6 hours visible, and the grid index
    of pixel 250 before it is rounded. *)
Lemma fl_on_the_machine :
  Prim2Q (Z2F 1 / Z2F 1000000000) = Some (fl (1 # 1000000000))
  /\ Prim2Q (Z2F 5 / Z2F 60) = Some (fl (5 / 60))
  /\ Prim2Q (Z2F 360000 / Z2F 3600000 + Z2F 5 / Z2F 60)
     = Some (fl (fl (360000 / 3600000) + fl (5 / 60)))
  /\ Prim2Q (Z2F 660000 / Z2F 3600000) = Some (fl (660000 / 3600000))
  /\ Prim2Q (Z2F 660000 / Z2F 3600000 + Z2F 1 / Z2F 1000000000)
     = Some (fl (fl (660000 / 3600000) + fl (1 # 1000000000)))
  /\ PrimFloat.ltb (Z2F 660000 / Z2F 3600000) (Z2F 360000 / Z2F 3600000 + Z2F 5 / Z2F 60) = true
  /\ PrimFloat.leb (Z2F 360000 / Z2F 3600000 + Z2F 5 / Z2F 60)
       (Z2F 660000 / Z2F 3600000 + Z2F 1 / Z2F 1000000000) = true
  /\ Prim2Q (Z2F 800 / Z2F 6) = Some (fl (800 / 6))
  /\ Prim2Q (Z2F 250 / (Z2F 800 / Z2F 6) / (Z2F 15 / Z2F 60))
     = Some (fl (fl (250 / fl (800 / 6)) / fl (15 / 60)))
  /\ Prim2Q (Z2F 67108865 / (Z2F 134217729 / Z2F 134217728))
     = Some (fl (67108865 / (1 + (1 # 134217728)))).
Proof. repeat split; vm_compute; reflexivity. Qed.

(** ** Pixel conversion *)

(** C10. [segToPixels] answers every input: without a segment or without a
    scale the bar is at 0 with width 0, and with both the width is at least
    4 pixels. *)
Theorem segToPixels_total_floor :
  (forall scale, leftPx (segToPixels None scale) = 0 /\ widthPx (segToPixels None scale) = 0)
  /\ (forall seg, leftPx (segToPixels seg None) = 0 /\ widthPx (segToPixels seg None) = 0)
  /\ (forall sg sc, 4 <= widthPx (segToPixels (Some sg) (Some sc))).
Proof.
  repeat split.
  - destruct seg0; reflexivity.
  - destruct seg0; reflexivity.
  - simpl. lia.
Qed.

(** The floor is what is rendered when the span rounds below 4 pixels. *)
Lemma segToPixels_floor_reached (sg : Seg) (sc : Scale) :
  Math_round ((endUnit sg - startUnit sg) * pxPerUnit sc) < 4 ->
  widthPx (segToPixels (Some sg) (Some sc)) = 4.
Proof. simpl. lia. Qed.

(** ** The calendar *)

Lemma month_bounds (doy : Z) :
  0 <= doy <= 365 ->
  let mp := (5 * doy + 2) / 153 in
  0 <= mp <= 11 /\ 1 <= doy - (153 * mp + 2) / 5 + 1 <= 31.
Proof. intros H mp. subst mp. Z.div_mod_to_equations. lia. Qed.

Lemma yoe_bounds (doe : Z) :
  0 <= doe < 146097 ->
  let yoe := (doe - doe / 1460 + doe / 36524 - doe / 146096) / 365 in
  0 <= yoe <= 399 /\ 0 <= doe - (365 * yoe + yoe / 4 - yoe / 100) <= 365.
Proof. intros H yoe. subst yoe. Z.div_mod_to_equations. lia. Qed.

(** The day of the March-based year and the year of the era determine the
    day of the era, and back. *)
Lemma yoe_of_doe (yoe doy : Z) :
  0 <= yoe <= 399 -> 0 <= doy <= 365 ->
  (doy = 365 -> (yoe + 1) mod 4 = 0 /\ ((yoe + 1) mod 100 <> 0 \/ yoe = 399)) ->
  let doe := yoe * 365 + yoe / 4 - yoe / 100 + doy in
  0 <= doe < 146097
  /\ (doe - doe / 1460 + doe / 36524 - doe / 146096) / 365 = yoe.
Proof.
  intros Hy Hd Hleap doe. subst doe.
  Z.div_mod_to_equations. lia.
Qed.

Lemma mp_of_doy (mp d : Z) :
  0 <= mp <= 11 -> 1 <= d <= 31 ->
  (d = 31 -> mp = 0 \/ mp = 2 \/ mp = 4 \/ mp = 5 \/ mp = 7 \/ mp = 9 \/ mp = 10) ->
  (mp = 11 -> d <= 29) ->
  let doy := (153 * mp + 2) / 5 + d - 1 in
  (5 * doy + 2) / 153 = mp /\ doy - (153 * mp + 2) / 5 + 1 = d /\ 0 <= doy <= 365.
Proof.
  intros Hm Hd H31 H11 doy. subst doy.
  assert (mp = 0 \/ mp = 1 \/ mp = 2 \/ mp = 3 \/ mp = 4 \/ mp = 5 \/ mp = 6 \/ mp = 7 \/ mp = 8 \/ mp = 9 \/ mp = 10 \/ mp = 11) as Hc by lia.
  repeat (destruct Hc as [Hc|Hc]); subst mp; Z.div_mod_to_equations; lia.
Qed.

Lemma doy_last (mp d : Z) :
  0 <= mp <= 11 -> 1 <= d <= 31 ->
  (d = 31 -> mp = 0 \/ mp = 2 \/ mp = 4 \/ mp = 5 \/ mp = 7 \/ mp = 9 \/ mp = 10) ->
  (mp = 11 -> d <= 29) ->
  (153 * mp + 2) / 5 + d - 1 = 365 -> mp = 11 /\ d = 29.
Proof.
  intros Hm Hd H31 H11.
  assert (mp = 0 \/ mp = 1 \/ mp = 2 \/ mp = 3 \/ mp = 4 \/ mp = 5 \/ mp = 6 \/ mp = 7
          \/ mp = 8 \/ mp = 9 \/ mp = 10 \/ mp = 11) as Hc by lia.
  repeat (destruct Hc as [Hc|Hc]); subst mp; Z.div_mod_to_equations; lia.
Qed.

Lemma isLeapYear_spec (y : Z) :
  isLeapYear y = true <-> (y mod 4 = 0 /\ y mod 100 <> 0) \/ y mod 400 = 0.
Proof.
  unfold isLeapYear.
  rewrite orb_true_iff, andb_true_iff, negb_true_iff, !Z.eqb_eq, Z.eqb_neq. tauto.
Qed.

Lemma monthLength_cases (y m : Z) :
  1 <= m <= 12 ->
  (m = 2 /\ isLeapYear y = true /\ monthLength y m = 29)
  \/ (m = 2 /\ isLeapYear y = false /\ monthLength y m = 28)
  \/ ((m = 4 \/ m = 6 \/ m = 9 \/ m = 11) /\ monthLength y m = 30)
  \/ ((m = 1 \/ m = 3 \/ m = 5 \/ m = 7 \/ m = 8 \/ m = 10 \/ m = 12) /\ monthLength y m = 31).
Proof.
  intros Hm. unfold monthLength.
  destruct (Z.eqb_spec m 2); [destruct (isLeapYear y); auto|].
  destruct (Z.eqb_spec m 4); [simpl; right; right; left; auto|].
  destruct (Z.eqb_spec m 6); [simpl; right; right; left; auto|].
  destruct (Z.eqb_spec m 9); [simpl; right; right; left; auto|].
  destruct (Z.eqb_spec m 11); [simpl; right; right; left; auto|].
  simpl. right; right; right. split; [lia|reflexivity].
Qed.

(** The day number of a date of the calendar names that date. *)
Lemma civil_from_days_from_civil (y m d : Z) :
  1 <= m <= 12 -> 1 <= d <= monthLength y m ->
  civil_from_days (days_from_civil y m d) = (y, m, d).
Proof.
  intros Hm Hd.
  unfold days_from_civil, civil_from_days.
  set (y' := if m <=? 2 then y - 1 else y).
  set (mp := if 2 <? m then m - 3 else m + 9).
  set (era := y' / 400). set (yoe := y' - era * 400).
  set (doy := (153 * mp + 2) / 5 + d - 1).
  set (doe := yoe * 365 + yoe / 4 - yoe / 100 + doy).
  assert (Hyoe : 0 <= yoe <= 399) by (unfold yoe, era; Z.div_mod_to_equations; lia).
  assert (Hmp : 0 <= mp <= 11 /\ (m = if mp <? 10 then mp + 3 else mp - 9)).
  { unfold mp. destruct (Z.ltb_spec 2 m).
    - destruct (Z.ltb_spec (m - 3) 10); lia.
    - destruct (Z.ltb_spec (m + 9) 10); lia. }
  destruct Hmp as [Hmp Hm'].
  assert (Hy' : y = if m <=? 2 then yoe + era * 400 + 1 else yoe + era * 400).
  { unfold yoe, y'. destruct (m <=? 2); lia. }
  assert (Hlen : 1 <= d <= 31
                 /\ (d = 31 -> mp = 0 \/ mp = 2 \/ mp = 4 \/ mp = 5 \/ mp = 7 \/ mp = 9 \/ mp = 10)
                 /\ (mp = 11 -> d <= 29)
                 /\ (mp = 11 -> d = 29 -> isLeapYear y = true)).
  { unfold mp. destruct (monthLength_cases y m Hm) as [(?&?&?)|[(?&?&?)|[(?&?)|(?&?)]]];
      destruct (Z.ltb_spec 2 m); repeat split; try lia; intros; try lia; auto. }
  destruct Hlen as (Hd31 & H31 & H11 & Hleap).
  destruct (mp_of_doy mp d Hmp Hd31 H31 H11) as (Emp & Ed & Hdoy). fold doy in Emp, Ed, Hdoy.
  assert (Hl : doy = 365 -> (yoe + 1) mod 4 = 0 /\ ((yoe + 1) mod 100 <> 0 \/ yoe = 399)).
  { intros E365.
    destruct (doy_last mp d Hmp Hd31 H31 H11 E365) as [E11 E29]. specialize (Hleap E11 E29).
    apply isLeapYear_spec in Hleap.
    assert (Hm2 : m = 2) by (unfold mp in E11; destruct (Z.ltb_spec 2 m); lia).
    assert (Ey : y = yoe + era * 400 + 1).
    { revert Hy'. destruct (Z.leb_spec m 2); lia. }
    revert Hleap. rewrite Ey. Z.div_mod_to_equations. lia. }
  destruct (yoe_of_doe yoe doy Hyoe Hdoy Hl) as [Hdoe Eyoe]. fold doe in Hdoe, Eyoe.
  replace (era * 146097 + doe - 719468 + 719468) with (doe + era * 146097) by lia.
  assert (Eera : (doe + era * 146097) / 146097 = era).
  { rewrite Z.div_add by lia. rewrite Z.div_small by lia. lia. }
  rewrite Eera.
  replace (doe + era * 146097 - era * 146097) with doe by lia.
  rewrite Eyoe.
  replace (doe - (365 * yoe + yoe / 4 - yoe / 100)) with doy by (unfold doe; lia).
  rewrite Emp, Ed, <- Hm', <- Hy'. reflexivity.
Qed.

(** The first day of the next month comes [monthLength] days after the
    first of the month. *)
Lemma days_from_civil_feb (y : Z) :
  days_from_civil y 3 1 = days_from_civil y 2 1 + monthLength y 2.
Proof.
  unfold monthLength, days_from_civil.
  change (3 <=? 2) with false. change (2 <=? 2) with true.
  change (2 <? 3) with true. change (2 <? 2) with false. change (2 =? 2) with true.
  cbn iota.
  pose proof (Z.div_mod y 400 ltac:(lia)) as Hy.
  pose proof (Z.mod_pos_bound y 400 ltac:(lia)) as Hr.
  assert (E4 : y mod 4 = (y mod 400) mod 4).
  { rewrite Hy at 1. rewrite Z.add_comm. replace (400 * (y / 400)) with (100 * (y / 400) * 4) by lia.
    apply Z.mod_add. lia. }
  assert (E100 : y mod 100 = (y mod 400) mod 100).
  { rewrite Hy at 1. rewrite Z.add_comm. replace (400 * (y / 400)) with (4 * (y / 400) * 100) by lia.
    apply Z.mod_add. lia. }
  assert (Hleap : isLeapYear y = true
                  <-> ((y mod 400) mod 4 = 0 /\ (y mod 400) mod 100 <> 0) \/ y mod 400 = 0).
  { rewrite isLeapYear_spec, E4, E100. tauto. }
  clear E4 E100.
  set (a := y / 400) in *. set (r := y mod 400) in *. clearbody a r.
  destruct (Z.eq_dec r 0) as [Hr0|Hr0].
  - assert (E1 : (y - 1) / 400 = a - 1).
    { symmetry. apply (Z.div_unique _ _ _ 399); lia. }
    rewrite E1. replace (isLeapYear y) with true by (symmetry; apply Hleap; auto).
    replace (y - a * 400) with 0 by lia.
    replace (y - 1 - (a - 1) * 400) with 399 by lia.
    vm_compute (153 * (2 + 9) + 2). vm_compute (153 * (3 - 3) + 2).
    change (1685 / 5) with 337. change (2 / 5) with 0. change (399 / 4) with 99.
    change (399 / 100) with 3. change (0 / 4) with 0. change (0 / 100) with 0. lia.
  - assert (E1 : (y - 1) / 400 = a).
    { symmetry. apply (Z.div_unique _ _ _ (r - 1)); lia. }
    rewrite E1.
    replace (y - a * 400) with r by lia.
    replace (y - 1 - a * 400) with (r - 1) by lia.
    vm_compute (153 * (2 + 9) + 2). vm_compute (153 * (3 - 3) + 2).
    change (1685 / 5) with 337. change (2 / 5) with 0.
    destruct (isLeapYear y) eqn:E.
    + destruct (proj1 Hleap eq_refl) as [[H4 H100]|?]; [|contradiction].
      revert H4 H100. Z.div_mod_to_equations. lia.
    + assert (H : ~ (r mod 4 = 0 /\ r mod 100 <> 0)).
      { intros H. assert (false = true) by (apply Hleap; auto). discriminate. }
      assert (H1 : r mod 4 <> 0 \/ r mod 100 = 0)
        by (destruct (Z.eq_dec (r mod 4) 0), (Z.eq_dec (r mod 100) 0); tauto).
      clear H. destruct H1 as [H1|H1]; revert H1; Z.div_mod_to_equations; lia.
Qed.

Lemma days_from_civil_next_month (y m : Z) :
  1 <= m <= 12 ->
  days_from_civil (y + m / 12) (m mod 12 + 1) 1 = days_from_civil y m 1 + monthLength y m.
Proof.
  intros Hm.
  destruct (Z.eq_dec m 2) as [->|Hm2].
  { change (2 / 12) with 0. change (2 mod 12 + 1) with 3.
    replace (y + 0) with y by lia. apply days_from_civil_feb. }
  destruct (Z.eq_dec m 12) as [->|Hm12].
  - change (12 / 12) with 1. change (12 mod 12 + 1) with 1.
    unfold monthLength, days_from_civil.
    change (1 <=? 2) with true. change (12 <=? 2) with false.
    change (2 <? 1) with false. change (2 <? 12) with true.
    change (12 =? 2) with false. change (12 =? 4) with false. change (12 =? 6) with false.
    change (12 =? 9) with false. change (12 =? 11) with false.
    cbn [orb].
    replace (y + 1 - 1) with y by lia.
    change ((153 * (1 + 9) + 2) / 5) with 306. change ((153 * (12 - 3) + 2) / 5) with 275. lia.
  - replace (m / 12) with 0 by (symmetry; apply Z.div_small; lia).
    rewrite Z.mod_small by lia. replace (y + 0) with y by lia.
    unfold monthLength, days_from_civil.
    destruct (Z.leb_spec (m + 1) 2), (Z.leb_spec m 2), (Z.ltb_spec 2 (m + 1)), (Z.ltb_spec 2 m);
      try lia;
      destruct (Z.eqb_spec m 2); try lia;
      destruct (Z.eqb_spec m 4), (Z.eqb_spec m 6), (Z.eqb_spec m 9), (Z.eqb_spec m 11);
      try lia; cbn [orb];
      generalize (y / 400) ((y - 1) / 400); intros; Z.div_mod_to_equations; lia.
Qed.

Lemma days_from_civil_day (y m d : Z) :
  days_from_civil y m d = days_from_civil y m 1 + d - 1.
Proof. unfold days_from_civil. lia. Qed.

(** Every day number has a month from 1 to 12, and is the day number of its
    own date. *)
Lemma civil_from_days_valid (z : Z) :
  let '(y, m, d) := civil_from_days z in
  1 <= m <= 12 /\ 1 <= d <= 31 /\ days_from_civil y m d = z.
Proof.
  unfold civil_from_days.
  set (z' := z + 719468). set (era := z' / 146097). set (doe := z' - era * 146097).
  assert (Hdoe : 0 <= doe < 146097) by (unfold doe, era; Z.div_mod_to_equations; lia).
  destruct (yoe_bounds doe Hdoe) as [Hyoe Hdoy].
  set (yoe := (doe - doe / 1460 + doe / 36524 - doe / 146096) / 365) in *.
  set (doy := doe - (365 * yoe + yoe / 4 - yoe / 100)) in *.
  destruct (month_bounds doy Hdoy) as [Hmp Hd].
  set (mp := (5 * doy + 2) / 153) in *.
  set (d := doy - (153 * mp + 2) / 5 + 1) in *.
  set (m := if mp <? 10 then mp + 3 else mp - 9).
  assert (Hm : 1 <= m <= 12 /\ mp = if 2 <? m then m - 3 else m + 9).
  { unfold m. destruct (Z.ltb_spec mp 10).
    - destruct (Z.ltb_spec 2 (mp + 3)); lia.
    - destruct (Z.ltb_spec 2 (mp - 9)); lia. }
  destruct Hm as [Hm Emp].
  split; [exact Hm|]. split; [exact Hd|].
  unfold days_from_civil. rewrite <- Emp.
  assert (Ey : (if m <=? 2
                then (if m <=? 2 then yoe + era * 400 + 1 else yoe + era * 400) - 1
                else (if m <=? 2 then yoe + era * 400 + 1 else yoe + era * 400))
               = yoe + era * 400) by (destruct (m <=? 2); lia).
  rewrite Ey.
  assert (Eera : (yoe + era * 400) / 400 = era).
  { rewrite Z.div_add by lia. rewrite Z.div_small by lia. lia. }
  rewrite Eera.
  replace (yoe + era * 400 - era * 400) with yoe by lia.
  unfold d, doy, doe, z'. lia.
Qed.

Lemma Day_mul (k : Z) : Day (k * DAY_MS) = k.
Proof. unfold Day. apply Z.div_mul. discriminate. Qed.

Lemma getMonth_range (t : Date) : 0 <= getMonth t <= 11.
Proof.
  unfold getMonth. pose proof (civil_from_days_valid (Day t)) as H.
  destruct (civil_from_days (Day t)) as [[y m] d]. simpl. lia.
Qed.

(** The year that [new Date(y, ...)] takes for [y]. *)
Lemma daysInMonth_spec (date : Date) :
  daysInMonth date
  = monthLength
      (if (0 <=? getFullYear date) && (getFullYear date <=? 99)
       then 1900 + getFullYear date else getFullYear date)
      (getMonth date + 1).
Proof.
  unfold daysInMonth, newDate, getDate.
  set (yr := if (0 <=? getFullYear date) && (getFullYear date <=? 99)
             then 1900 + getFullYear date else getFullYear date).
  pose proof (getMonth_range date) as Hm.
  set (m := getMonth date + 1) in *.
  replace (0 * HOUR_MS + 0 * 60000 + 0 * 1000 + 0) with 0 by reflexivity.
  rewrite Z.add_0_r, Day_mul.
  unfold MakeDay.
  rewrite (days_from_civil_next_month yr m) by lia.
  replace (days_from_civil yr m 1 + monthLength yr m + 0 - 1)
    with (days_from_civil yr m (monthLength yr m))
    by (rewrite (days_from_civil_day yr m (monthLength yr m)); lia).
  rewrite civil_from_days_from_civil; [reflexivity|lia|].
  destruct (monthLength_cases yr m ltac:(lia)) as [(?&?&?)|[(?&?&?)|[(?&?)|(?&?)]]]; lia.
Qed.


(** ** Scale calculator *)


Lemma monthLength_range (y m : Z) : 28 <= monthLength y m <= 31.
Proof.
  unfold monthLength.
  destruct (m =? 2); [destruct (isLeapYear y); lia|].
  destruct ((m =? 4) || (m =? 6) || (m =? 9) || (m =? 11)); lia.
Qed.

(** The units of the scale are whole numbers, at least one of them is
    visible, and no more are visible than there are. *)
Lemma useGanttScale_units (view : View) (preset : string) (anchorDate : Date)
    (clientWidth : option N) :
  let sc := useGanttScale view preset anchorDate clientWidth in
  exists v t : Z,
    visibleUnits sc = inject_Z v /\ totalUnits sc = inject_Z t
    /\ 1 <= v <= t /\ t <= 31
    /\ t = match view with
           | hour => 24
           | week => if regexTest true "Work" preset then 5 else 7
           | month => daysInMonth anchorDate
           end
    /\ pxPerUnit sc = fl (effectiveWidth clientWidth / Math_max 1 (inject_Z v))
    /\ contentPx sc = fl (pxPerUnit sc * inject_Z t).
Proof.
  destruct view;
    cbv beta iota zeta delta [useGanttScale visibleUnits totalUnits pxPerUnit contentPx].
  - eexists _, 24. repeat split; try reflexivity;
      destruct (matchDigits preset); unfold clamp; lia.
  - eexists _, _. repeat split; try reflexivity;
      destruct (regexTest true "Work" preset); lia.
  - pose proof (monthLength_range
                  (if (0 <=? getFullYear anchorDate) && (getFullYear anchorDate <=? 99)
                   then 1900 + getFullYear anchorDate else getFullYear anchorDate)
                  (getMonth anchorDate + 1)) as Hr.
    rewrite <- daysInMonth_spec in Hr.
    eexists _, _. repeat split; try reflexivity;
      destruct (regexTest false "14" preset); try lia;
      destruct (regexTest false "7" preset); lia.
Qed.



(** ** Time projection *)

(** The windows around Thursday 4 January 2024, 15:30: the day itself; the
    week from Sunday 31 December, or the five days from Monday 1 January;
    and January, whose end is the start of February. *)
Lemma viewWindow_examples :
  let anchor := newDate 2024 0 4 15 30 0 0 in
  viewWindow hour "24 Hours" anchor = (newDate 2024 0 4 0 0 0 0, newDate 2024 0 5 0 0 0 0)
  /\ viewWindow week "Full Week" anchor = (newDate 2023 11 31 0 0 0 0, newDate 2024 0 7 0 0 0 0)
  /\ viewWindow week "Work Week" anchor = (newDate 2024 0 1 0 0 0 0, newDate 2024 0 6 0 0 0 0)
  /\ viewWindow month "Full Month" anchor = (newDate 2024 0 1 0 0 0 0, newDate 2024 1 1 0 0 0 0)
  /\ daysInMonth anchor = 31
  /\ daysInMonth (newDate 2024 1 10 0 0 0 0) = 29
  /\ daysInMonth (newDate 2023 1 10 0 0 0 0) = 28.
Proof. repeat split; vm_compute; reflexivity. Qed.

(** The first variant keeps the minimum span of the view. *)
Lemma HitTest_projectTaskToView_min_width (task : Task) (view : View)
    (preset : string) (anchorDate : Date) (sg : Seg) :
  HitTest.projectTaskToView task view preset anchorDate = Some sg ->
  (minWidthUnits view <= endUnit sg - startUnit sg)%Q.
Proof.
  unfold HitTest.projectTaskToView.
  destruct view;
    match goal with |- context [if ?c then None else _] => destruct c end;
    intros [= <-]; cbn [startUnit endUnit];
    match goal with
    | |- context [Math_max (?a + ?c)%Q ?b] =>
        generalize (Math_max_l (a + c)%Q b); generalize (Math_max (a + c)%Q b); generalize a
    end;
    unfold minWidthUnits; intros;
    change (5 / 60)%Q with (5 # 60)%Q in *; change ((1 # 2) / 24)%Q with (1 # 48)%Q in *;
    lra.
Qed.

(** The second variant keeps a floor only in month view. *)
Lemma Stable_projectTaskToView_month_min_width (task : Task) (preset : string)
    (anchorDate : Date) (sg : Seg) :
  Stable.projectTaskToView task month preset anchorDate = Some sg ->
  (1 # 48 <= endUnit sg - startUnit sg)%Q.
Proof.
  unfold Stable.projectTaskToView. intros [= <-]. cbn [startUnit endUnit].
  match goal with
  | |- context [Math_max (?a + ?c)%Q ?b] =>
      generalize (Math_max_l (a + c)%Q b); generalize (Math_max (a + c)%Q b); generalize a
  end.
  intros; change (1 / 48)%Q with (1 # 48)%Q in *; lra.
Qed.

(** C4. The second variant's projection goes below the floor: a task from
    10:00 to 10:03 gets 1/20 hour in hour view, less than 1/12; and in week
    view a task from Monday 23:00 to Tuesday 00:00 gets an end before its
    start. *)
Theorem Stable_projectTaskToView_below_floor :
  (exists sg,
      Stable.projectTaskToView task_3min hour "24 Hours" jan1 = Some sg
      /\ (endUnit sg - startUnit sg == 1 # 20)%Q
      /\ (endUnit sg - startUnit sg < 1 # 12)%Q)
  /\ (exists sg,
         Stable.projectTaskToView task_late week "Work Week" jan1 = Some sg
         /\ (endUnit sg - startUnit sg < 0)%Q).
Proof.
  split; eexists; (split; [vm_compute; reflexivity|]); cbn [startUnit endUnit];
    repeat split; reflexivity.
Qed.

(** Mapping the two ends of a projected segment back to instants: the start
    is the clipped start, the end is the clipped end or, when that comes
    earlier, the clipped start plus the minimum span [m]. *)
Lemma unit_roundtrip (U ws s e m : Z) (c : Q) :
  0 < U ->
  (c * inject_Z U == inject_Z m)%Q ->
  let su := (inject_Z (s - ws) / inject_Z U)%Q in
  (inject_Z ws + su * inject_Z U == inject_Z s)%Q
  /\ (inject_Z ws + Math_max (su + c) (inject_Z (e - ws) / inject_Z U) * inject_Z U
      == inject_Z (Z.max e (s + m)))%Q.
Proof.
  intros HU Hc su.
  assert (Hx : (0 < inject_Z U)%Q) by (change 0%Q with (inject_Z 0); rewrite <- Zlt_Qlt; lia).
  assert (Hs : (su * inject_Z U == inject_Z s - inject_Z ws)%Q).
  { unfold su. rewrite inject_Z_sub. field. lra. }
  assert (He : (inject_Z (e - ws) / inject_Z U * inject_Z U == inject_Z e - inject_Z ws)%Q).
  { rewrite inject_Z_sub. field. lra. }
  split; [lra|].
  rewrite <- inject_Z_max, inject_Z_plus.
  destruct (Math_max_cases (su + c) (inject_Z (e - ws) / inject_Z U)) as [[H ->]|[H ->]];
    destruct (Math_max_cases (inject_Z e) (inject_Z s + inject_Z m)) as [[H' ->]|[H' ->]];
    try lra.
  - apply (Qmult_lt_compat_r _ _ (inject_Z U)) in H; lra.
  - apply (Qmult_le_compat_r _ _ (inject_Z U)) in H; lra.
Qed.

(** What follows for a clipped interval [s < e] of the window from [ws] to
    [we]: a task that begins before the window starts at unit 0; one that
    ends after the window ends at the window's end if it is shown for the
    minimum span at least, and past the window's end otherwise. *)
Lemma clipped_ends (U ws we st en m : Z) (su eu : Q) :
  0 < U -> 0 <= m ->
  let s := Z.max st ws in
  let e := Z.min en we in
  s < e ->
  (inject_Z ws + su * inject_Z U == inject_Z s)%Q ->
  (inject_Z ws + eu * inject_Z U == inject_Z (Z.max e (s + m)))%Q ->
  (st <= ws -> (su == 0)%Q)
  /\ (ws <= st -> (inject_Z ws + su * inject_Z U == inject_Z st)%Q)
  /\ (en <= we -> s + m <= en -> (inject_Z ws + eu * inject_Z U == inject_Z en)%Q)
  /\ (we <= en -> s + m <= we -> (inject_Z ws + eu * inject_Z U == inject_Z we)%Q)
  /\ (we < s + m -> (inject_Z we < inject_Z ws + eu * inject_Z U)%Q)
  /\ (0 <= su)%Q
  /\ (inject_Z ws + su * inject_Z U < inject_Z we)%Q
  /\ (su < eu)%Q.
Proof.
  intros HU Hm s e Hse Hs He.
  assert (Hx : (0 < inject_Z U)%Q) by (change 0%Q with (inject_Z 0); rewrite <- Zlt_Qlt; lia).
  assert (Hsu : (0 <= su)%Q).
  { assert (H : (inject_Z ws <= inject_Z s)%Q) by (rewrite <- Zle_Qle; lia). nra. }
  repeat split.
  - intros H. assert (E : s = ws) by lia. rewrite E in Hs. nra.
  - intros H. assert (E : s = st) by lia. rewrite <- E. exact Hs.
  - intros H1 H2. rewrite He. replace (Z.max e (s + m)) with en by lia. reflexivity.
  - intros H1 H2. rewrite He. replace (Z.max e (s + m)) with we by lia. reflexivity.
  - intros H. rewrite He. rewrite <- Zlt_Qlt. lia.
  - exact Hsu.
  - rewrite Hs. rewrite <- Zlt_Qlt. lia.
  - assert (H : (inject_Z s < inject_Z (Z.max e (s + m)))%Q) by (rewrite <- Zlt_Qlt; lia).
    nra.
Qed.

(** C1, as the code has it.  The first variant's projection returns [null]
    exactly when the task clipped to the window has no positive length.
    Otherwise the start of the segment maps back to the clipped start, and
    its end to the clipped end or, when the clipped interval is shorter than
    the minimum span, to the clipped start plus the minimum span.  So a task
    that begins before the window starts at unit 0, and a task that begins
    inside it at its own start; a task that ends inside the window ends at
    its own end, and one that ends after the window at the window's end -
    both only if that leaves the minimum span; and when the clipped start is
    less than the minimum span before the window's end, the segment ends
    past the window's end. *)
Theorem projectTaskToView_clipped (task : Task) (view : View) (preset : string)
    (anchorDate : Date) :
  let ws := fst (viewWindow view preset anchorDate) in
  let we := snd (viewWindow view preset anchorDate) in
  let s := Z.max (start task) ws in
  let e := Z.min (end_ task) we in
  match HitTest.projectTaskToView task view preset anchorDate with
  | None => e <= s
  | Some sg =>
      s < e
      /\ (unitToTime view ws (startUnit sg) == inject_Z s)%Q
      /\ (unitToTime view ws (endUnit sg) == inject_Z (Z.max e (s + minWidthMs view)))%Q
      /\ label sg = title task
      /\ (start task <= ws -> (startUnit sg == 0)%Q)
      /\ (ws <= start task -> (unitToTime view ws (startUnit sg) == inject_Z (start task))%Q)
      /\ (end_ task <= we -> s + minWidthMs view <= end_ task ->
          (unitToTime view ws (endUnit sg) == inject_Z (end_ task))%Q)
      /\ (we <= end_ task -> s + minWidthMs view <= we ->
          (unitToTime view ws (endUnit sg) == inject_Z we)%Q)
      /\ (we < s + minWidthMs view -> (inject_Z we < unitToTime view ws (endUnit sg))%Q)
      /\ (0 <= startUnit sg)%Q
      /\ (unitToTime view ws (startUnit sg) < inject_Z we)%Q
      /\ (startUnit sg < endUnit sg)%Q
  end.
Proof.
  unfold HitTest.projectTaskToView, viewWindow, unitToTime, getTime.
  destruct view; cbn zeta;
    [ change (24 * 60 * 60 * 1000) with DAY_MS; change 3600000%Q with (inject_Z HOUR_MS)
    | destruct (regexTest true "Work" preset) | ];
    cbn [fst snd unitMs minWidthMs];
    match goal with |- context [if ?a <=? ?b then _ else _] =>
      destruct (Z.leb_spec a b) as [Hle|Hlt] end;
    try exact Hle;
    cbn [startUnit endUnit label]; (split; [exact Hlt|]);
    match goal with
    | |- context [Math_max (inject_Z (?s - ?ws) / inject_Z ?U + ?c)%Q
                           (inject_Z (?e - ?ws) / inject_Z ?U)%Q] =>
        match goal with
        | |- context [Z.max e (s + ?m)] =>
            destruct (unit_roundtrip U ws s e m c eq_refl eq_refl) as [H1 H2];
            match type of Hlt with
            | Z.max ?st _ < Z.min ?en ?we =>
                pose proof (clipped_ends U ws we st en m _ _ eq_refl ltac:(discriminate)
                              Hlt H1 H2) as (H3 & H4 & H5 & H6 & H7 & H8 & H9 & H10)
            end
        end
    end;
    repeat split; auto.
Qed.

(** C1, as stated, fails on the minimum span.  In hour view on 1 January
    2024 a task from 10:00 to 10:01 lies inside the window, so its
    intersection with the window ends at 10:01; the projected segment ends
    at 10 + 1/12, which maps back to 10:05, both through the unit system of
    the view and through [unitsToDateRange] called on the same day. *)
Lemma projectTaskToView_end_past_intersection :
  exists sg,
    HitTest.projectTaskToView task_1min hour "24 Hours" jan1 = Some sg
    /\ Z.max (start task_1min) (fst (viewWindow hour "24 Hours" jan1)) = newDate 2024 0 1 10 0 0 0
    /\ Z.min (end_ task_1min) (snd (viewWindow hour "24 Hours" jan1)) = newDate 2024 0 1 10 1 0 0
    /\ (unitToTime hour (fst (viewWindow hour "24 Hours" jan1)) (endUnit sg)
        == inject_Z (newDate 2024 0 1 10 5 0 0))%Q
    /\ ~ (unitToTime hour (fst (viewWindow hour "24 Hours" jan1)) (endUnit sg)
          == inject_Z (Z.min (end_ task_1min) (snd (viewWindow hour "24 Hours" jan1))))%Q
    /\ unitsToDateRange jan1 hour jan1 (startUnit sg) (endUnit sg)
       = (newDate 2024 0 1 10 0 0 0, newDate 2024 0 1 10 5 0 0).
Proof.
  eexists. split; [vm_compute; reflexivity|].
  cbn [startUnit endUnit].
  repeat split; try (vm_compute; reflexivity).
  vm_compute. discriminate.
Qed.

(** In doubt the minimum span wins over the window: a task from 23:58 to
    00:10 of the next day, seen on 1 January 2024, ends at unit 24 + 1/20,
    past the 24 hours of the day; and in month view a task from 31 January
    23:45 to 1 February 02:00 ends at 31 + 1/96, past the 31 days of
    January. *)
Lemma projectTaskToView_end_past_window :
  (exists sg,
      HitTest.projectTaskToView
        (mkTask "t6" "r0" (newDate 2024 0 1 23 58 0 0) (newDate 2024 0 2 0 10 0 0))
        hour "24 Hours" jan1 = Some sg
      /\ (endUnit sg == 24 + (1 # 20))%Q
      /\ (totalUnits (useGanttScale hour "24 Hours" jan1 None) < endUnit sg)%Q)
  /\ (exists sg,
         HitTest.projectTaskToView
           (mkTask "t7" "r0" (newDate 2024 0 31 23 45 0 0) (newDate 2024 1 1 2 0 0 0))
           month "Full Month" jan1 = Some sg
         /\ (endUnit sg == 31 + (1 # 96))%Q
         /\ (totalUnits (useGanttScale month "Full Month" jan1 None) < endUnit sg)%Q).
Proof.
  split; eexists; (split; [vm_compute; reflexivity|]); split; vm_compute; reflexivity.
Qed.

(** *** The windows

    The window of a view, by the number of the anchor's day: the day itself;
    the week from the last Sunday (or the five days from the last Monday) at
    or before it - day 0 was a Thursday; and the anchor's month from its
    first day to the first day of the next.  The hour and the month window
    go through [new Date(year, ...)] and are these for an anchor outside the
    years 0 to 99. *)

Lemma TimeWithinDay_mul (k : Z) : TimeWithinDay (k * DAY_MS) = 0.
Proof. unfold TimeWithinDay. apply Z.mod_mul. discriminate. Qed.

Lemma MakeDay_of_fields (t : Date) (d : Z) :
  MakeDay (getFullYear t) (getMonth t) d = Day t - getDate t + d.
Proof.
  unfold MakeDay, getFullYear, getMonth, getDate.
  pose proof (civil_from_days_valid (Day t)) as H.
  destruct (civil_from_days (Day t)) as [[y m] dd]. cbn [fst snd].
  destruct H as (Hm & _ & E).
  replace ((m - 1) / 12) with 0 by (symmetry; apply Z.div_small; lia).
  rewrite Z.mod_small by lia.
  replace (y + 0) with y by lia. replace (m - 1 + 1) with m by lia.
  rewrite (days_from_civil_day y m dd) in E. lia.
Qed.

Lemma setDate_spec (x : Date) (dt : Z) :
  setDate x dt = (Day x - getDate x + dt) * DAY_MS + TimeWithinDay x.
Proof. unfold setDate. rewrite MakeDay_of_fields. reflexivity. Qed.

Lemma newDate_midnight (y m d : Z) :
  ~ 0 <= y <= 99 -> newDate y m d 0 0 0 0 = MakeDay y m d * DAY_MS.
Proof.
  intros Hy. unfold newDate.
  replace ((0 <=? y) && (y <=? 99)) with false.
  - change (0 * HOUR_MS + 0 * 60000 + 0 * 1000 + 0) with 0. apply Z.add_0_r.
  - symmetry. apply andb_false_iff.
    destruct (Z.leb_spec 0 y); [|auto]. destruct (Z.leb_spec y 99); [lia|auto].
Qed.

Lemma MakeDay_unfold (y m d : Z) :
  MakeDay y m d = days_from_civil (y + m / 12) (m mod 12 + 1) 1 + d - 1.
Proof. reflexivity. Qed.

Lemma MakeDay_next_month (t : Date) :
  MakeDay (getFullYear t) (getMonth t + 1) 1
  = Day t - getDate t + 1 + monthLength (getFullYear t) (getMonth t + 1).
Proof.
  pose proof (getMonth_range t) as Hm.
  pose proof (MakeDay_of_fields t 1) as E.
  rewrite MakeDay_unfold in E. rewrite MakeDay_unfold.
  rewrite (days_from_civil_next_month (getFullYear t) (getMonth t + 1)) by lia.
  replace (getMonth t / 12) with 0 in E by (symmetry; apply Z.div_small; lia).
  rewrite Z.mod_small in E by lia.
  replace (getFullYear t + 0) with (getFullYear t) in E by lia.
  generalize dependent (days_from_civil (getFullYear t) (getMonth t + 1) 1). intros. lia.
Qed.

Lemma viewWindow_spec (view : View) (preset : string) (anchorDate : Date) :
  let day := anchorDate / DAY_MS in
  match view with
  | hour =>
      ~ 0 <= getFullYear anchorDate <= 99 ->
      viewWindow view preset anchorDate = (day * DAY_MS, (day + 1) * DAY_MS)
  | week =>
      viewWindow view preset anchorDate
      = if regexTest true "Work" preset
        then ((day - (day + 3) mod 7) * DAY_MS, (day - (day + 3) mod 7 + 5) * DAY_MS)
        else ((day - (day + 4) mod 7) * DAY_MS, (day - (day + 4) mod 7 + 7) * DAY_MS)
  | month =>
      ~ 0 <= getFullYear anchorDate <= 99 ->
      let first := day - (getDate anchorDate - 1) in
      viewWindow view preset anchorDate
      = (first * DAY_MS,
         (first + monthLength (getFullYear anchorDate) (getMonth anchorDate + 1)) * DAY_MS)
      /\ civil_from_days first = (getFullYear anchorDate, getMonth anchorDate + 1, 1)
  end.
Proof.
  intros day. fold (Day anchorDate) in day.
  destruct view; unfold viewWindow.
  - intros Hy. rewrite newDate_midnight by exact Hy. rewrite MakeDay_of_fields. fold day.
    f_equal; lia.
  - unfold setHours0. fold day.
    rewrite !setDate_spec, !TimeWithinDay_mul, !Day_mul.
    unfold getDay. rewrite Day_mul.
    replace (((day + 4) mod 7 + 6) mod 7) with ((day + 3) mod 7)
      by (Z.div_mod_to_equations; lia).
    destruct (regexTest true "Work" preset); f_equal; lia.
  - intros Hy. set (first := day - (getDate anchorDate - 1)).
    rewrite !newDate_midnight by exact Hy.
    rewrite MakeDay_of_fields, MakeDay_next_month. fold day.
    split.
    + f_equal; unfold first; f_equal; lia.
    + pose proof (civil_from_days_valid day) as H.
      unfold first, getFullYear, getMonth, getDate. fold day.
      destruct (civil_from_days day) as [[y m] d]. cbn [fst snd].
      destruct H as (Hm & Hd & E).
      replace (day - (d - 1)) with (days_from_civil y m 1)
        by (rewrite (days_from_civil_day y m d) in E; lia).
      replace (m - 1 + 1) with m by lia.
      apply civil_from_days_from_civil; [exact Hm|].
      pose proof (monthLength_range y m). lia.
Qed.

(** [unitsToDateRange] is the tooltip's reading of units, not the inverse of
    the projection: in the full week around Thursday 4 January 2024, whose
    window starts on Sunday 31 December, unit 0 is read as Monday 1 January;
    and a segment that ends on a day boundary is read as ending half an hour
    later. *)
Lemma unitsToDateRange_not_inverse :
  let anchor := newDate 2024 0 4 0 0 0 0 in
  fst (viewWindow week "Full Week" anchor) = newDate 2023 11 31 0 0 0 0
  /\ unitsToDateRange anchor week anchor 0 1
     = (newDate 2024 0 1 0 0 0 0, newDate 2024 0 2 0 30 0 0).
Proof. split; vm_compute; reflexivity. Qed.

(** A task that only touches the window is not shown: it ends at the very
    instant the window starts, the closed intervals share that instant, and
    the projection is [null]. *)
Lemma projectTaskToView_touching_is_null :
  let t := mkTask "t4" "r0" (newDate 2023 11 31 22 0 0 0) jan1 in
  HitTest.projectTaskToView t hour "24 Hours" jan1 = None
  /\ end_ t = fst (viewWindow hour "24 Hours" jan1).
Proof. split; vm_compute; reflexivity. Qed.

(** The second variant reads the clock fields and does not clip: a task
    from 22:00 on 31 December to 06:00 on 1 January, seen on 1 January, is
    placed from hour 22 on instead of from 0 to 6. *)
Lemma Stable_projectTaskToView_raw_clock :
  let t := mkTask "t5" "r0" (newDate 2023 11 31 22 0 0 0) (newDate 2024 0 1 6 0 0 0) in
  (exists sg, Stable.projectTaskToView t hour "24 Hours" jan1 = Some sg
              /\ (startUnit sg == 22)%Q /\ (endUnit sg == 22 + (1 # 20))%Q)
  /\ (exists sg, HitTest.projectTaskToView t hour "24 Hours" jan1 = Some sg
                 /\ (startUnit sg == 0)%Q /\ (endUnit sg == 6)%Q).
Proof.
  split; eexists; (split; [vm_compute; reflexivity|]); split; reflexivity.
Qed.

(** ** Lane assignment *)

Lemma eps_pos : (0 < eps)%Q.
Proof. vm_compute. reflexivity. Qed.

(** Adding the tolerance to a binary64 number does not make it smaller. *)
Lemma double_le_plus_eps (x : Q) : isDouble x -> (x <= fl (x + eps))%Q.
Proof.
  intros Hx. unfold isDouble in Hx. rewrite <- Hx at 1.
  apply fl_mono. pose proof eps_pos. lra.
Qed.

Lemma plus_eps_mono (x y : Q) : (x <= y)%Q -> (fl (x + eps) <= fl (y + eps))%Q.
Proof. intros H. apply fl_mono. lra. Qed.

Lemma findIndex_None {A : Type} (P : A -> bool) (l : list A) :
  findIndex P l = None <-> Forall (fun a => P a = false) l.
Proof.
  induction l as [|a l IH]; simpl.
  - split; auto.
  - destruct (P a) eqn:E.
    + split; [discriminate|]. intros H. inversion H; congruence.
    + destruct (findIndex P l); simpl.
      * split; [discriminate|]. intros H. inversion H; subst.
        apply IH in H3. discriminate.
      * split; auto. intros _. constructor; auto. apply IH. reflexivity.
Qed.

(** [findIndex] returns the first index at which the test holds. *)
Lemma findIndex_Some {A : Type} (P : A -> bool) (l : list A) (i : nat) :
  findIndex P l = Some i ->
  (exists a, l !! i = Some a /\ P a = true)
  /\ (forall j b, (j < i)%nat -> l !! j = Some b -> P b = false).
Proof.
  revert i. induction l as [|a l IH]; simpl; intros i; [discriminate|].
  destruct (P a) eqn:E.
  - intros [= <-]. split; [eauto|]. intros j b Hj. lia.
  - destruct (findIndex P l) as [k|]; simpl; [|discriminate].
    intros [= <-]. destruct (IH k eq_refl) as [(b & ? & ?) Hfirst].
    split; [eauto|].
    intros [|j] c Hj Hc; simpl in Hc.
    + congruence.
    + apply (Hfirst j); [lia|exact Hc].
Qed.

(** No lane fits: every lane ends after the start plus the tolerance. *)
Lemma findIndex_no_fit (it : Item) (ends : list Q) :
  findIndex (fun e => Qle_bool e (fl (startUnit (seg it) + eps))) ends = None
  <-> Forall (fun e => (fl (startUnit (seg it) + eps) < e)%Q) ends.
Proof.
  rewrite findIndex_None. apply Forall_iff. intros e.
  destruct (Qle_bool e (fl (startUnit (seg it) + eps))) eqn:E.
  - apply Qle_bool_iff in E. split; [discriminate|lra].
  - split; [intros _|reflexivity].
    destruct (Qlt_le_dec (fl (startUnit (seg it) + eps)) e) as [|Hle]; [assumption|].
    apply Qle_bool_iff in Hle. congruence.
Qed.

(** Insertion keeps every item. *)
Lemma insertSorted_Permutation (x : Item) (l : list Item) :
  insertSorted x l ≡ₚ x :: l.
Proof.
  induction l as [|y l IH]; simpl; [reflexivity|].
  destruct (Qle_bool (compareItems x y) 0); [reflexivity|].
  rewrite IH. apply Permutation_swap.
Qed.

Lemma sortItems_Permutation (l : list Item) : sortItems l ≡ₚ l.
Proof.
  induction l as [|x l IH]; simpl; [reflexivity|].
  rewrite insertSorted_Permutation, IH. reflexivity.
Qed.

(** Each round appends the item it was given, with some lane. *)
Lemma placeItem_out (maxLanes : Z) (st : LaneState) (it : Item) :
  unplace <$> out (placeItem maxLanes st it) = (unplace <$> out st) ++ [it].
Proof.
  unfold placeItem.
  destruct (findIndex _ _); [|destruct (_ <? _)];
    cbn [out]; rewrite fmap_app; destruct it; reflexivity.
Qed.

Lemma foldl_placeItem_out (maxLanes : Z) (l : list Item) (st : LaneState) :
  unplace <$> out (foldl (placeItem maxLanes) st l) = (unplace <$> out st) ++ l.
Proof.
  revert st. induction l as [|it l IH]; intros st; simpl.
  - rewrite app_nil_r. reflexivity.
  - rewrite IH, placeItem_out, <- app_assoc. reflexivity.
Qed.

(** The output is the sorted input: nothing is dropped, nothing added. *)
Lemma assignLanes_items (its : list Item) (maxLanes : Z) :
  unplace <$> items (assignLanes its maxLanes) = sortItems its.
Proof. unfold assignLanes, runLanes. cbn [items]. apply foldl_placeItem_out. Qed.

Lemma arrayUpdate_length (l : list Q) (i : Z) (f : Q -> Q) :
  length (arrayUpdate l i f) = length l.
Proof. unfold arrayUpdate. destruct (i <? 0); [reflexivity|apply length_alter]. Qed.

(** A round opens at most one lane, and none at the cap. *)
Lemma placeItem_lanes (maxLanes : Z) (st : LaneState) (it : Item) :
  Z.of_nat (length (laneEnds (placeItem maxLanes st it)))
  <= Z.max maxLanes (Z.of_nat (length (laneEnds st))).
Proof.
  unfold placeItem.
  destruct (findIndex _ _); [|destruct (Z.ltb_spec (Z.of_nat (length (laneEnds st))) maxLanes)];
    cbn [laneEnds].
  - rewrite length_insert. lia.
  - rewrite length_app. simpl. lia.
  - rewrite arrayUpdate_length. lia.
Qed.

Lemma foldl_placeItem_lanes (maxLanes : Z) (l : list Item) (st : LaneState) :
  Z.of_nat (length (laneEnds (foldl (placeItem maxLanes) st l)))
  <= Z.max maxLanes (Z.of_nat (length (laneEnds st))).
Proof.
  revert st. induction l as [|it l IH]; intros st; simpl; [lia|].
  pose proof (IH (placeItem maxLanes st it)).
  pose proof (placeItem_lanes maxLanes st it). lia.
Qed.

(** The lane cap holds whatever the input. *)
Lemma assignLanes_laneCount (its : list Item) (maxLanes : Z) :
  1 <= maxLanes -> 1 <= laneCount (assignLanes its maxLanes) <= maxLanes.
Proof.
  intros Hm. unfold assignLanes, runLanes. cbn [laneCount].
  pose proof (foldl_placeItem_lanes maxLanes (sortItems its) {| laneEnds := []; out := [] |}).
  cbn [laneEnds length] in H. lia.
Qed.

(** Every round places its item in an open lane and closes none. *)
Lemma placeItem_lanesInRange (maxLanes : Z) (st : LaneState) (it : Item) :
  1 <= maxLanes ->
  Z.of_nat (length (laneEnds st)) <= maxLanes -> lanesInRange st ->
  Z.of_nat (length (laneEnds (placeItem maxLanes st it))) <= maxLanes
  /\ lanesInRange (placeItem maxLanes st it).
Proof.
  intros Hm Hlen Hin.
  assert (Hold : forall n, (length (laneEnds st) <= n)%nat ->
            forall p, p ∈ out st -> 0 <= lane p < Z.of_nat n).
  { intros n Hn p Hp. specialize (Hin p Hp). lia. }
  unfold placeItem, lanesInRange.
  destruct (findIndex _ _) as [k|] eqn:Hfind;
    [|destruct (Z.ltb_spec (Z.of_nat (length (laneEnds st))) maxLanes)];
    cbn [laneEnds out].
  - apply findIndex_Some in Hfind as [(e & Hk & _) _].
    apply lookup_lt_Some in Hk.
    rewrite length_insert. split; [exact Hlen|].
    intros p Hp. apply elem_of_app in Hp as [Hp|Hp]; [apply Hold; auto|].
    apply list_elem_of_singleton in Hp as ->. cbn [lane]. lia.
  - rewrite length_app. cbn [length]. split; [lia|].
    intros p Hp. apply elem_of_app in Hp as [Hp|Hp]; [apply Hold; [lia|exact Hp]|].
    apply list_elem_of_singleton in Hp as ->. cbn [lane]. lia.
  - rewrite arrayUpdate_length. split; [exact Hlen|].
    intros p Hp. apply elem_of_app in Hp as [Hp|Hp]; [apply Hold; auto|].
    apply list_elem_of_singleton in Hp as ->. cbn [lane]. lia.
Qed.

Lemma foldl_placeItem_lanesInRange (maxLanes : Z) (l : list Item) (st : LaneState) :
  1 <= maxLanes ->
  Z.of_nat (length (laneEnds st)) <= maxLanes -> lanesInRange st ->
  lanesInRange (foldl (placeItem maxLanes) st l).
Proof.
  intros Hm. revert st. induction l as [|it l IH]; intros st Hlen Hin; simpl; [exact Hin|].
  destruct (placeItem_lanesInRange maxLanes st it Hm Hlen Hin) as [Hlen' Hin'].
  apply IH; assumption.
Qed.

(** The lanes handed out are those counted. *)
Lemma assignLanes_lane_range (its : list Item) (maxLanes : Z) (p : Placed) :
  1 <= maxLanes -> p ∈ items (assignLanes its maxLanes) ->
  0 <= lane p < laneCount (assignLanes its maxLanes).
Proof.
  intros Hm Hp. unfold assignLanes in *. cbn [items laneCount] in *.
  pose proof (foldl_placeItem_lanesInRange maxLanes (sortItems its)
                {| laneEnds := []; out := [] |} Hm) as H.
  cbn [laneEnds out length] in H.
  specialize (H ltac:(lia)).
  unfold runLanes in *.
  specialize (H ltac:(intros q Hq; apply elem_of_nil in Hq; contradiction) p Hp). lia.
Qed.

(** Placement at the cap: no lane fits and [maxLanes] lanes are open. *)
Lemma placeItem_forced (maxLanes : Z) (st : LaneState) (it : Item) :
  1 <= maxLanes ->
  Z.of_nat (length (laneEnds st)) = maxLanes ->
  Forall (fun e => (fl (startUnit (seg it) + eps) < e)%Q) (laneEnds st) ->
  exists old,
    laneEnds st !! Z.to_nat (maxLanes - 1) = Some old
    /\ placeItem maxLanes st it =
       {| laneEnds := <[Z.to_nat (maxLanes - 1) := Math_max old (endUnit (seg it))]> (laneEnds st);
          out := out st ++ [{| ptask := task it; pseg := seg it; lane := maxLanes - 1 |}] |}.
Proof.
  intros Hm Hlen Hnone. apply findIndex_no_fit in Hnone.
  destruct (lookup_lt_is_Some_2 (laneEnds st) (Z.to_nat (maxLanes - 1))) as [old Hold]; [lia|].
  exists old. split; [exact Hold|].
  unfold placeItem. rewrite Hnone.
  destruct (Z.ltb_spec (Z.of_nat (length (laneEnds st))) maxLanes); [lia|].
  unfold arrayUpdate. destruct (Z.ltb_spec (maxLanes - 1) 0); [lia|].
  f_equal. apply list_eq. intros j.
  rewrite list_lookup_alter, list_lookup_insert.
  destruct (decide (Z.to_nat (maxLanes - 1) = j)) as [<-|Hne].
  - rewrite Hold. simpl. rewrite decide_True; [reflexivity|].
    split; [reflexivity|]. apply lookup_lt_Some in Hold. exact Hold.
  - rewrite decide_False; [reflexivity|]. intros [? _]. contradiction.
Qed.

(** Placement in a lane that fits: the first lane that ends by the start
    plus the tolerance takes the segment, and ends where the segment ends. *)
Lemma placeItem_fit (maxLanes : Z) (st : LaneState) (it : Item) (k : nat) (e : Q) :
  laneEnds st !! k = Some e ->
  (e <= fl (startUnit (seg it) + eps))%Q ->
  (forall j b, (j < k)%nat -> laneEnds st !! j = Some b ->
               (fl (startUnit (seg it) + eps) < b)%Q) ->
  placeItem maxLanes st it =
  {| laneEnds := <[k := endUnit (seg it)]> (laneEnds st);
     out := out st ++ [{| ptask := task it; pseg := seg it; lane := Z.of_nat k |}] |}.
Proof.
  intros Hk Hfit Hfirst. unfold placeItem.
  destruct (findIndex _ _) as [i|] eqn:Hfind.
  - apply findIndex_Some in Hfind as [(a & Hi & Ha) Hmin].
    apply Qle_bool_iff in Ha.
    destruct (Nat.lt_total i k) as [Hlt|[->|Hgt]]; [|reflexivity|].
    + specialize (Hfirst i a Hlt Hi). lra.
    + specialize (Hmin k e Hgt Hk). apply Qle_bool_iff in Hfit. congruence.
  - apply findIndex_no_fit in Hfind. rewrite Forall_forall in Hfind.
    specialize (Hfind e (list_elem_of_lookup_2 _ _ _ Hk)). lra.
Qed.

(** *** The sort *)

Lemma compareItems_le (a b : Item) :
  Qle_bool (compareItems a b) 0 = true <-> lexLe a b.
Proof.
  unfold compareItems, lexLe. rewrite Qle_bool_iff.
  destruct (Qeq_bool (startUnit (seg a) - startUnit (seg b)) 0) eqn:E.
  - apply Qeq_bool_iff in E. split; [intros; right; split; lra|intros [?|[? ?]]; lra].
  - apply Qeq_bool_neq in E. split; [intros; left; lra|intros [?|[? ?]]; lra].
Qed.

Lemma lexLe_trans (a b c : Item) : lexLe a b -> lexLe b c -> lexLe a c.
Proof. unfold lexLe. intros [?|[? ?]] [?|[? ?]]; [left|left|left|right; split]; lra. Qed.

Lemma lexLe_total (a b : Item) : ~ lexLe a b -> lexLe b a.
Proof.
  unfold lexLe. intros H.
  destruct (Qlt_le_dec (startUnit (seg b)) (startUnit (seg a))); [left; assumption|].
  destruct (Qlt_le_dec (startUnit (seg a)) (startUnit (seg b))); [tauto|].
  destruct (Qlt_le_dec (endUnit (seg b)) (endUnit (seg a))).
  - right. split; lra.
  - exfalso. apply H. right. split; lra.
Qed.

Lemma insertSorted_sorted (x : Item) (l : list Item) :
  sortedBy lexLe l -> sortedBy lexLe (insertSorted x l).
Proof.
  induction l as [|y l IH]; simpl.
  - intros _. split; constructor.
  - intros [Hy Hl].
    destruct (Qle_bool (compareItems x y) 0) eqn:E; simpl.
    + apply compareItems_le in E. repeat split; auto.
      constructor; [exact E|].
      eapply Forall_impl; [exact Hy|]. intros z Hz. eapply lexLe_trans; eauto.
    + split; [|auto].
      apply Forall_forall. intros z Hz.
      rewrite insertSorted_Permutation in Hz.
      apply elem_of_cons in Hz as [->|Hz].
      * apply lexLe_total. rewrite <- compareItems_le. congruence.
      * rewrite Forall_forall in Hy. auto.
Qed.

(** The sorted list ascends by start, then by end. *)
Lemma sortItems_lexLe (l : list Item) : sortedBy lexLe (sortItems l).
Proof. induction l as [|x l IH]; simpl; [exact I|]. apply insertSorted_sorted, IH. Qed.

Lemma sortItems_sorted (l : list Item) : sortedBy startLe (sortItems l).
Proof.
  pose proof (sortItems_lexLe l) as H.
  revert H. generalize (sortItems l). clear l.
  induction l as [|x l IH]; simpl; [auto|].
  intros [Hx Hl]. split; [|auto].
  eapply Forall_impl; [exact Hx|].
  intros y [?|[? ?]]; unfold startLe; lra.
Qed.

(** *** Segments that all end after the start of each, beyond the tolerance

    When every item ends after the start of every item plus the tolerance,
    as the search computes it, no lane ever fits: the lanes fill up one by
    one and every later item is forced into the last one. *)
Section MutualOverlap.
Variable its : list Item.
Variable maxLanes : Z.
Hypothesis cap_pos : 1 <= maxLanes.
Hypothesis mutual :
  forall a b, a ∈ its -> b ∈ its -> (fl (startUnit (seg a) + eps) < endUnit (seg b))%Q.

Lemma mutual_no_fit (st : LaneState) (it : Item) :
  it ∈ its -> endsBounded its st ->
  findIndex (fun e => Qle_bool e (fl (startUnit (seg it) + eps))) (laneEnds st) = None.
Proof.
  intros Hit Hst. apply findIndex_no_fit.
  eapply Forall_impl; [exact Hst|].
  intros e (b & Hb & Hle). simpl.
  pose proof (mutual it b Hit Hb). lra.
Qed.

Lemma mutual_step (st : LaneState) (it : Item) :
  it ∈ its -> endsBounded its st -> lanesFilled maxLanes st ->
  endsBounded its (placeItem maxLanes st it)
  /\ lanesFilled maxLanes (placeItem maxLanes st it)
  /\ out (placeItem maxLanes st it)
     = out st ++ [{| ptask := task it; pseg := seg it;
                     lane := Z.min (Z.of_nat (length (out st))) (maxLanes - 1) |}].
Proof.
  intros Hit Hends Hlen.
  unfold placeItem. rewrite (mutual_no_fit st it Hit Hends).
  unfold endsBounded, lanesFilled in *.
  destruct (Z.ltb_spec (Z.of_nat (length (laneEnds st))) maxLanes) as [Hlt|Hge];
    cbn [laneEnds out].
  - repeat split.
    + apply Forall_app. split; [exact Hends|].
      constructor; [|constructor]. exists it. split; [exact Hit|lra].
    + rewrite !length_app. simpl. lia.
    + do 3 f_equal. lia.
  - repeat split.
    + unfold arrayUpdate. destruct (maxLanes - 1 <? 0); [exact Hends|].
      apply Forall_alter; [exact Hends|].
      intros old _ (b & Hb & Hle). exists b. split; [exact Hb|].
      pose proof (Math_max_l old (endUnit (seg it))). lra.
    + rewrite arrayUpdate_length, length_app. simpl. lia.
    + do 3 f_equal. lia.
Qed.

Lemma mutual_fold (l : list Item) (st : LaneState) :
  (forall x, x ∈ l -> x ∈ its) -> endsBounded its st -> lanesFilled maxLanes st ->
  let st' := foldl (placeItem maxLanes) st l in
  lane <$> out st'
  = (lane <$> out st)
    ++ ((fun k => Z.min (Z.of_nat k) (maxLanes - 1)) <$> seq (length (out st)) (length l))
  /\ length (laneEnds st') = Nat.min (length (out st) + length l) (Z.to_nat maxLanes).
Proof.
  revert st. induction l as [|it l IH]; intros st Hin Hends Hlen; simpl.
  - rewrite app_nil_r, Nat.add_0_r. split; [reflexivity|exact Hlen].
  - destruct (mutual_step st it) as (He' & Hl' & Hout); auto.
    { apply Hin. left. }
    destruct (IH (placeItem maxLanes st it)) as [IH1 IH2]; auto.
    { intros x Hx. apply Hin. right. exact Hx. }
    rewrite IH1, IH2, Hout, fmap_app, length_app. simpl.
    rewrite <- app_assoc. simpl.
    replace (length (out st) + 1)%nat with (S (length (out st))) by lia.
    split; [reflexivity|]. f_equal. lia.
Qed.

(** The k-th item in sort order gets lane [min(k, maxLanes - 1)], and
    [min(n, maxLanes)] lanes are open at the end. *)
Lemma mutual_assignLanes :
  lane <$> items (assignLanes its maxLanes)
  = (fun k => Z.min (Z.of_nat k) (maxLanes - 1)) <$> seq 0 (length its)
  /\ laneCount (assignLanes its maxLanes)
     = Z.max 1 (Z.min (Z.of_nat (length its)) maxLanes).
Proof.
  unfold assignLanes, runLanes. cbn [items laneCount].
  destruct (mutual_fold (sortItems its) {| laneEnds := []; out := [] |}) as [H1 H2].
  - intros x Hx. rewrite sortItems_Permutation in Hx. exact Hx.
  - constructor.
  - reflexivity.
  - cbn [out laneEnds length fmap list_fmap app] in H1, H2.
    rewrite (Permutation_length (sortItems_Permutation its)) in H1, H2.
    rewrite H1, H2. split; [reflexivity|]. simpl. lia.
Qed.
End MutualOverlap.

(** Case analysis on the membership [H : x ∈ [a; b; ...]] in a list that is
    written out. *)
Ltac each_elem H :=
  repeat (apply elem_of_cons in H as [->|H]);
  try (apply elem_of_nil in H; contradiction).

(** C2, as stated, fails on a row of five tasks of one resource in hour
    view.  [task_a], from 00:06 to 00:07, is drawn up to 00:11, where
    [task_b] starts; in binary64 the segment of [task_a] ends one unit in
    the last place after the segment of [task_b] starts.  With three tasks
    from 00:06 to 01:00 the five segments overlap one another.  The lane
    search lets the overlap of the first two pass: with [maxLanes = 2] the
    last segment in start order, that of [task_b], goes to lane 0 and not to
    lane 1. *)
Lemma assignLanes_five_rounded :
  length five_rounded = 5%nat
  /\ (forall a b, a ∈ five_rounded -> b ∈ five_rounded -> overlaps (seg a) (seg b))
  /\ laneCount (assignLanes five_rounded 2) = 2
  /\ (tid ∘ ptask) <$> items (assignLanes five_rounded 2) = ["a"; "c"; "d"; "e"; "b"]
  /\ lane <$> items (assignLanes five_rounded 2) = [0; 1; 1; 1; 0].
Proof.
  split; [vm_compute; reflexivity|].
  split; [|repeat split; vm_compute; reflexivity].
  assert (E : five_rounded = ltac:(let v := eval vm_compute in five_rounded in exact v))
    by (vm_compute; reflexivity).
  rewrite E. clear E.
  intros a b Ha Hb.
  each_elem Ha; each_elem Hb; vm_compute; reflexivity.
Qed.

(** C2, as the code has it.  For [maxLanes >= 1]: [laneCount] stays within
    the cap; the output is the input, every segment once, in ascending order
    of start and then end, each in one of the lanes counted; a segment that
    fits no lane while [maxLanes] lanes are open goes to lane
    [maxLanes - 1], whose end becomes the maximum of its end and the
    segment's; and five segments each of which ends after the start of each
    plus the tolerance, as the lane search computes that sum, get the lanes
    0, 1, 1, 1, 1 with [maxLanes = 2], and [laneCount] is 2. *)
Theorem assignLanes_cap (its : list Item) (maxLanes : Z) :
  1 <= maxLanes ->
  1 <= laneCount (assignLanes its maxLanes) <= maxLanes
  /\ unplace <$> items (assignLanes its maxLanes) ≡ₚ its
  /\ sortedBy lexLe (unplace <$> items (assignLanes its maxLanes))
  /\ unplace <$> items (assignLanes its maxLanes) = sortItems its
  /\ (forall p, p ∈ items (assignLanes its maxLanes) ->
        0 <= lane p < laneCount (assignLanes its maxLanes))
  /\ (forall st it,
        Z.of_nat (length (laneEnds st)) = maxLanes ->
        Forall (fun e => (fl (startUnit (seg it) + fl (1 # 1000000000)) < e)%Q) (laneEnds st) ->
        exists old,
          laneEnds st !! Z.to_nat (maxLanes - 1) = Some old
          /\ placeItem maxLanes st it =
             {| laneEnds :=
                  <[Z.to_nat (maxLanes - 1) := Math_max old (endUnit (seg it))]> (laneEnds st);
                out := out st ++ [{| ptask := task it; pseg := seg it; lane := maxLanes - 1 |}] |})
  /\ (maxLanes = 2 -> length its = 5%nat ->
      (forall a b, a ∈ its -> b ∈ its ->
                   (fl (startUnit (seg a) + fl (1 # 1000000000)) < endUnit (seg b))%Q) ->
      laneCount (assignLanes its maxLanes) = 2
      /\ lane <$> items (assignLanes its maxLanes) = [0; 1; 1; 1; 1]).
Proof.
  intros Hm.
  split; [apply assignLanes_laneCount; exact Hm|].
  split; [rewrite assignLanes_items; apply sortItems_Permutation|].
  split; [rewrite assignLanes_items; apply sortItems_lexLe|].
  split; [apply assignLanes_items|].
  split; [intros p; apply assignLanes_lane_range; exact Hm|].
  split; [intros st it; apply placeItem_forced; exact Hm|].
  intros H2 H5 Hmut.
  destruct (mutual_assignLanes its maxLanes Hm Hmut) as [-> ->].
  rewrite H5. subst maxLanes. split; reflexivity.
Qed.

(** The five segments of [five_wide] with two lanes. *)
Lemma assignLanes_cap_witness :
  laneCount (assignLanes five_wide 2) = 2
  /\ lane <$> items (assignLanes five_wide 2) = [0; 1; 1; 1; 1].
Proof.
  apply (assignLanes_cap five_wide 2); [lia|reflexivity|reflexivity|].
  intros a b Ha Hb. unfold five_wide in *.
  each_elem Ha; each_elem Hb; vm_compute; reflexivity.
Defined.

(** *** Overlap *)

Lemma covers_spec (t : Q) (sg : Seg) :
  covers t sg = true <-> (startUnit sg <= t /\ t < endUnit sg)%Q.
Proof.
  unfold covers. rewrite andb_true_iff, negb_true_iff, Qle_bool_iff.
  split; intros [H1 H2]; (split; [exact H1|]).
  - destruct (Qlt_le_dec t (endUnit sg)) as [|Hle]; [assumption|].
    apply Qle_bool_iff in Hle. congruence.
  - destruct (Qle_bool (endUnit sg) t) eqn:E; [|reflexivity].
    apply Qle_bool_iff in E. lra.
Qed.

(** Two segments overlap exactly when some instant lies in both. *)
Lemma overlaps_spec (a b : Seg) :
  overlaps a b <-> exists t, covers t a = true /\ covers t b = true.
Proof.
  unfold overlaps. split.
  - intros H. exists (Math_max (startUnit a) (startUnit b)).
    rewrite !covers_spec.
    pose proof (Math_max_l (startUnit a) (startUnit b)).
    pose proof (Math_max_r (startUnit a) (startUnit b)).
    destruct (Math_min_cases (endUnit a) (endUnit b)) as [[? E]|[? E]];
      rewrite E in H; repeat split; lra.
  - intros (t & Ha & Hb). rewrite covers_spec in Ha, Hb.
    destruct (Math_max_cases (startUnit a) (startUnit b)) as [[? ->]|[? ->]];
      destruct (Math_min_cases (endUnit a) (endUnit b)) as [[? ->]|[? ->]]; lra.
Qed.

(** *** Counting the segments at an instant *)

Lemma overlapAt_app (l1 l2 : list Item) (t : Q) :
  overlapAt (l1 ++ l2) t = (overlapAt l1 t + overlapAt l2 t)%nat.
Proof. unfold overlapAt. rewrite List.filter_app, length_app. reflexivity. Qed.

Lemma overlapAt_Permutation (l1 l2 : list Item) (t : Q) :
  l1 ≡ₚ l2 -> overlapAt l1 t = overlapAt l2 t.
Proof.
  unfold overlapAt. induction 1 as [|x l l' _ IH|x y l|l l' l'' _ IH1 _ IH2]; simpl.
  - reflexivity.
  - destruct (covers t (seg x)); simpl; lia.
  - destruct (covers t (seg x)), (covers t (seg y)); reflexivity.
  - congruence.
Qed.

Lemma overlapAt_le_length (l : list Item) (t : Q) : (overlapAt l t <= length l)%nat.
Proof.
  unfold overlapAt. induction l as [|x l IH]; simpl; [lia|].
  destruct (covers t (seg x)); simpl; lia.
Qed.

(** If each of the lanes 0 .. n-1 holds a placed segment that covers [t],
    at least [n] of the placed segments cover [t]. *)
Lemma overlapAt_lanes (placed : list Placed) (t : Q) (n : nat) :
  (forall k, (k < n)%nat ->
     exists p, p ∈ placed /\ lane p = Z.of_nat k /\ covers t (pseg p) = true) ->
  (n <= overlapAt (unplace <$> placed) t)%nat.
Proof.
  intros H.
  set (F := List.filter (fun p => covers t (pseg p)) placed).
  assert (HF : overlapAt (unplace <$> placed) t = length (lane <$> F)).
  { unfold overlapAt, F. rewrite length_fmap. clear H.
    induction placed as [|p l IH]; [reflexivity|].
    cbn [fmap list_fmap List.filter unplace seg].
    destruct (covers t (pseg p)); cbn [length]; rewrite <- IH; reflexivity. }
  rewrite HF.
  replace n with (length (Z.of_nat <$> seq 0 n)) at 1 by (rewrite length_fmap, length_seq; reflexivity).
  apply submseteq_length, NoDup_submseteq.
  - apply NoDup_fmap; [intros a b; lia|apply NoDup_seq].
  - intros z Hz. apply list_elem_of_fmap in Hz as (k & -> & Hk).
    apply elem_of_seq in Hk.
    destruct (H k) as (p & Hp & Hlane & Hc); [lia|].
    apply list_elem_of_fmap. exists p. split; [auto|].
    unfold F. apply list_elem_of_In, List.filter_In. split; [|exact Hc].
    apply list_elem_of_In. exact Hp.
Qed.

(** *** Within the tolerance *)

Lemma tolerant_sym (p q : Seg) : tolerant p q -> tolerant q p.
Proof.
  unfold tolerant. intros H.
  assert (Hm : (Math_max (startUnit p) (startUnit q) <= Math_max (startUnit q) (startUnit p))%Q).
  { destruct (Math_max_cases (startUnit p) (startUnit q)) as [[? ->]|[? ->]];
      destruct (Math_max_cases (startUnit q) (startUnit p)) as [[? ->]|[? ->]]; lra. }
  apply plus_eps_mono in Hm.
  destruct (Math_min_cases (endUnit p) (endUnit q)) as [[? E]|[? E]]; rewrite E in H;
    destruct (Math_min_cases (endUnit q) (endUnit p)) as [[? ->]|[? ->]]; lra.
Qed.

Lemma tolerant_end_le (p q : Seg) :
  (endUnit p <= fl (startUnit q + eps))%Q -> tolerant p q.
Proof.
  unfold tolerant. intros H.
  pose proof (plus_eps_mono _ _ (Math_max_r (startUnit p) (startUnit q))).
  destruct (Math_min_cases (endUnit p) (endUnit q)) as [[? ->]|[? ->]]; lra.
Qed.

Lemma tolerant_empty (p q : Seg) :
  isDouble (startUnit p) -> isDouble (startUnit q) ->
  (endUnit q <= startUnit q)%Q -> tolerant p q.
Proof.
  unfold tolerant. intros Hp Hq H.
  pose proof (Math_max_r (startUnit p) (startUnit q)).
  assert (Hm : (Math_max (startUnit p) (startUnit q)
                <= fl (Math_max (startUnit p) (startUnit q) + eps))%Q).
  { apply double_le_plus_eps.
    destruct (Math_max_cases (startUnit p) (startUnit q)) as [[_ ->]|[_ ->]]; assumption. }
  destruct (Math_min_cases (endUnit p) (endUnit q)) as [[? ->]|[? ->]]; lra.
Qed.

(** *** The invariant of the placement loop *)
Section LaneInvariant.
Variable maxLanes : Z.

Lemma laneInv_init (S : Q) : laneInv S {| laneEnds := []; out := [] |}.
Proof.
  repeat split; cbn [out laneEnds] in *; intros *;
    try (intros H; apply elem_of_nil in H; contradiction);
    try (rewrite lookup_nil; discriminate);
    try (apply elem_of_nil in H; contradiction).
Qed.

(** Appending one placed segment [new] and replacing the lane ends by
    [ends'] keeps the invariant under these conditions on [ends'] and
    [new]. *)
Lemma laneInv_extend (S s' : Q) (st : LaneState) (ends' : list Q) (new : Placed) :
  laneInv S st ->
  (S <= s')%Q ->
  (startUnit (pseg new) <= s')%Q ->
  isDouble (startUnit (pseg new)) ->
  (length (laneEnds st) <= length ends')%nat ->
  lane new < Z.of_nat (length ends') ->
  (forall k e, ends' !! k = Some e ->
     laneEnds st !! k = Some e \/ (lane new = Z.of_nat k /\ endUnit (pseg new) = e)) ->
  (forall k e e', laneEnds st !! k = Some e -> ends' !! k = Some e' ->
     (e <= e' \/ e <= fl (s' + eps))%Q) ->
  (forall k e', lane new = Z.of_nat k -> ends' !! k = Some e' ->
     (endUnit (pseg new) <= e')%Q) ->
  (forall p, p ∈ out st -> lane p = lane new -> tolerant (pseg p) (pseg new)) ->
  laneInv s' {| laneEnds := ends'; out := out st ++ [new] |}.
Proof.
  intros (I2 & I3 & J & I4 & I5) HS Hs Hdbl Hlen Ha Hb Hc Hd He.
  pose proof (plus_eps_mono S s' HS) as Hmono.
  unfold laneInv. cbn [laneEnds out]. split; [|split; [|split; [|split]]].
  - intros p Hp. apply elem_of_app in Hp as [Hp|Hp].
    + specialize (I2 p Hp). lia.
    + apply list_elem_of_singleton in Hp as ->. exact Ha.
  - intros k e Hk. destruct (Hb k e Hk) as [Hold|[? ?]].
    + destruct (I3 k e Hold) as (p & Hp & ? & ?).
      exists p. split; [apply elem_of_app; left; exact Hp|auto].
    + exists new. split; [apply elem_of_app; right; apply list_elem_of_singleton; reflexivity|auto].
  - intros p k e' Hp Hlane Hk. apply elem_of_app in Hp as [Hp|Hp].
    + destruct (lookup_lt_is_Some_2 (laneEnds st) k) as [e Hold].
      { specialize (I2 p Hp). lia. }
      destruct (J p k e Hp Hlane Hold), (Hc k e e' Hold Hk); [left|right|right|right]; lra.
    + apply list_elem_of_singleton in Hp as ->. left. eapply Hd; eauto.
  - intros p Hp. apply elem_of_app in Hp as [Hp|Hp].
    + destruct (I4 p Hp) as [? ?]. split; [lra|assumption].
    + apply list_elem_of_singleton in Hp as ->. split; assumption.
  - intros i j p q Hij Hi Hj Hlane.
    destruct (decide (j < length (out st))%nat) as [Hjl|Hjl].
    + rewrite lookup_app_l in Hi by lia. rewrite lookup_app_l in Hj by lia.
      apply (I5 i j p q); auto.
    + rewrite lookup_app_r in Hj by lia.
      destruct (j - length (out st))%nat as [|n] eqn:E; [|destruct n; discriminate].
      injection Hj as <-.
      rewrite lookup_app_l in Hi by lia.
      apply He; [|exact Hlane]. eapply list_elem_of_lookup_2; eauto.
Qed.

(** One round keeps the invariant, provided a segment of positive length
    meets fewer than [maxLanes] of the segments placed before it. *)
Lemma laneInv_placeItem (S : Q) (st : LaneState) (it : Item) :
  laneInv S st ->
  (S <= startUnit (seg it))%Q ->
  isDouble (startUnit (seg it)) ->
  ((startUnit (seg it) < endUnit (seg it))%Q ->
   Z.of_nat (overlapAt (unplace <$> out st) (startUnit (seg it))) < maxLanes) ->
  laneInv (startUnit (seg it)) (placeItem maxLanes st it).
Proof.
  intros Hinv HS Hdbl Hfew.
  pose proof Hinv as (I2 & I3 & J & I4 & I5).
  pose proof (plus_eps_mono S _ HS) as Hmono.
  pose proof (double_le_plus_eps _ Hdbl) as Hinfl.
  unfold placeItem.
  destruct (findIndex _ _) as [k|] eqn:Hfind.
  - (* a lane fits *)
    apply findIndex_Some in Hfind as [(ek & Hk & Hfit) _]. apply Qle_bool_iff in Hfit.
    pose proof (lookup_lt_Some _ _ _ Hk) as Hklt.
    apply (laneInv_extend S); cbn [lane pseg]; auto; try lra.
    + rewrite length_insert. lia.
    + rewrite length_insert. lia.
    + intros k' e. rewrite list_lookup_insert.
      destruct (decide (k = k' /\ (k < length (laneEnds st))%nat)) as [[<- _]|_];
        [intros [= <-]; right; auto|auto].
    + intros k' e e' He. rewrite list_lookup_insert.
      destruct (decide (k = k' /\ (k < length (laneEnds st))%nat)) as [[<- _]|_].
      * intros _. right. congruence.
      * intros He'. left. rewrite He in He'. injection He' as <-. lra.
    + intros k' e' Hkk. apply Nat2Z.inj in Hkk as <-.
      rewrite list_lookup_insert_eq by lia. intros [= <-]. lra.
    + intros p Hp Hlane. apply tolerant_end_le.
      destruct (J p k ek Hp Hlane Hk); lra.
  - destruct (Z.ltb_spec (Z.of_nat (length (laneEnds st))) maxLanes) as [Hlt|Hge].
    + (* a new lane is opened *)
      apply (laneInv_extend S); cbn [lane pseg]; auto; try lra.
      * rewrite length_app. simpl. lia.
      * rewrite length_app. simpl. lia.
      * intros k' e Hk'.
        destruct (decide (k' < length (laneEnds st))%nat) as [Hin|Hout].
        -- rewrite lookup_app_l in Hk' by lia. auto.
        -- rewrite lookup_app_r in Hk' by lia.
           destruct (k' - length (laneEnds st))%nat as [|n] eqn:E; [|destruct n; discriminate].
           injection Hk' as <-. right. split; [f_equal; lia|reflexivity].
      * intros k' e e' He He'.
        rewrite lookup_app_l in He' by (eapply lookup_lt_Some; eauto).
        left. rewrite He in He'. injection He' as <-. lra.
      * intros k' e' Hkk. apply Nat2Z.inj in Hkk as <-.
        rewrite lookup_app_r by lia. rewrite Nat.sub_diag. intros [= <-]. lra.
      * intros p Hp Hlane. specialize (I2 p Hp). lia.
    + (* the cap is reached *)
      destruct (Qlt_le_dec (startUnit (seg it)) (endUnit (seg it))) as [Hpos|Hempty].
      * exfalso. specialize (Hfew Hpos).
        pose proof (overlapAt_lanes (out st) (startUnit (seg it)) (length (laneEnds st))) as Hn.
        apply findIndex_no_fit in Hfind. rewrite Forall_forall in Hfind.
        enough (length (laneEnds st) <= overlapAt (unplace <$> out st) (startUnit (seg it)))%nat by lia.
        apply Hn. intros k Hk.
        destruct (lookup_lt_is_Some_2 (laneEnds st) k Hk) as [e He].
        destruct (I3 k e He) as (p & Hp & Hlane & Hend).
        exists p. repeat split; auto.
        specialize (Hfind e (list_elem_of_lookup_2 _ _ _ He)). cbn beta in Hfind.
        apply covers_spec. rewrite Hend. destruct (I4 p Hp) as [? _]. split; lra.
      * apply (laneInv_extend S); cbn [lane pseg]; auto; try lra.
        -- rewrite arrayUpdate_length. lia.
        -- rewrite arrayUpdate_length. lia.
        -- intros k' e. unfold arrayUpdate.
           destruct (Z.ltb_spec (maxLanes - 1) 0); [auto|].
           rewrite list_lookup_alter.
           destruct (decide (Z.to_nat (maxLanes - 1) = k')) as [<-|_]; [|auto].
           destruct (laneEnds st !! Z.to_nat (maxLanes - 1)) as [old|]; [|discriminate].
           simpl. intros [= <-].
           destruct (Math_max_cases old (endUnit (seg it))) as [[_ ->]|[_ ->]].
           ++ right. split; [lia|reflexivity].
           ++ left. reflexivity.
        -- intros k' e e' He. unfold arrayUpdate.
           destruct (Z.ltb_spec (maxLanes - 1) 0).
           ++ intros He'. left. rewrite He in He'. injection He' as <-. lra.
           ++ rewrite list_lookup_alter.
              destruct (decide (Z.to_nat (maxLanes - 1) = k')) as [<-|_].
              ** rewrite He. simpl. intros [= <-]. left. apply Math_max_l.
              ** intros He'. left. rewrite He in He'. injection He' as <-. lra.
        -- intros k' e' Hkk. unfold arrayUpdate.
           destruct (Z.ltb_spec (maxLanes - 1) 0); [lia|].
           rewrite list_lookup_alter.
           destruct (decide (Z.to_nat (maxLanes - 1) = k')) as [<-|Hne]; [|lia].
           destruct (laneEnds st !! Z.to_nat (maxLanes - 1)) as [old|]; [|discriminate].
           simpl. intros [= <-]. apply Math_max_r.
        -- intros p Hp _. destruct (I4 p Hp) as [_ ?].
           apply tolerant_empty; assumption.
Qed.
End LaneInvariant.

(** The whole loop keeps the invariant on a list sorted by start in which
    no instant is covered by more than [maxLanes] segments. *)
Lemma laneInv_fold (maxLanes : Z) (l : list Item) :
  forall (st : LaneState) (S : Q),
    laneInv S st ->
    sortedBy startLe l ->
    Forall (fun x => (S <= startUnit (seg x))%Q /\ isDouble (startUnit (seg x))) l ->
    (forall t, Z.of_nat (overlapAt ((unplace <$> out st) ++ l) t) <= maxLanes) ->
    exists S', laneInv S' (foldl (placeItem maxLanes) st l).
Proof.
  induction l as [|it l IH]; intros st S Hinv Hsorted Hfrom Hcount; simpl.
  - exists S. exact Hinv.
  - destruct Hsorted as [Hit Hsorted]. inversion Hfrom as [|? ? [HS Hdbl] Hrest]; subst.
    apply (IH _ (startUnit (seg it))).
    + apply (laneInv_placeItem maxLanes S); auto.
      intros Hpos. specialize (Hcount (startUnit (seg it))).
      rewrite overlapAt_app in Hcount.
      assert (1 <= overlapAt (it :: l) (startUnit (seg it)))%nat.
      { unfold overlapAt. cbn [List.filter].
        replace (covers (startUnit (seg it)) (seg it)) with true; [simpl; lia|].
        symmetry. apply covers_spec. split; lra. }
      lia.
    + exact Hsorted.
    + rewrite Forall_forall in Hit, Hrest. apply Forall_forall. intros x Hx.
      split; [apply (Hit x Hx)|apply (Hrest x Hx)].
    + intros t. rewrite placeItem_out, <- app_assoc. apply Hcount.
Qed.

(** C3, as stated, fails on a row of two tasks of one resource in hour
    view.  [task_a], from 00:06 to 00:07, is drawn up to 00:11, where
    [task_b] starts; in binary64 its segment ends at 0.18333333333333335,
    after the start 0.18333333333333332 of the segment of [task_b].  Never
    more than two segments cover an instant, so [maxLanes = 2] is enough for
    them; the lane search lets the overlap pass, both segments are placed in
    lane 0, and they share the instants from the start of the second up to
    the end of the first. *)
Lemma assignLanes_two_rounded_share_lane :
  (forall t, Z.of_nat (overlapAt two_rounded t) <= 2)
  /\ exists p q,
       items (assignLanes two_rounded 2) !! 0%nat = Some p
       /\ items (assignLanes two_rounded 2) !! 1%nat = Some q
       /\ ptask p = task_a /\ ptask q = task_b
       /\ lane p = lane q
       /\ (startUnit (pseg q) < endUnit (pseg p))%Q
       /\ overlaps (pseg p) (pseg q).
Proof.
  split.
  - intros t. pose proof (overlapAt_le_length two_rounded t) as H.
    replace (length two_rounded) with 2%nat in H by (vm_compute; reflexivity). lia.
  - assert (E : items (assignLanes two_rounded 2)
                = ltac:(let v := eval vm_compute in (items (assignLanes two_rounded 2)) in
                        exact v)) by (vm_compute; reflexivity).
    rewrite E. clear E.
    do 2 eexists. split; [reflexivity|]. split; [reflexivity|].
    repeat split; vm_compute; reflexivity.
Qed.

(** With at most [maxLanes] segments at every instant, the invariant holds
    at the end of the loop over the sorted items. *)
Lemma runLanes_laneInv (its : list Item) (maxLanes : Z) :
  (forall t, Z.of_nat (overlapAt its t) <= maxLanes) ->
  (forall it, it ∈ its -> isDouble (startUnit (seg it))) ->
  exists S, laneInv S (runLanes maxLanes (sortItems its)).
Proof.
  intros Hcount Hdbl.
  pose proof (sortItems_sorted its) as Hsorted.
  assert (Hc : forall t, Z.of_nat (overlapAt (sortItems its) t) <= maxLanes).
  { intros t. rewrite (overlapAt_Permutation _ _ t (sortItems_Permutation its)). apply Hcount. }
  assert (Hd : forall x, x ∈ sortItems its -> isDouble (startUnit (seg x))).
  { intros x Hx. apply Hdbl. rewrite <- (sortItems_Permutation its). exact Hx. }
  unfold runLanes. destruct (sortItems its) as [|x l] eqn:E.
  - exists 0%Q. apply laneInv_init.
  - apply (laneInv_fold maxLanes (x :: l) _ (startUnit (seg x))).
    + apply laneInv_init.
    + exact Hsorted.
    + destruct Hsorted as [Hx _]. rewrite Forall_forall in Hx.
      apply Forall_forall. intros y Hy. split; [|apply Hd; exact Hy].
      apply elem_of_cons in Hy as [->|Hy]; [lra|apply (Hx y Hy)].
    + exact Hc.
Qed.

(** Under the invariant, two segments placed in one lane are within the
    tolerance, whichever was placed first. *)
Lemma laneInv_tolerant (S : Q) (st : LaneState) (i j : nat) (p q : Placed) :
  laneInv S st ->
  i <> j -> out st !! i = Some p -> out st !! j = Some q -> lane p = lane q ->
  tolerant (pseg p) (pseg q).
Proof.
  intros (_ & _ & _ & _ & I5) Hij Hi Hj Hlane.
  destruct (Nat.lt_total i j) as [Hlt|[Heq|Hgt]]; [|contradiction|].
  - apply (I5 i j p q); auto.
  - apply tolerant_sym. apply (I5 j i q p); auto.
Qed.

(** Every placed segment is one of the input. *)
Lemma assignLanes_placed_input (its : list Item) (maxLanes : Z) (n : nat) (p : Placed) :
  items (assignLanes its maxLanes) !! n = Some p -> unplace p ∈ its.
Proof.
  intros Hn.
  rewrite <- (sortItems_Permutation its), <- (assignLanes_items its maxLanes).
  apply list_elem_of_fmap. exists p. split; [reflexivity|].
  eapply list_elem_of_lookup_2. exact Hn.
Qed.

(** What the tolerance amounts to: the sum of a start and [1e-9] is
    rounded, so the bound is the exact sum up to one rounding error. *)
Lemma tolerant_bound (p q : Seg) :
  tolerant p q ->
  (Math_min (endUnit p) (endUnit q) - Math_max (startUnit p) (startUnit q)
   <= eps + (1 # 9007199254740992) * Qabs (Math_max (startUnit p) (startUnit q) + eps)
      + 2 ^ (-1075))%Q.
Proof.
  unfold tolerant. intros H.
  pose proof (fl_err_any (Math_max (startUnit p) (startUnit q) + eps)) as He.
  apply Qabs_Qle_condition in He. lra.
Qed.

(** Two segments within the tolerance do not overlap when, between them, an
    end that passes the lane search at a start lies at or before that
    start. *)
Lemma tolerant_separated (p q : Seg) :
  tolerant p q ->
  (forall a b, a = p \/ a = q -> b = p \/ b = q ->
     (endUnit a <= fl (startUnit b + eps))%Q -> (endUnit a <= startUnit b)%Q) ->
  ~ overlaps p q.
Proof.
  unfold tolerant, overlaps, Math_max, Math_min. intros Htol Hsep.
  destruct (Qlt_le_dec (startUnit p) (startUnit q)), (Qlt_le_dec (endUnit q) (endUnit p));
    match type of Htol with
    | (endUnit ?a <= fl (startUnit ?b + eps))%Q =>
        pose proof (Hsep a b ltac:(auto) ltac:(auto) Htol)
    end; lra.
Qed.

(** C3, as the code has it.  When no instant is covered by more than
    [maxLanes] of the segments, and the segments start at binary64 numbers,
    two segments placed in the same lane share no more than the lane search
    lets pass: the earlier of their ends is at most the later of their
    starts plus [1e-9], the sum rounded to binary64 - which exceeds the exact
    sum by one rounding error at most.  The lanes are those from 0 to
    [maxLanes - 1].  And when no end of a segment lies after the start of a
    segment by as little as the lane search lets pass, two segments placed
    in the same lane do not overlap. *)
Theorem assignLanes_disjoint_up_to_eps (its : list Item) (maxLanes : Z) :
  (forall t, Z.of_nat (overlapAt its t) <= maxLanes) ->
  (forall it, it ∈ its -> isDouble (startUnit (seg it))) ->
  forall i j p q,
    i <> j ->
    items (assignLanes its maxLanes) !! i = Some p ->
    items (assignLanes its maxLanes) !! j = Some q ->
    lane p = lane q ->
    (Math_min (endUnit (pseg p)) (endUnit (pseg q))
     <= fl (Math_max (startUnit (pseg p)) (startUnit (pseg q)) + fl (1 # 1000000000)))%Q
    /\ (Math_min (endUnit (pseg p)) (endUnit (pseg q))
        - Math_max (startUnit (pseg p)) (startUnit (pseg q))
        <= fl (1 # 1000000000)
           + (1 # 9007199254740992)
             * Qabs (Math_max (startUnit (pseg p)) (startUnit (pseg q)) + fl (1 # 1000000000))
           + 2 ^ (-1075))%Q
    /\ (1 <= maxLanes -> 0 <= lane p < maxLanes)
    /\ ((forall a b, a ∈ its -> b ∈ its ->
           (endUnit (seg a) <= fl (startUnit (seg b) + fl (1 # 1000000000)))%Q ->
           (endUnit (seg a) <= startUnit (seg b))%Q) ->
        ~ (Math_max (startUnit (pseg p)) (startUnit (pseg q))
           < Math_min (endUnit (pseg p)) (endUnit (pseg q)))%Q).
Proof.
  intros Hcount Hdbl i j p q Hij Hi Hj Hlane.
  assert (Htol : tolerant (pseg p) (pseg q)).
  { destruct (runLanes_laneInv its maxLanes Hcount Hdbl) as [S Hinv].
    unfold assignLanes in Hi, Hj. cbn [items] in Hi, Hj.
    exact (laneInv_tolerant S _ i j p q Hinv Hij Hi Hj Hlane). }
  split; [exact Htol|]. split; [apply tolerant_bound; exact Htol|].
  split.
  - intros Hm.
    pose proof (assignLanes_lane_range its maxLanes p Hm (list_elem_of_lookup_2 _ _ _ Hi)).
    pose proof (assignLanes_laneCount its maxLanes Hm). lia.
  - intros Hsep.
    pose proof (assignLanes_placed_input its maxLanes i p Hi) as Hp.
    pose proof (assignLanes_placed_input its maxLanes j q Hj) as Hq.
    apply (tolerant_separated _ _ Htol).
    intros a b [->| ->] [->| ->].
    + apply (Hsep (unplace p) (unplace p) Hp Hp).
    + apply (Hsep (unplace p) (unplace q) Hp Hq).
    + apply (Hsep (unplace q) (unplace p) Hq Hp).
    + apply (Hsep (unplace q) (unplace q) Hq Hq).
Qed.

(** Two touching segments with two lanes allowed: one lane. *)
Lemma assignLanes_disjoint_up_to_eps_witness :
  (Math_min (endUnit (seg (mkItem 0 1))) (endUnit (seg (mkItem 1 2)))
   <= fl (Math_max (startUnit (seg (mkItem 0 1))) (startUnit (seg (mkItem 1 2))) + fl (1 # 1000000000)))%Q.
Proof.
  destruct (assignLanes_disjoint_up_to_eps two_touching 2) with
    (i := 0%nat) (j := 1%nat)
    (p := {| ptask := task (mkItem 0 1); pseg := seg (mkItem 0 1); lane := 0 |})
    (q := {| ptask := task (mkItem 1 2); pseg := seg (mkItem 1 2); lane := 0 |})
    as [Htol _].
  - intros t. pose proof (overlapAt_le_length two_touching t). simpl in H. lia.
  - intros it Hit. unfold two_touching in Hit. each_elem Hit; vm_compute; reflexivity.
  - lia.
  - vm_compute. reflexivity.
  - vm_compute. reflexivity.
  - reflexivity.
  - exact Htol.
Defined.

(** ** Snapping *)

Lemma Math_round_unique (x : Q) (z : Z) :
  (inject_Z z <= x + (1 # 2))%Q -> (x + (1 # 2) < inject_Z z + 1)%Q -> Math_round x = z.
Proof.
  unfold Math_round. intros Hle Hlt.
  pose proof (Qfloor_le (x + (1 # 2))) as Hf1.
  pose proof (Qlt_floor (x + (1 # 2))) as Hf2.
  rewrite inject_Z_plus in Hf2. change (inject_Z 1) with 1%Q in Hf2.
  assert (H1 : (inject_Z z < inject_Z (Qfloor (x + (1 # 2)) + 1))%Q).
  { rewrite inject_Z_plus. change (inject_Z 1) with 1%Q. lra. }
  assert (H2 : (inject_Z (Qfloor (x + (1 # 2))) < inject_Z (z + 1))%Q).
  { rewrite inject_Z_plus. change (inject_Z 1) with 1%Q. lra. }
  rewrite <- Zlt_Qlt in H1, H2. lia.
Qed.

Lemma Math_round_bounds (x : Q) :
  (inject_Z (Math_round x) <= x + (1 # 2))%Q /\ (x + (1 # 2) < inject_Z (Math_round x) + 1)%Q.
Proof.
  unfold Math_round. split; [apply Qfloor_le|].
  pose proof (Qlt_floor (x + (1 # 2))) as H.
  rewrite inject_Z_plus in H. exact H.
Qed.

Lemma Math_round_comp (x y : Q) : (x == y)%Q -> Math_round x = Math_round y.
Proof. intros H. unfold Math_round. apply Qfloor_comp. rewrite H. reflexivity. Qed.

Lemma Math_round_Z (z : Z) : Math_round (inject_Z z) = z.
Proof.
  apply Math_round_unique; lra.
Qed.

(** *** In exact arithmetic

    Computed without rounding, snapping a snapped pixel position changes
    nothing, whatever the scale and the snap unit. *)

(** A grid finer than a pixel: every whole pixel is a fixed point. *)
Lemma exact_fine (c : Q) (r : Z) :
  (0 < c)%Q -> (c < 1)%Q ->
  Math_round (inject_Z (Math_round (inject_Z r / c)) * c) = r.
Proof.
  intros Hc0 Hc1.
  destruct (Math_round_bounds (inject_Z r / c)) as [Hlo Hhi].
  set (k := inject_Z (Math_round (inject_Z r / c))) in *.
  assert (Hdiv : (inject_Z r / c * c == inject_Z r)%Q) by (field; lra).
  assert (H1 : (k * c <= (inject_Z r / c + (1 # 2)) * c)%Q)
    by (apply Qmult_le_compat_r; lra).
  assert (H2 : ((inject_Z r / c + (1 # 2)) * c < (k + 1) * c)%Q)
    by (apply Qmult_lt_compat_r; lra).
  apply Math_round_unique; lra.
Qed.

(** A grid of a pixel or coarser: rounding the pixel of a grid point back to
    the grid gives the same grid point. *)
Lemma exact_coarse (c : Q) (k : Z) :
  (1 <= c)%Q ->
  Math_round (inject_Z (Math_round (inject_Z k * c)) / c) = k.
Proof.
  intros Hc.
  destruct (Math_round_bounds (inject_Z k * c)) as [Hlo Hhi].
  set (r := Math_round (inject_Z k * c)) in *.
  assert (Hlt : (inject_Z r < (inject_Z k + (1 # 2)) * c)%Q).
  { destruct (Qlt_le_dec 1 c) as [Hgt|Hle].
    - lra.
    - assert (Hc1 : (c == 1)%Q) by lra.
      assert (Hrk : (inject_Z r < inject_Z (k + 1))%Q).
      { rewrite inject_Z_plus. change (inject_Z 1) with 1%Q. rewrite Hc1 in Hlo. lra. }
      rewrite <- Zlt_Qlt in Hrk.
      assert (Hrk' : (inject_Z r <= inject_Z k)%Q) by (rewrite <- Zle_Qle; lia).
      rewrite Hc1. lra. }
  assert (Hgt : ((inject_Z k - (1 # 2)) * c <= inject_Z r)%Q) by lra.
  apply Math_round_unique.
  - apply (Qmult_le_r _ _ c); [lra|].
    assert (E : ((inject_Z r / c + (1 # 2)) * c == inject_Z r + (1 # 2) * c)%Q) by (field; lra).
    rewrite E. lra.
  - apply (Qmult_lt_r _ _ c); [lra|].
    assert (E : ((inject_Z r / c + (1 # 2)) * c == inject_Z r + (1 # 2) * c)%Q) by (field; lra).
    rewrite E. lra.
Qed.

Lemma snapExact_idempotent (sc : Scale) (snapUnits px : Q) :
  (0 < snapUnits)%Q -> (0 < pxPerUnit sc)%Q ->
  snapExact (Some sc) snapUnits (inject_Z (snapExact (Some sc) snapUnits px))
  = snapExact (Some sc) snapUnits px.
Proof.
  intros Hs Hu. unfold snapExact.
  destruct (Qeq_bool snapUnits 0) eqn:E; [apply Qeq_bool_iff in E; lra|].
  set (u := pxPerUnit sc) in *.
  set (c := (snapUnits * u)%Q).
  assert (Hc : (0 < c)%Q) by (unfold c; nra).
  set (k := Math_round (px / u / snapUnits)).
  assert (Er : Math_round (inject_Z k * snapUnits * u) = Math_round (inject_Z k * c)).
  { apply Math_round_comp. unfold c. ring. }
  rewrite Er.
  set (r := Math_round (inject_Z k * c)).
  assert (Ek : Math_round (inject_Z r / u / snapUnits) = Math_round (inject_Z r / c)).
  { apply Math_round_comp. unfold c. field. lra. }
  rewrite Ek.
  assert (Er' : forall z, Math_round (inject_Z z * snapUnits * u) = Math_round (inject_Z z * c)).
  { intros z. apply Math_round_comp. unfold c. ring. }
  rewrite Er'.
  destruct (Qlt_le_dec c 1) as [Hfine|Hcoarse].
  - apply exact_fine; assumption.
  - unfold r at 1. rewrite exact_coarse by assumption. reflexivity.
Qed.

(** *** In binary64 arithmetic

    Each of the four operations of [snapPx] is rounded.  The grid index of a
    whole pixel and the pixel position of a grid index are off by two
    rounding errors each, which is too little to move the result of
    [Math.round] as long as the step of the grid is not close to one
    pixel - or is one pixel up to rounding. *)

Lemma normal_of_bound (x : Q) :
  (1 # 2417851639229258349412352 <= Qabs x)%Q -> (2 ^ (-1022) <= Qabs x)%Q.
Proof.
  intros H. eapply Qle_trans; [|exact H].
  eapply Qle_trans; [apply (pow2_le (-1022) (-81)); lia|].
  vm_compute. discriminate.
Qed.

(** Two operations in a row: the product of a rounded number, rounded. *)
Lemma fl_mul_err (x y : Q) :
  (x == 0 \/ (1 # 2417851639229258349412352 <= Qabs x
              /\ 2 # 2417851639229258349412352 <= Qabs (x * y)))%Q ->
  (Qabs (fl (fl x * y) - x * y) <= (3 # 9007199254740992) * Qabs (x * y))%Q.
Proof.
  intros [Hz|[Hx Hxy]].
  - rewrite (fl_zero x Hz).
    rewrite (fl_zero (0 * y)) by ring.
    assert (E : (0 - x * y == 0)%Q) by (rewrite Hz; ring).
    rewrite E. pose proof (Qabs_nonneg (x * y)). change (Qabs 0) with 0%Q. lra.
  - pose proof (fl_err x (or_intror (normal_of_bound x Hx))) as Ea.
    set (a := fl x) in *.
    pose proof (Qabs_triangle_reverse x (x - a)) as Hr.
    assert (E1 : (x - (x - a) == a)%Q) by ring. rewrite E1 in Hr.
    rewrite (Qabs_Qminus x a) in Hr.
    pose proof (Qabs_triangle (a - x) x) as Ht.
    assert (E2 : (a - x + x == a)%Q) by ring. rewrite E2 in Ht.
    rewrite Qabs_Qmult in Hxy.
    pose proof (Qabs_nonneg x) as Hx0. pose proof (Qabs_nonneg y) as Hy0.
    assert (Hay : (Qabs (a * y) == Qabs a * Qabs y)%Q) by apply Qabs_Qmult.
    assert (Hd : (Qabs (a * y - x * y) == Qabs (a - x) * Qabs y)%Q).
    { rewrite <- Qabs_Qmult. apply Qabs_wd. ring. }
    assert (Hlo : (Qabs x * (1 # 2) <= Qabs a)%Q) by lra.
    assert (Hlo' : (Qabs x * (1 # 2) * Qabs y <= Qabs a * Qabs y)%Q)
      by (apply Qmult_le_compat_r; assumption).
    assert (Hup : (Qabs a * Qabs y <= (Qabs x + (1 # 9007199254740992) * Qabs x) * Qabs y)%Q)
      by (apply Qmult_le_compat_r; [lra|assumption]).
    assert (Hdy : (Qabs (a - x) * Qabs y <= (1 # 9007199254740992) * Qabs x * Qabs y)%Q)
      by (apply Qmult_le_compat_r; [lra|assumption]).
    assert (Hn : (1 # 2417851639229258349412352 <= Qabs (a * y))%Q) by (rewrite Hay; lra).
    pose proof (fl_err (a * y) (or_intror (normal_of_bound _ Hn))) as Eb.
    pose proof (Qabs_triangle (fl (a * y) - a * y) (a * y - x * y)) as Ht2.
    assert (E3 : (fl (a * y) - a * y + (a * y - x * y) == fl (a * y) - x * y)%Q) by ring.
    rewrite E3 in Ht2.
    rewrite Qabs_Qmult.
    rewrite Hay in Eb. rewrite Hd in Ht2.
    set (X := Qabs x) in *. set (Y := Qabs y) in *. set (A := Qabs a) in *.
    set (XY := (X * Y)%Q) in *.
    assert (Hxy0 : (0 <= XY)%Q) by (unfold XY; nra).
    assert (E4 : ((X + (1 # 9007199254740992) * X) * Y
                  == XY + (1 # 9007199254740992) * XY)%Q) by (unfold XY; ring).
    assert (E5 : ((1 # 9007199254740992) * X * Y == (1 # 9007199254740992) * XY)%Q)
      by (unfold XY; ring).
    rewrite E4 in Hup. rewrite E5 in Hdy.
    lra.
Qed.

Lemma Qabs_inject_Z_ge_1 (z : Z) : z <> 0 -> (1 <= Qabs (inject_Z z))%Q.
Proof.
  intros Hz. destruct (Z.lt_ge_cases z 0) as [H|H].
  - rewrite Qabs_neg by (change 0%Q with (inject_Z 0); rewrite <- Zle_Qle; lia).
    rewrite <- inject_Z_opp. change 1%Q with (inject_Z 1). rewrite <- Zle_Qle. lia.
  - rewrite Qabs_pos by (change 0%Q with (inject_Z 0); rewrite <- Zle_Qle; lia).
    change 1%Q with (inject_Z 1). rewrite <- Zle_Qle. lia.
Qed.

Section SnapError.
Variables s u : Q.
Hypothesis Hs : (1 # 1099511627776 <= s)%Q /\ (s <= 1099511627776)%Q.
Hypothesis Hu : (1 # 1099511627776 <= u)%Q /\ (u <= 1099511627776)%Q.

Lemma step_pos : (0 < s * u)%Q.
Proof. nra. Qed.

Lemma step_bounds :
  (1 # 1208925819614629174706176 <= s * u)%Q /\ (s * u <= 1208925819614629174706176)%Q.
Proof. split; nra. Qed.

Lemma inv_step : (0 < / (s * u))%Q /\ (s * u * / (s * u) == 1)%Q
  /\ (1 # 1208925819614629174706176 <= / (s * u))%Q.
Proof.
  pose proof step_pos as Hc. pose proof step_bounds as [Hc1 Hc2].
  assert (H1 : (0 < / (s * u))%Q) by (apply Qinv_lt_0_compat; exact Hc).
  assert (H2 : (s * u * / (s * u) == 1)%Q) by (apply Qmult_inv_r; lra).
  repeat split; try assumption.
  set (c := (s * u)%Q) in *. set (ic := (/ c)%Q) in *. nra.
Qed.

(** The pixel position of a grid index is the index times the step, up to
    two rounding errors. *)
Lemma gridPixel_err (k : Z) :
  (Qabs (gridPixel s u k - inject_Z k * (s * u))
   <= (3 # 9007199254740992) * (Qabs (inject_Z k) * (s * u)))%Q.
Proof.
  unfold gridPixel.
  pose proof step_pos as Hc. pose proof step_bounds as [Hc1 Hc2].
  assert (E : (inject_Z k * s * u == inject_Z k * (s * u))%Q) by ring.
  assert (Ea : (Qabs (inject_Z k * s * u) == Qabs (inject_Z k) * (s * u))%Q).
  { rewrite E, Qabs_Qmult, (Qabs_pos (s * u)) by lra. reflexivity. }
  rewrite <- E, <- Ea.
  apply fl_mul_err.
  destruct (Z.eq_dec k 0) as [->|Hk]; [left; ring|right].
  pose proof (Qabs_inject_Z_ge_1 k Hk) as H1.
  split.
  - rewrite Qabs_Qmult, (Qabs_pos s) by lra. nra.
  - rewrite Ea. nra.
Qed.

(** The grid index of a whole pixel, before it is rounded, is the pixel
    divided by the step, up to two rounding errors. *)
Lemma gridIndex_err (r : Z) :
  (Qabs (fl (fl (inject_Z r / u) / s) - inject_Z r * / (s * u))
   <= (3 # 9007199254740992) * (Qabs (inject_Z r) * / (s * u)))%Q.
Proof.
  pose proof step_pos as Hc. pose proof inv_step as (Hi & Hci & Hil).
  assert (Hiu : (0 < / u)%Q) by (apply Qinv_lt_0_compat; lra).
  assert (His : (0 < / s)%Q) by (apply Qinv_lt_0_compat; lra).
  assert (Eu : (u * / u == 1)%Q) by (apply Qmult_inv_r; lra).
  assert (Es : (s * / s == 1)%Q) by (apply Qmult_inv_r; lra).
  assert (Hiu' : (1 # 1099511627776 <= / u)%Q) by nra.
  assert (E : (inject_Z r / u * / s == inject_Z r * / (s * u))%Q) by (field; lra).
  assert (Ea : (Qabs (inject_Z r / u * / s) == Qabs (inject_Z r) * / (s * u))%Q).
  { rewrite E, Qabs_Qmult, (Qabs_pos (/ (s * u))) by lra. reflexivity. }
  unfold Qdiv at 1.
  rewrite <- E, <- Ea.
  apply fl_mul_err.
  destruct (Z.eq_dec r 0) as [->|Hr]; [left; unfold Qdiv; ring|right].
  pose proof (Qabs_inject_Z_ge_1 r Hr) as H1.
  split.
  - unfold Qdiv. rewrite Qabs_Qmult, (Qabs_pos (/ u)) by lra. nra.
  - rewrite Ea. nra.
Qed.

End SnapError.

Lemma Math_round_near (m : Q) (k : Z) :
  (inject_Z k - (1 # 2) <= m)%Q -> (m < inject_Z k + (1 # 2))%Q -> Math_round m = k.
Proof. intros H1 H2. apply Math_round_unique; lra. Qed.

Lemma Qmult_le_l_weak (a b c : Q) : (0 <= a)%Q -> (b <= c)%Q -> (a * b <= a * c)%Q.
Proof. intros Ha Hbc. rewrite !(Qmult_comm a). apply Qmult_le_compat_r; assumption. Qed.

Section SnapRegimes.
Variables s u : Q.
Hypothesis Hs : (1 # 1099511627776 <= s)%Q /\ (s <= 1099511627776)%Q.
Hypothesis Hu : (1 # 1099511627776 <= u)%Q /\ (u <= 1099511627776)%Q.

(** A step of more than a pixel: the pixel of a grid point has that grid
    point as its index. *)
Lemma snap_coarse (k : Z) :
  (1 + (1 # 1048576) <= s * u)%Q ->
  (Qabs (inject_Z k) <= 134217728)%Q ->
  gridIndex s u (inject_Z (Math_round (gridPixel s u k))) = k.
Proof.
  intros Hc Hk.
  pose proof (inv_step s u Hs Hu) as (Hi & Hci & _).
  pose proof (gridPixel_err s u Hs Hu k) as F1.
  set (m := gridPixel s u k) in *.
  destruct (Math_round_bounds m) as [B1 B2].
  set (r := Math_round m) in *.
  pose proof (gridIndex_err s u Hs Hu r) as F3.
  unfold gridIndex. set (d := fl (fl (inject_Z r / u) / s)) in *.
  set (c := (s * u)%Q) in *. set (ic := (/ c)%Q) in *.
  set (kq := inject_Z k) in *. set (rq := inject_Z r) in *.
  pose proof (Qabs_nonneg kq) as Hak0.
  pose proof (Qle_Qabs kq) as Hk1.
  pose proof (Qle_Qabs (- kq)) as Hk2. rewrite Qabs_opp in Hk2.
  set (ak := Qabs kq) in *. set (ar := Qabs rq) in *.
  apply Qabs_Qle_condition in F1.
  (* products with the step *)
  assert (P1 : (kq * c <= ak * c)%Q) by (apply Qmult_le_compat_r; lra).
  assert (P2 : (- (ak * c) <= kq * c)%Q).
  { assert (H : ((- kq) * c <= ak * c)%Q) by (apply Qmult_le_compat_r; lra). lra. }
  set (P := (ak * c)%Q) in *. set (Kc := (kq * c)%Q) in *.
  assert (G1 : (rq - Kc <= (1 # 2) + (3 # 9007199254740992) * P)%Q) by lra.
  assert (G2 : (- ((1 # 2) + (3 # 9007199254740992) * P) < rq - Kc)%Q) by lra.
  assert (Har : (ar <= P + (1 # 2) + (3 # 9007199254740992) * P)%Q).
  { unfold ar. apply Qabs_Qle_condition. split; lra. }
  (* divided by the step *)
  assert (E1 : ((rq - Kc) * ic == rq * ic - kq)%Q).
  { unfold Kc. transitivity (rq * ic - kq * (c * ic))%Q; [ring|]. rewrite Hci. ring. }
  assert (E2 : (P * ic == ak)%Q).
  { unfold P. transitivity (ak * (c * ic))%Q; [ring|]. rewrite Hci. ring. }
  assert (Q1 : ((rq - Kc) * ic <= ((1 # 2) + (3 # 9007199254740992) * P) * ic)%Q)
    by (apply Qmult_le_compat_r; lra).
  assert (Q2 : (- ((1 # 2) + (3 # 9007199254740992) * P) * ic < (rq - Kc) * ic)%Q)
    by (apply Qmult_lt_compat_r; lra).
  assert (Q3 : (ar * ic <= (P + (1 # 2) + (3 # 9007199254740992) * P) * ic)%Q)
    by (apply Qmult_le_compat_r; lra).
  assert (E3 : (((1 # 2) + (3 # 9007199254740992) * P) * ic
                == (1 # 2) * ic + (3 # 9007199254740992) * ak)%Q).
  { rewrite <- E2. ring. }
  assert (E4 : ((P + (1 # 2) + (3 # 9007199254740992) * P) * ic
                == ak + (1 # 2) * ic + (3 # 9007199254740992) * ak)%Q).
  { rewrite <- E2. ring. }
  assert (E5 : (- ((1 # 2) + (3 # 9007199254740992) * P) * ic
                == - ((1 # 2) * ic + (3 # 9007199254740992) * ak))%Q).
  { rewrite <- E2. ring. }
  rewrite E1, E3 in Q1. rewrite E1, E5 in Q2. rewrite E4 in Q3.
  assert (Hic : (ic * (1 + (1 # 1048576)) <= 1)%Q).
  { assert (H : (ic * (1 + (1 # 1048576)) <= ic * c)%Q) by (apply Qmult_le_l; lra).
    rewrite (Qmult_comm ic c), Hci in H. exact H. }
  apply Qabs_Qle_condition in F3.
  set (RI := (rq * ic)%Q) in *. set (ARI := (ar * ic)%Q) in *.
  apply Math_round_near; fold kq; lra.
Qed.

(** A step of less than a pixel: every whole pixel is the pixel of its own
    grid index. *)
Lemma snap_fine (r : Z) :
  (s * u <= 1 - (1 # 1048576))%Q ->
  (Qabs (inject_Z r) <= 134217728)%Q ->
  Math_round (gridPixel s u (gridIndex s u (inject_Z r))) = r.
Proof.
  intros Hc Hr.
  pose proof (step_pos s u Hs Hu) as Hc0.
  pose proof (inv_step s u Hs Hu) as (Hi & Hci & _).
  pose proof (gridIndex_err s u Hs Hu r) as F3.
  unfold gridIndex. set (d := fl (fl (inject_Z r / u) / s)) in *.
  destruct (Math_round_bounds d) as [B1 B2].
  set (k := Math_round d) in *.
  pose proof (gridPixel_err s u Hs Hu k) as F1.
  set (m := gridPixel s u k) in *.
  set (c := (s * u)%Q) in *. set (ic := (/ c)%Q) in *.
  set (kq := inject_Z k) in *. set (rq := inject_Z r) in *.
  pose proof (Qabs_nonneg rq) as Har0.
  pose proof (Qle_Qabs rq) as Hr1.
  pose proof (Qle_Qabs (- rq)) as Hr2. rewrite Qabs_opp in Hr2.
  set (ak := Qabs kq) in *. set (ar := Qabs rq) in *.
  apply Qabs_Qle_condition in F3.
  assert (P1 : (rq * ic <= ar * ic)%Q) by (apply Qmult_le_compat_r; lra).
  assert (P2 : (- (ar * ic) <= rq * ic)%Q).
  { assert (H : ((- rq) * ic <= ar * ic)%Q) by (apply Qmult_le_compat_r; lra). lra. }
  set (P := (ar * ic)%Q) in *. set (RI := (rq * ic)%Q) in *.
  assert (G1 : (kq - RI <= (1 # 2) + (3 # 9007199254740992) * P)%Q) by lra.
  assert (G2 : (- ((1 # 2) + (3 # 9007199254740992) * P) < kq - RI)%Q) by lra.
  assert (Hak : (ak <= P + (1 # 2) + (3 # 9007199254740992) * P)%Q).
  { unfold ak. apply Qabs_Qle_condition. split; lra. }
  (* multiplied by the step *)
  assert (E1 : ((kq - RI) * c == kq * c - rq)%Q).
  { unfold RI. transitivity (kq * c - rq * (c * ic))%Q; [ring|]. rewrite Hci. ring. }
  assert (E2 : (P * c == ar)%Q).
  { unfold P. transitivity (ar * (c * ic))%Q; [ring|]. rewrite Hci. ring. }
  assert (Q1 : ((kq - RI) * c <= ((1 # 2) + (3 # 9007199254740992) * P) * c)%Q)
    by (apply Qmult_le_compat_r; lra).
  assert (Q2 : (- ((1 # 2) + (3 # 9007199254740992) * P) * c < (kq - RI) * c)%Q)
    by (apply Qmult_lt_compat_r; lra).
  assert (Q3 : (ak * c <= (P + (1 # 2) + (3 # 9007199254740992) * P) * c)%Q)
    by (apply Qmult_le_compat_r; lra).
  assert (E3 : (((1 # 2) + (3 # 9007199254740992) * P) * c
                == (1 # 2) * c + (3 # 9007199254740992) * ar)%Q).
  { rewrite <- E2. ring. }
  assert (E4 : ((P + (1 # 2) + (3 # 9007199254740992) * P) * c
                == ar + (1 # 2) * c + (3 # 9007199254740992) * ar)%Q).
  { rewrite <- E2. ring. }
  assert (E5 : (- ((1 # 2) + (3 # 9007199254740992) * P) * c
                == - ((1 # 2) * c + (3 # 9007199254740992) * ar))%Q).
  { rewrite <- E2. ring. }
  rewrite E1, E3 in Q1. rewrite E1, E5 in Q2. rewrite E4 in Q3.
  apply Qabs_Qle_condition in F1.
  set (KC := (kq * c)%Q) in *. set (AKC := (ak * c)%Q) in *.
  apply Math_round_near; fold rq; lra.
Qed.

(** A step of one pixel, up to rounding: every grid index is its own pixel
    and its own grid index. *)
Lemma snap_near (k : Z) :
  (Qabs (s * u - 1) <= 1 # 35184372088832)%Q ->
  (Qabs (inject_Z k) <= 134217728)%Q ->
  Math_round (gridPixel s u k) = k /\ gridIndex s u (inject_Z k) = k.
Proof.
  intros Hc Hk.
  pose proof (step_pos s u Hs Hu) as Hc0.
  pose proof (inv_step s u Hs Hu) as (Hi & Hci & _).
  pose proof (gridPixel_err s u Hs Hu k) as F1.
  pose proof (gridIndex_err s u Hs Hu k) as F3.
  unfold gridIndex.
  set (m := gridPixel s u k) in *.
  set (d := fl (fl (inject_Z k / u) / s)) in *.
  set (c := (s * u)%Q) in *. set (ic := (/ c)%Q) in *.
  set (kq := inject_Z k) in *.
  pose proof (Qabs_nonneg kq) as Hak0.
  apply Qabs_Qle_condition in Hc.
  assert (Hic : (1 - (2 # 35184372088832) <= ic)%Q /\ (ic <= 1 + (2 # 35184372088832))%Q).
  { split; nra. }
  assert (D1 : (Qabs (kq * c - kq) <= Qabs kq * (1 # 35184372088832))%Q).
  { assert (E : (kq * c - kq == kq * (c - 1))%Q) by ring.
    rewrite E, Qabs_Qmult. apply Qmult_le_l_weak; [exact Hak0|].
    apply Qabs_Qle_condition. lra. }
  assert (D2 : (Qabs (kq * ic - kq) <= Qabs kq * (2 # 35184372088832))%Q).
  { assert (E : (kq * ic - kq == kq * (ic - 1))%Q) by ring.
    rewrite E, Qabs_Qmult. apply Qmult_le_l_weak; [exact Hak0|].
    apply Qabs_Qle_condition. lra. }
  assert (D3 : (Qabs kq * c <= Qabs kq * (1 + (1 # 35184372088832)))%Q)
    by (apply Qmult_le_l_weak; [exact Hak0|lra]).
  assert (D4 : (Qabs kq * ic <= Qabs kq * (1 + (2 # 35184372088832)))%Q)
    by (apply Qmult_le_l_weak; [exact Hak0|lra]).
  apply Qabs_Qle_condition in F1, F3, D1, D2.
  set (ak := Qabs kq) in *.
  set (KC := (kq * c)%Q) in *. set (KI := (kq * ic)%Q) in *.
  set (AC := (ak * c)%Q) in *. set (AI := (ak * ic)%Q) in *.
  split; apply Math_round_near; fold kq; lra.
Qed.

End SnapRegimes.

Lemma tiny_bound : (2 ^ (-1075) <= 1 # 2417851639229258349412352)%Q.
Proof.
  eapply Qle_trans; [apply (pow2_le (-1075) (-81)); lia|].
  vm_compute. discriminate.
Qed.

(** Rounding enlarges a magnitude by one part in 2^53 at most, and by
    2^-81 for the numbers next to 0. *)
Lemma fl_abs_bound (x : Q) :
  (Qabs (fl x)
   <= Qabs x * (1 + (1 # 9007199254740992)) + (1 # 2417851639229258349412352))%Q.
Proof.
  pose proof (fl_err_any x) as He. pose proof tiny_bound as Ht.
  pose proof (Qabs_triangle (fl x - x) x) as H.
  assert (E : (fl x - x + x == fl x)%Q) by ring. rewrite E in H.
  set (t := (2 ^ (-1075))%Q) in *. clearbody t. lra.
Qed.

Lemma Math_round_abs (d : Q) : (Qabs (inject_Z (Math_round d)) <= Qabs d + (1 # 2))%Q.
Proof.
  destruct (Math_round_bounds d) as [B1 B2].
  pose proof (Qle_Qabs d). pose proof (Qle_Qabs (- d)) as H'. rewrite Qabs_opp in H'.
  apply Qabs_Qle_condition. split; lra.
Qed.

Section SnapBounds.
Variables s u : Q.
Hypothesis Hs : (1 # 1099511627776 <= s)%Q /\ (s <= 1099511627776)%Q.
Hypothesis Hu : (1 # 1099511627776 <= u)%Q /\ (u <= 1099511627776)%Q.

(** The grid index of a pixel position is the position divided by the
    step, up to rounding, in magnitude. *)
Lemma gridIndex_bound (p : Q) :
  (Qabs (inject_Z (gridIndex s u p))
   <= Qabs p * / (s * u) * (1 + (3 # 9007199254740992)) + 1)%Q.
Proof.
  pose proof (inv_step s u Hs Hu) as (Hi & Hci & _).
  assert (Hiu : (0 < / u)%Q) by (apply Qinv_lt_0_compat; lra).
  assert (His : (0 < / s)%Q) by (apply Qinv_lt_0_compat; lra).
  assert (Es : (s * / s == 1)%Q) by (apply Qmult_inv_r; lra).
  assert (His' : (/ s <= 1099511627776)%Q) by nra.
  assert (Eic : (/ u * / s == / (s * u))%Q) by (rewrite Qinv_mult_distr; ring).
  unfold gridIndex.
  pose proof (Math_round_abs (fl (fl (p / u) / s))) as Hk.
  pose proof (fl_abs_bound (fl (p / u) / s)) as Hd.
  pose proof (fl_abs_bound (p / u)) as Ha.
  unfold Qdiv in *.
  rewrite Qabs_Qmult, (Qabs_pos (/ s)) in Hd by lra.
  rewrite Qabs_Qmult, (Qabs_pos (/ u)) in Ha by lra.
  pose proof (Qabs_nonneg p) as Hp0.
  pose proof (Qabs_nonneg (fl (p * / u))) as Ha0.
  assert (Ha' : (Qabs (fl (p * / u)) * / s
                 <= (Qabs p * / u * (1 + (1 # 9007199254740992))
                     + (1 # 2417851639229258349412352)) * / s)%Q)
    by (apply Qmult_le_compat_r; lra).
  assert (E : ((Qabs p * / u * (1 + (1 # 9007199254740992))
                + (1 # 2417851639229258349412352)) * / s
               == Qabs p * / (s * u) * (1 + (1 # 9007199254740992))
                  + (1 # 2417851639229258349412352) * / s)%Q).
  { rewrite <- Eic. ring. }
  rewrite E in Ha'.
  assert (Hpi : (0 <= Qabs p * / (s * u))%Q) by (apply Qmult_le_0_compat; lra).
  set (PI := (Qabs p * / (s * u))%Q) in *.
  set (A := (Qabs (fl (p * / u)) * / s)%Q) in *.
  set (invs := (/ s)%Q) in *.
  lra.
Qed.

End SnapBounds.

Lemma snapPx_grid (sc : Scale) (s px : Q) :
  ~ (s == 0)%Q ->
  snapPx (Some sc) s px
  = Math_round (gridPixel s (pxPerUnit sc) (gridIndex s (pxPerUnit sc) px)).
Proof.
  intros Hs. unfold snapPx.
  destruct (Qeq_bool s 0) eqn:E; [apply Qeq_bool_iff in E; contradiction|].
  reflexivity.
Qed.

Lemma snapPx_snapped_fixed (sc : Scale) (snapUnits px : Q) :
  (1 # 1099511627776 <= snapUnits)%Q /\ (snapUnits <= 1099511627776)%Q ->
  (1 # 1099511627776 <= pxPerUnit sc)%Q /\ (pxPerUnit sc <= 1099511627776)%Q ->
  (Qabs px <= 67108864)%Q ->
  (snapUnits * pxPerUnit sc <= 1 - (1 # 1048576)
   \/ Qabs (snapUnits * pxPerUnit sc - 1) <= 1 # 35184372088832
   \/ 1 + (1 # 1048576) <= snapUnits * pxPerUnit sc)%Q ->
  snapPx (Some sc) snapUnits (inject_Z (snapPx (Some sc) snapUnits px))
  = snapPx (Some sc) snapUnits px.
Proof.
  intros Hs Hu Hp Hreg.
  assert (Hs0 : ~ (snapUnits == 0)%Q) by (intros E; rewrite E in Hs; destruct Hs as [H _]; revert H; vm_compute; auto).
  rewrite !snapPx_grid by exact Hs0.
  set (u := pxPerUnit sc) in *. set (s := snapUnits) in *.
  pose proof (step_pos s u Hs Hu) as Hc0.
  pose proof (inv_step s u Hs Hu) as (Hi & Hci & _).
  pose proof (gridIndex_bound s u Hs Hu px) as Hk.
  set (k := gridIndex s u px) in *.
  pose proof (Qabs_nonneg px) as Hp0.
  destruct Hreg as [Hfine|[Hnear|Hcoarse]].
  - (* less than a pixel *)
    apply (snap_fine s u Hs Hu); [exact Hfine|].
    pose proof (gridPixel_err s u Hs Hu k) as F1.
    pose proof (Math_round_abs (gridPixel s u k)) as Hr.
    pose proof (Qabs_triangle (gridPixel s u k - inject_Z k * (s * u)) (inject_Z k * (s * u))) as Ht.
    assert (E : (gridPixel s u k - inject_Z k * (s * u) + inject_Z k * (s * u)
                 == gridPixel s u k)%Q) by ring.
    rewrite E in Ht. clear E.
    rewrite (Qabs_Qmult (inject_Z k)), (Qabs_pos (s * u)) in Ht by lra.
    assert (Hkc : (Qabs (inject_Z k) * (s * u)
                   <= (Qabs px * / (s * u) * (1 + (3 # 9007199254740992)) + 1) * (s * u))%Q)
      by (apply Qmult_le_compat_r; lra).
    assert (E : ((Qabs px * / (s * u) * (1 + (3 # 9007199254740992)) + 1) * (s * u)
                 == Qabs px * (1 + (3 # 9007199254740992)) + s * u)%Q).
    { transitivity (Qabs px * (s * u * / (s * u)) * (1 + (3 # 9007199254740992)) + s * u)%Q;
        [ring|]. rewrite Hci. ring. }
    rewrite E in Hkc. clear E.
    set (c := (s * u)%Q) in *.
    set (KC := (Qabs (inject_Z k) * c)%Q) in *.
    lra.
  - (* one pixel *)
    apply Qabs_Qle_condition in Hnear as Hn.
    assert (Hic : (/ (s * u) <= 1 + (2 # 35184372088832))%Q).
    { set (c := (s * u)%Q) in *. set (ic := (/ c)%Q) in *. nra. }
    assert (Hpi : (Qabs px * / (s * u) <= Qabs px * (1 + (2 # 35184372088832)))%Q)
      by (apply Qmult_le_l_weak; assumption).
    assert (Hk27 : (Qabs (inject_Z k) <= 134217728)%Q).
    { set (PI := (Qabs px * / (s * u))%Q) in *. lra. }
    destruct (snap_near s u Hs Hu k Hnear Hk27) as [E1 E2].
    rewrite E1, E2. exact E1.
  - (* more than a pixel *)
    assert (Hic : (/ (s * u) <= 1)%Q).
    { set (c := (s * u)%Q) in *. set (ic := (/ c)%Q) in *. nra. }
    assert (Hpi : (Qabs px * / (s * u) <= Qabs px * 1)%Q)
      by (apply Qmult_le_l_weak; assumption).
    assert (Hk27 : (Qabs (inject_Z k) <= 134217728)%Q).
    { set (PI := (Qabs px * / (s * u))%Q) in *. lra. }
    rewrite (snap_coarse s u Hs Hu k Hcoarse Hk27). reflexivity.
Qed.

Lemma inject_Z_pos (z : Z) : 0 < z -> (0 < inject_Z z)%Q.
Proof. intros H. change 0%Q with (inject_Z 0). rewrite <- Zlt_Qlt. exact H. Qed.

Lemma ratio64_err (a b : Z) :
  1 <= a -> 1 <= b <= 1099511627776 ->
  let x := (inject_Z a / inject_Z b)%Q in
  (x * (1 - (1 # 9007199254740992)) <= ratio64 a b)%Q
  /\ (ratio64 a b <= x * (1 + (1 # 9007199254740992)))%Q
  /\ (1 # 1099511627776 <= x)%Q.
Proof.
  intros Ha Hb x.
  pose proof (inject_Z_pos b ltac:(lia)) as Hb0.
  assert (Ha1 : (1 <= inject_Z a)%Q) by (change 1%Q with (inject_Z 1); rewrite <- Zle_Qle; lia).
  assert (Hb1 : (inject_Z b <= 1099511627776)%Q)
    by (change 1099511627776%Q with (inject_Z 1099511627776); rewrite <- Zle_Qle; lia).
  assert (Hx : (1 # 1099511627776 <= x)%Q).
  { unfold x. apply Qle_shift_div_l; [exact Hb0|]. lra. }
  assert (Hn : (2 ^ (-1022) <= Qabs x)%Q).
  { apply normal_of_bound. rewrite Qabs_pos by lra. lra. }
  pose proof (fl_err x (or_intror Hn)) as He.
  rewrite (Qabs_pos x) in He by lra.
  apply Qabs_Qle_condition in He. unfold ratio64. fold x.
  repeat split; lra.
Qed.

(** The step of a grid whose snap unit and scale are rounded quotients of
    small whole numbers is one pixel up to rounding, or differs from one
    pixel by more than one part in 2^16. *)
Lemma step_regime (a b w v : Z) :
  1 <= a <= 32 -> 1 <= b <= 1440 -> 1 <= w <= 4294967296 -> 1 <= v <= 31 ->
  let c := (ratio64 a b * ratio64 w v)%Q in
  (c <= 1 - (1 # 1048576) \/ Qabs (c - 1) <= 1 # 35184372088832 \/ 1 + (1 # 1048576) <= c)%Q.
Proof.
  intros Ha Hb Hw Hv c.
  destruct (ratio64_err a b ltac:(lia) ltac:(lia)) as (X1 & X2 & X3).
  destruct (ratio64_err w v ltac:(lia) ltac:(lia)) as (Y1 & Y2 & Y3).
  set (x := (inject_Z a / inject_Z b)%Q) in *.
  set (y := (inject_Z w / inject_Z v)%Q) in *.
  pose proof (inject_Z_pos b ltac:(lia)) as Hb0.
  pose proof (inject_Z_pos v ltac:(lia)) as Hv0.
  assert (Hbv : (0 < inject_Z (b * v))%Q) by (apply inject_Z_pos; nia).
  assert (Ec0 : (x * y == inject_Z (a * w) / inject_Z (b * v))%Q).
  { unfold x, y. rewrite !inject_Z_mult. field. split; lra. }
  assert (Hbv' : (inject_Z (b * v) <= 65536)%Q).
  { change 65536%Q with (inject_Z 65536). rewrite <- Zle_Qle. nia. }
  (* the product of the rounded quotients *)
  assert (Hlo : (x * y * ((1 - (1 # 9007199254740992)) * (1 - (1 # 9007199254740992))) <= c)%Q).
  { unfold c. set (X := ratio64 a b) in *. set (Y := ratio64 w v) in *.
    assert (H1 : (x * (1 - (1 # 9007199254740992)) * (y * (1 - (1 # 9007199254740992)))
                  <= X * (y * (1 - (1 # 9007199254740992))))%Q)
      by (apply Qmult_le_compat_r; lra).
    assert (H2 : (X * (y * (1 - (1 # 9007199254740992))) <= X * Y)%Q)
      by (apply Qmult_le_l_weak; lra).
    lra. }
  assert (Hhi : (c <= x * y * ((1 + (1 # 9007199254740992)) * (1 + (1 # 9007199254740992))))%Q).
  { unfold c. set (X := ratio64 a b) in *. set (Y := ratio64 w v) in *.
    assert (H1 : (X * Y <= X * (y * (1 + (1 # 9007199254740992))))%Q)
      by (apply Qmult_le_l_weak; lra).
    assert (H2 : (X * (y * (1 + (1 # 9007199254740992)))
                  <= x * (1 + (1 # 9007199254740992)) * (y * (1 + (1 # 9007199254740992))))%Q)
      by (apply Qmult_le_compat_r; lra).
    lra. }
  set (c0 := (x * y)%Q) in *.
  destruct (Z.lt_trichotomy (a * w) (b * v)) as [Hlt|[Heq|Hgt]].
  - left.
    assert (H : (c0 <= 1 - (1 # 65536))%Q).
    { rewrite Ec0. apply Qle_shift_div_r; [exact Hbv|].
      assert (H1 : (inject_Z (a * w) + 1 <= inject_Z (b * v))%Q).
      { change 1%Q with (inject_Z 1). rewrite <- inject_Z_plus, <- Zle_Qle. lia. }
      nra. }
    lra.
  - right. left.
    assert (H : (c0 == 1)%Q).
    { rewrite Ec0, Heq. field. lra. }
    rewrite H in Hlo, Hhi. apply Qabs_Qle_condition. split; lra.
  - right. right.
    assert (H : (1 + (1 # 65536) <= c0)%Q).
    { rewrite Ec0. apply Qle_shift_div_l; [exact Hbv|].
      assert (H1 : (inject_Z (b * v) + 1 <= inject_Z (a * w))%Q).
      { change 1%Q with (inject_Z 1). rewrite <- inject_Z_plus, <- Zle_Qle. lia. }
      nra. }
    lra.
Qed.

Lemma ratio64_range (a b : Z) :
  1 <= a <= 4294967296 -> 1 <= b <= 1440 ->
  (1 # 1099511627776 <= ratio64 a b)%Q /\ (ratio64 a b <= 1099511627776)%Q.
Proof.
  intros Ha Hb.
  destruct (ratio64_err a b ltac:(lia) ltac:(lia)) as (X1 & X2 & _).
  pose proof (inject_Z_pos b ltac:(lia)) as Hb0.
  assert (Ha1 : (1 <= inject_Z a)%Q) by (change 1%Q with (inject_Z 1); rewrite <- Zle_Qle; lia).
  assert (Ha2 : (inject_Z a <= 4294967296)%Q)
    by (change 4294967296%Q with (inject_Z 4294967296); rewrite <- Zle_Qle; lia).
  assert (Hb1 : (1 <= inject_Z b)%Q) by (change 1%Q with (inject_Z 1); rewrite <- Zle_Qle; lia).
  assert (Hb2 : (inject_Z b <= 1440)%Q)
    by (change 1440%Q with (inject_Z 1440); rewrite <- Zle_Qle; lia).
  assert (Hx1 : (1 # 1440 <= inject_Z a / inject_Z b)%Q).
  { apply Qle_shift_div_l; [exact Hb0|]. lra. }
  assert (Hx2 : (inject_Z a / inject_Z b <= 4294967296)%Q).
  { apply Qle_shift_div_r; [exact Hb0|]. nra. }
  set (x := (inject_Z a / inject_Z b)%Q) in *. split; lra.
Qed.

(** Every snap unit on offer is the rounded quotient of two small whole
    numbers. *)
Lemma getSnapOptions_ratio (view : View) (preset lbl : string) (s : Q) :
  (lbl, s) ∈ getSnapOptions view preset ->
  exists a b, 1 <= a <= 32 /\ 1 <= b <= 1440 /\ (s == ratio64 a b)%Q.
Proof.
  intros H.
  assert (F : Forall (fun o : string * Q =>
                        exists a b, 1 <= a <= 32 /\ 1 <= b <= 1440 /\ (o.2 == ratio64 a b)%Q)
                (getSnapOptions view preset)).
  { unfold getSnapOptions.
    destruct view; [| |destruct (regexTest true "Full Month" preset)];
      repeat apply Forall_cons_2; try apply Forall_nil_2;
      match goal with
      | |- context [fl (?a / ?b)] =>
          let a' := eval vm_compute in (Qnum a) in
          let b' := eval vm_compute in (Qnum b) in
          exists a', b'; split; [lia|split; [lia|apply Qeq_refl]]
      | |- context [(_, 1%Q)] => exists 1, 1; split; [lia|split; [lia|vm_compute; reflexivity]]
      | |- context [(_, 2%Q)] => exists 2, 1; split; [lia|split; [lia|vm_compute; reflexivity]]
      end. }
  rewrite Forall_forall in F. exact (F _ H).
Qed.

(** The scale of the component is the rounded quotient of the viewport
    width by a number of units from 1 to 31. *)
Lemma useGanttScale_ratio (view : View) (preset : string) (anchorDate : Date)
    (clientWidth : option N) :
  (forall n, clientWidth = Some n -> (n <= 4294967296)%N) ->
  exists w v,
    1 <= w <= 4294967296 /\ 1 <= v <= 31
    /\ (pxPerUnit (useGanttScale view preset anchorDate clientWidth) == ratio64 w v)%Q.
Proof.
  intros Hw.
  destruct (useGanttScale_units view preset anchorDate clientWidth)
    as (v & t & _ & _ & Hv & Ht & _ & Epx & _).
  cbv zeta in Epx. rewrite Epx.
  assert (Emax : (Math_max 1 (inject_Z v) == inject_Z v)%Q).
  { assert (Hv1 : (1 <= inject_Z v)%Q) by (change 1%Q with (inject_Z 1); rewrite <- Zle_Qle; lia).
    destruct (Math_max_cases 1 (inject_Z v)) as [[_ ->]|[? ->]]; lra. }
  assert (Hwidth : exists w, 1 <= w <= 4294967296 /\ effectiveWidth clientWidth = inject_Z w).
  { destruct clientWidth as [n|]; simpl; [|exists 1200; split; [lia|reflexivity]].
    destruct (N.eqb_spec n 0); [exists 1200; split; [lia|reflexivity]|].
    exists (Z.of_N n). split; [|reflexivity].
    specialize (Hw n eq_refl). lia. }
  destruct Hwidth as (w & Hw' & ->).
  exists w, v. split; [exact Hw'|]. split; [lia|].
  unfold ratio64. apply fl_comp. rewrite Emax. reflexivity.
Qed.

(** On the scales the component computes, with the snap units it offers,
    a snapped pixel position stays where it is, for positions up to 2^26
    pixels either side. *)
Lemma snapPx_fixed_in_component (view view' : View) (preset preset' lbl : string)
    (anchorDate : Date) (clientWidth : option N) (s px : Q) :
  (forall n, clientWidth = Some n -> (n <= 4294967296)%N) ->
  (lbl, s) ∈ getSnapOptions view' preset' ->
  (Qabs px <= 67108864)%Q ->
  let sc := useGanttScale view preset anchorDate clientWidth in
  snapPx (Some sc) s (inject_Z (snapPx (Some sc) s px)) = snapPx (Some sc) s px.
Proof.
  intros Hw Hopt Hpx sc.
  destruct (getSnapOptions_ratio view' preset' lbl s Hopt) as (a & b & Ha & Hb & Es).
  destruct (useGanttScale_ratio view preset anchorDate clientWidth Hw) as (w & v & Hw' & Hv & Eu).
  fold sc in Eu.
  pose proof (ratio64_range a b ltac:(lia) Hb) as Hs.
  pose proof (ratio64_range w v Hw' ltac:(lia)) as Hu.
  pose proof (step_regime a b w v Ha Hb Hw' Hv) as Hreg. cbv zeta in Hreg.
  rewrite <- Es in Hs, Hreg. rewrite <- Eu in Hu, Hreg.
  apply snapPx_snapped_fixed; assumption.
Qed.


(** C7, as stated, fails in binary64.  At [1 + 2^-27] pixels per unit and
    a snap unit of 1, pixel 2^26 is snapped to 67108865, and 67108865 is
    snapped to 67108866: the quotient of 67108865 by the scale lies just
    below [2^26 + 1/2] and is rounded to it, so that the grid index is
    67108865 where the exact quotient gives 67108864.  The floats of the
    machine give the same.  Computed without rounding, both pixels are
    snapped to 67108865. *)
Lemma snapPx_not_idempotent :
  isDouble (pxPerUnit scale_near_one)
  /\ snapPx (Some scale_near_one) 1 67108864 = 67108865
  /\ snapPx (Some scale_near_one) 1 67108865 = 67108866
  /\ snapPxFloat (Z2F 134217729 / Z2F 134217728) (Z2F 1) (Z2F 67108864) = 67108865
  /\ snapPxFloat (Z2F 134217729 / Z2F 134217728) (Z2F 1) (Z2F 67108865) = 67108866
  /\ snapExact (Some scale_near_one) 1 67108864 = 67108865
  /\ snapExact (Some scale_near_one) 1 67108865 = 67108865.
Proof. repeat split; vm_compute; reflexivity. Qed.

(** Rounding also moves single results: at a viewport width of 800 pixels
    with 6 hours visible, pixel 250 lies half way between two quarters of
    an hour and is snapped to 267 when the scale is the exact quotient
    [800 / 6]; in binary64 the grid index falls just below the half and
    the pixel is snapped to 233, where it stays. *)
Lemma snapPx_width_800 :
  let sc := useGanttScale hour "6 Hours" jan1 (Some 800%N) in
  snapPx (Some sc) (fl (15 / 60)) 250 = 233
  /\ snapPx (Some sc) (fl (15 / 60)) 233 = 233
  /\ snapPxFloat (Z2F 800 / Z2F 6) (Z2F 15 / Z2F 60) (Z2F 250) = 233
  /\ snapExact (Some {| totalUnits := 24; visibleUnits := 6;
                        pxPerUnit := 800 / 6; contentPx := 3200 |}) (15 / 60) 250 = 267.
Proof. repeat split; vm_compute; reflexivity. Qed.

(** C7, as the code has it.  In binary64 arithmetic a snapped pixel
    position is snapped to itself, for positions up to 2^26 pixels either
    side, a snap unit and a scale between 2^-40 and 2^40, and a grid step
    [snapUnits * pxPerUnit] that is at most [1 - 2^-20] pixels, or at least
    [1 + 2^-20] pixels, or within 2^-45 of one pixel.  The scales that
    [useGanttScale] computes for viewport widths up to 2^32, with the snap
    units that [getSnapOptions] offers, are among these. *)
Theorem snapPx_idempotent :
  (forall (sc : Scale) (snapUnits px : Q),
      (1 # 1099511627776 <= snapUnits)%Q /\ (snapUnits <= 1099511627776)%Q ->
      (1 # 1099511627776 <= pxPerUnit sc)%Q /\ (pxPerUnit sc <= 1099511627776)%Q ->
      (Qabs px <= 67108864)%Q ->
      (snapUnits * pxPerUnit sc <= 1 - (1 # 1048576)
       \/ Qabs (snapUnits * pxPerUnit sc - 1) <= 1 # 35184372088832
       \/ 1 + (1 # 1048576) <= snapUnits * pxPerUnit sc)%Q ->
      snapPx (Some sc) snapUnits (inject_Z (snapPx (Some sc) snapUnits px))
      = snapPx (Some sc) snapUnits px)
  /\ (forall (view view' : View) (preset preset' label : string) (anchorDate : Date)
             (clientWidth : option N) (snapUnits px : Q),
         (forall n, clientWidth = Some n -> (n <= 4294967296)%N) ->
         (label, snapUnits) ∈ getSnapOptions view' preset' ->
         (Qabs px <= 67108864)%Q ->
         snapPx (Some (useGanttScale view preset anchorDate clientWidth)) snapUnits
           (inject_Z (snapPx (Some (useGanttScale view preset anchorDate clientWidth))
                        snapUnits px))
         = snapPx (Some (useGanttScale view preset anchorDate clientWidth)) snapUnits px).
Proof.
  split.
  - intros sc snapUnits px. apply snapPx_snapped_fixed.
  - intros view view' preset preset' label anchorDate clientWidth snapUnits px.
    apply snapPx_fixed_in_component.
Qed.

(** Pixel 250 at a width of 800 pixels with 6 hours visible, snapped to a
    quarter of an hour. *)
Lemma snapPx_idempotent_witness :
  snapPx (Some (useGanttScale hour "6 Hours" jan1 (Some 800%N))) (fl (15 / 60))
    (inject_Z (snapPx (Some (useGanttScale hour "6 Hours" jan1 (Some 800%N)))
                 (fl (15 / 60)) 250))
  = snapPx (Some (useGanttScale hour "6 Hours" jan1 (Some 800%N))) (fl (15 / 60)) 250.
Proof.
  apply (proj2 snapPx_idempotent hour hour "6 Hours" "6 Hours" "15 min" jan1 (Some 800%N)).
  - intros n [= <-]. vm_compute. discriminate.
  - unfold getSnapOptions. rewrite !elem_of_cons. auto.
  - vm_compute. discriminate.
Defined.

(** ** Drag and resize *)

(** Whatever the state, the handler leaves the task list as it is. *)
Lemma onUp_keeps_tasks (scale : option Scale) (hasCallback : bool) (snapUnits : Q)
    (w : Core) :
  internalTasks (onUp scale hasCallback snapUnits w) = internalTasks w.
Proof.
  unfold onUp. destruct (dragRef w) as [ds|]; [|reflexivity].
  destruct scale as [sc|]; [|reflexivity].
  cbn [internalTasks].
  induction (internalTasks w) as [|t l IH]; simpl; [reflexivity|].
  rewrite IH. destruct (String.eqb (tid t) (dragTask ds)); reflexivity.
Qed.

(** C8. The pointer-up that ends a drag calls [onTasksChange] once, with
    the dragged task and the change record, clears the drag, and leaves the
    task list as it was, element for element. *)
Theorem onUp_reports_once_keeps_tasks (sc : Scale) (snapUnits : Q) (w : Core)
    (ds : DragState) :
  dragRef w = Some ds ->
  let w' := onUp (Some sc) true snapUnits w in
  calls w' =
    calls w ++
    [(dragTask ds,
      {| change_startUnit := (elementLeft (dragEl ds) / pxPerUnit sc)%Q;
         durationU := Math_max (1 # 10) (elementWidth (dragEl ds) / pxPerUnit sc)%Q;
         change_mode := mode ds;
         change_snapUnits := snapUnits |})]
  /\ length (calls w') = S (length (calls w))
  /\ internalTasks w' = internalTasks w
  /\ (forall i, internalTasks w' !! i = internalTasks w !! i)
  /\ dragRef w' = None.
Proof.
  intros Hds w'.
  assert (Htasks : internalTasks w' = internalTasks w) by apply onUp_keeps_tasks.
  assert (Hcalls : calls w' = calls w ++
    [(dragTask ds,
      {| change_startUnit := (elementLeft (dragEl ds) / pxPerUnit sc)%Q;
         durationU := Math_max (1 # 10) (elementWidth (dragEl ds) / pxPerUnit sc)%Q;
         change_mode := mode ds;
         change_snapUnits := snapUnits |})]).
  { unfold w', onUp. rewrite Hds. reflexivity. }
  repeat split.
  - exact Hcalls.
  - rewrite Hcalls, length_app. simpl. lia.
  - exact Htasks.
  - intros i. rewrite Htasks. reflexivity.
  - unfold w', onUp. rewrite Hds. reflexivity.
Qed.

(** Releasing the drag of [dragging_core]. *)
Lemma onUp_reports_once_keeps_tasks_witness :
  length (calls (onUp (Some (useGanttScale hour "24 Hours" jan1 (Some 1200%N))) true (1 # 4)
                   dragging_core)) = 1%nat
  /\ internalTasks (onUp (Some (useGanttScale hour "24 Hours" jan1 (Some 1200%N))) true (1 # 4)
                      dragging_core) = [task_1min; task_3min].
Proof.
  destruct (onUp_reports_once_keeps_tasks
              (useGanttScale hour "24 Hours" jan1 (Some 1200%N)) (1 # 4) dragging_core
              {| mode := move;
                 dragEl := {| styleLeft := Some 120%Q; styleWidth := Some 60%Q;
                              boundingWidth := 60 |};
                 startX := 300; origLeft := 100; origWidth := 60; dragTask := "t1" |}
              eq_refl) as (_ & Hlen & Htasks & _).
  split; [exact Hlen|exact Htasks].
Defined.

(** Without a callback nothing is reported, and a pointer-up with no drag
    in progress reports nothing either. *)
Lemma onUp_silent (scale : option Scale) (hasCallback : bool) (snapUnits : Q) (w : Core) :
  hasCallback = false \/ dragRef w = None \/ scale = None ->
  calls (onUp scale hasCallback snapUnits w) = calls w.
Proof.
  unfold onUp. intros [->|[->| ->]]; [| reflexivity |].
  - destruct (dragRef w), scale; reflexivity.
  - destruct (dragRef w); reflexivity.
Qed.

(** ** Hit-testing *)

Import HitTest.

Lemma pickStep_inv (x y : Q) (l : list (string * GeomEntry)) (acc : option Hit * option Q)
    (entry : string * GeomEntry) :
  pickInv x y l acc -> pickInv x y (l ++ [entry]) (pickStep x y acc entry).
Proof.
  unfold pickStep. destruct acc as [[h|] [d|]]; simpl; try contradiction.
  - intros (l1 & e & l2 & -> & -> & -> & Hc & H1 & H2).
    destruct (containsPoint (rect (snd entry)) x y) eqn:Hin.
    + destruct (Qle_bool (centerDy (rect (snd e)) y) (centerDy (rect (snd entry)) y)) eqn:Hcmp;
        simpl.
      * apply Qle_bool_iff in Hcmp.
        exists l1, e, (l2 ++ [entry]). rewrite <- app_assoc. repeat split; auto.
        apply Forall_app. split; [exact H2|]. constructor; [auto|constructor].
      * assert (Hlt : (centerDy (rect (snd entry)) y < centerDy (rect (snd e)) y)%Q).
        { destruct (Qlt_le_dec (centerDy (rect (snd entry)) y) (centerDy (rect (snd e)) y));
            [assumption|].
          apply Qle_bool_iff in q. congruence. }
        exists (l1 ++ e :: l2), entry, []. repeat split; auto.
        apply Forall_app. split.
        -- eapply Forall_impl; [exact H1|]. simpl. intros e' He' Hc'. specialize (He' Hc'). lra.
        -- constructor.
           ++ intros _. exact Hlt.
           ++ eapply Forall_impl; [exact H2|]. simpl. intros e' He' Hc'. specialize (He' Hc'). lra.
    + exists l1, e, (l2 ++ [entry]). rewrite <- app_assoc. repeat split; auto.
      apply Forall_app. split; [exact H2|]. constructor; [congruence|constructor].
  - intros Hnone.
    destruct (containsPoint (rect (snd entry)) x y) eqn:Hin; simpl.
    + exists l, entry, []. repeat split; auto.
      eapply Forall_impl; [exact Hnone|]. simpl. intros e' He' Hc'. congruence.
    + apply Forall_app. split; [exact Hnone|]. constructor; [exact Hin|constructor].
Qed.

Lemma pickFold_inv (x y : Q) (l2 : list (string * GeomEntry)) :
  forall l1 acc, pickInv x y l1 acc -> pickInv x y (l1 ++ l2) (foldl (pickStep x y) acc l2).
Proof.
  induction l2 as [|e l2 IH]; intros l1 acc Hinv; simpl.
  - rewrite app_nil_r. exact Hinv.
  - replace (l1 ++ e :: l2) with ((l1 ++ [e]) ++ l2) by (rewrite <- app_assoc; reflexivity).
    apply IH, pickStep_inv, Hinv.
Qed.

(** The rectangle test of [pickBarAt] is containment in the closed
    rectangle. *)
Lemma containsPoint_spec (r : DOMRect) (x y : Q) :
  containsPoint r x y = true
  <-> (rect_left r <= x /\ x <= rect_right r /\ rect_top r <= y /\ y <= rect_bottom r)%Q.
Proof.
  unfold containsPoint. rewrite !andb_true_iff, !Qle_bool_iff. tauto.
Qed.

(** C5. [pickBarAt] returns [null] exactly when no captured rectangle
    contains the point, edges included.  Otherwise it returns the task, the
    element and the rectangle of an entry whose rectangle contains the
    point and whose vertical centre, [top + height/2], is strictly nearer to
    the pointer's [y] than that of every containing entry scanned before it,
    and at least as near as that of every containing entry scanned after
    it. *)
Theorem pickBarAt_nearest_center (geom : list (string * GeomEntry)) (x y : Q) :
  let inside (r : DOMRect) :=
    (rect_left r <= x /\ x <= rect_right r /\ rect_top r <= y /\ y <= rect_bottom r)%Q in
  let distance (r : DOMRect) := Qabs (y - (rect_top r + rect_height r / 2)) in
  match pickBarAt geom x y with
  | None => forall k g, (k, g) ∈ geom -> ~ inside (rect g)
  | Some h =>
      exists l1 k g l2,
        geom = l1 ++ (k, g) :: l2
        /\ taskId h = k /\ hit_el h = el g /\ hit_rect h = rect g
        /\ inside (rect g)
        /\ (forall k' g', (k', g') ∈ l1 -> inside (rect g') ->
                          (distance (rect g) < distance (rect g'))%Q)
        /\ (forall k' g', (k', g') ∈ l2 -> inside (rect g') ->
                          (distance (rect g) <= distance (rect g'))%Q)
  end.
Proof.
  intros inside distance. unfold pickBarAt.
  pose proof (pickFold_inv x y geom [] (None, None)) as H.
  simpl in H. specialize (H ltac:(constructor)).
  destruct (foldl (pickStep x y) (None, None) geom) as [[h|] [d|]]; simpl in *;
    try contradiction.
  - destruct H as (l1 & [k g] & l2 & Hgeom & -> & _ & Hin & Hbefore & Hafter).
    exists l1, k, g, l2. cbn [fst snd] in *.
    rewrite Forall_forall in Hbefore, Hafter.
    repeat split; try reflexivity; try exact Hgeom; try (apply containsPoint_spec in Hin; tauto).
    + intros k' g' Hk' Hi'. apply (Hbefore (k', g') Hk'). apply containsPoint_spec. exact Hi'.
    + intros k' g' Hk' Hi'. apply (Hafter (k', g') Hk'). apply containsPoint_spec. exact Hi'.
  - rewrite Forall_forall in H. intros k g Hk Hi.
    specialize (H (k, g) Hk). cbn [snd] in H.
    apply containsPoint_spec in Hi. congruence.
Qed.

(** ** Row layout *)

Lemma rowSegs_unmatched (project : Task -> option Seg) (before after : list Task)
    (t : Task) (r : Resource) :
  rid r <> resourceId t ->
  rowSegs project (before ++ t :: after) r = rowSegs project (before ++ after) r.
Proof.
  intros Hne. unfold rowSegs. rewrite !omap_app. f_equal. simpl.
  replace (String.eqb (resourceId t) (rid r)) with false; [reflexivity|].
  symmetry. apply String.eqb_neq. congruence.
Qed.

Lemma rowLayoutWith_unmatched (project : Task -> option Seg) (resources : list Resource)
    (before after : list Task) (t : Task) (maxLanes laneOffset : Z) :
  (forall r, r ∈ resources -> rid r <> resourceId t) ->
  rowLayoutWith project resources (before ++ t :: after) maxLanes laneOffset
  = rowLayoutWith project resources (before ++ after) maxLanes laneOffset.
Proof.
  unfold rowLayoutWith. generalize (∅ : gmap string RowInfo).
  induction resources as [|r rs IH]; intros acc Hall; simpl; [reflexivity|].
  rewrite rowSegs_unmatched by (apply Hall; left).
  apply IH. intros r' Hr'. apply Hall. right. exact Hr'.
Qed.

(** Every row of the layout is the lane assignment of the segments of one
    listed resource. *)
Lemma rowLayoutWith_lookup (project : Task -> option Seg) (resources : list Resource)
    (tasks : list Task) (maxLanes laneOffset : Z) (key : string) (info : RowInfo) :
  rowLayoutWith project resources tasks maxLanes laneOffset !! key = Some info ->
  exists r,
    r ∈ resources /\ rid r = key
    /\ rowItems info = items (assignLanes (rowSegs project tasks r) maxLanes)
    /\ rowLaneCount info = laneCount (assignLanes (rowSegs project tasks r) maxLanes).
Proof.
  unfold rowLayoutWith.
  assert (Hgen : forall (rs : list Resource) (acc : gmap string RowInfo),
    (forall k i, acc !! k = Some i ->
       exists r, r ∈ resources /\ rid r = k
         /\ rowItems i = items (assignLanes (rowSegs project tasks r) maxLanes)
         /\ rowLaneCount i = laneCount (assignLanes (rowSegs project tasks r) maxLanes)) ->
    (forall r, r ∈ rs -> r ∈ resources) ->
    forall k i,
      foldl (fun byId r =>
               let lanes := assignLanes (rowSegs project tasks r) maxLanes in
               let rowHeight := BASE_ROW_PX + Z.max 0 (laneCount lanes - 1) * laneOffset in
               <[rid r := {| rowItems := items lanes;
                             rowLaneCount := laneCount lanes;
                             rowHeight := rowHeight |}]> byId) acc rs !! k = Some i ->
      exists r, r ∈ resources /\ rid r = k
        /\ rowItems i = items (assignLanes (rowSegs project tasks r) maxLanes)
        /\ rowLaneCount i = laneCount (assignLanes (rowSegs project tasks r) maxLanes)).
  { induction rs as [|r rs IH]; intros acc Hacc Hsub k i; simpl; [apply Hacc|].
    apply IH.
    - intros k' i' Hk'. apply lookup_insert_Some in Hk' as [[<- <-]|[_ Hk']].
      + exists r. repeat split. apply Hsub. left.
      + apply Hacc. exact Hk'.
    - intros r' Hr'. apply Hsub. right. exact Hr'. }
  apply Hgen.
  - intros k i Hk. rewrite lookup_empty in Hk. discriminate.
  - auto.
Qed.

(** Every bar of a row belongs to a task of a listed resource. *)
Lemma rowLayoutWith_items (project : Task -> option Seg) (resources : list Resource)
    (tasks : list Task) (maxLanes laneOffset : Z) (key : string) (info : RowInfo)
    (p : Placed) :
  rowLayoutWith project resources tasks maxLanes laneOffset !! key = Some info ->
  p ∈ rowItems info ->
  ptask p ∈ tasks /\ exists r, r ∈ resources /\ resourceId (ptask p) = rid r.
Proof.
  intros Hrow Hp.
  apply rowLayoutWith_lookup in Hrow as (r & Hr & _ & Hitems & _).
  rewrite Hitems in Hp. apply list_elem_of_lookup in Hp as [n Hn].
  apply assignLanes_placed_input in Hn.
  unfold rowSegs in Hn. apply list_elem_of_omap in Hn as (t' & Ht' & Hf).
  destruct (String.eqb_spec (resourceId t') (rid r)) as [Heq|Hne]; simpl in Hf;
    [|discriminate].
  destruct (project t'); [|discriminate].
  injection Hf as Htask _. subst t'.
  split; [exact Ht'|]. exists r. split; [exact Hr|exact Heq].
Qed.

(** C9. A task whose [resourceId] names no listed resource is in no row,
    and the layout is the one computed without it; the computation is a
    total function, so nothing is raised.  Both variants. *)
Theorem rowLayout_skips_unmatched (resources : list Resource) (before after : list Task)
    (t : Task) (view : View) (preset : string) (hourViewDate anchorDate : Date)
    (maxLanes laneOffset : Z) :
  (forall r, r ∈ resources -> rid r <> resourceId t) ->
  (HitTest.rowLayout resources (before ++ t :: after) view preset hourViewDate anchorDate
     maxLanes laneOffset
   = HitTest.rowLayout resources (before ++ after) view preset hourViewDate anchorDate
       maxLanes laneOffset)
  /\ (forall key info p,
        HitTest.rowLayout resources (before ++ t :: after) view preset hourViewDate anchorDate
          maxLanes laneOffset !! key = Some info ->
        p ∈ rowItems info -> ptask p <> t)
  /\ (Stable.rowLayout resources (before ++ t :: after) view preset anchorDate
        maxLanes laneOffset
      = Stable.rowLayout resources (before ++ after) view preset anchorDate
          maxLanes laneOffset)
  /\ (forall key info p,
        Stable.rowLayout resources (before ++ t :: after) view preset anchorDate
          maxLanes laneOffset !! key = Some info ->
        p ∈ rowItems info -> ptask p <> t).
Proof.
  intros Hall. unfold HitTest.rowLayout, Stable.rowLayout.
  repeat split; try (apply rowLayoutWith_unmatched; exact Hall);
    intros key info p Hk Hp Heq;
    destruct (rowLayoutWith_items _ _ _ _ _ _ _ _ Hk Hp) as (_ & r & Hr & Hres);
    apply (Hall r Hr); congruence.
Qed.

(** One resource, two of its tasks and an orphan between them. *)
Lemma rowLayout_skips_unmatched_witness :
  HitTest.rowLayout [res_r0] ([task_1min] ++ task_orphan :: [task_3min]) hour "24 Hours"
    jan1 jan1 10 5
  = HitTest.rowLayout [res_r0] ([task_1min] ++ [task_3min]) hour "24 Hours" jan1 jan1 10 5.
Proof.
  apply (rowLayout_skips_unmatched [res_r0] [task_1min] [task_3min] task_orphan hour
           "24 Hours" jan1 jan1 10 5).
  intros r Hr. apply list_elem_of_singleton in Hr as ->. vm_compute. discriminate.
Defined.
